(** * ngx_freebsd_sendfile_chain: the FreeBSD output-chain transmission engine

    Shallow embedding of [src/os/unix/ngx_freebsd_sendfile_chain.c] and the
    properties of its coalescing scans, its completion pass and its retry
    loop.

    Conventions of the embedding.

    - Pointers to hunks are references into a store of hunks, so two chain
      links may share one hunk; a chain pointer ([ngx_chain_t *]) is the
      list of links reachable from it, [NULL] being the empty list.  Every
      chain pointer the function handles is a suffix of the chain it was
      called with, and for two suffixes of one list being the same pointer
      is being the same list (lemma [suffix_same_pointer]).
    - [char *] addresses, [off_t] offsets and the [ssize_t]/[size_t] byte
      counts are integers of [Z].  The widths of these C types come from
      the platform's headers, not from this file; the arithmetic here is
      the exact one, which is what the C code computes as long as no
      difference or sum leaves the range of its type (the casts to
      [size_t] of lines 86 and 99 are then the identity).
    - Everything outside the function is an input: what the pool, the
      socket option and the two system calls answer during one iteration of
      the loop is an [os_reply]; a call consumes one reply per iteration.
      The system calls issued are recorded in the machine's trace.
    - The [ngx_log_*] calls have no effect on the state modelled here and
      are left out. *)

From Stdlib Require Import ZArith List Bool Lia.
Import ListNotations.
Open Scope Z_scope.

(** ** Data model *)

Definition NULL : Z := 0.

Record ngx_file_t := { fd : Z }.

Record ngx_hunk_t := {
  pos : Z;          (* char *pos:  start of the unsent memory data *)
  last : Z;         (* char *last: end of the memory data *)
  file_pos : Z;     (* off_t file_pos *)
  file_last : Z;    (* off_t file_last *)
  type : Z;         (* int type: storage bits and flags *)
  file : ngx_file_t (* ngx_file_t *file, dereferenced only for file hunks *)
}.

(** Modelled from the spec: [ngx_hunk.h] is not part of the sources at hand;
    it declares the type bits and the three macros used by the function.
    The spec's data model has memory spans (range [pos, last)), file spans
    (range [file_pos, file_last)) and special spans, which carry nothing
    but flags; the size of a span is [last - pos] or
    [file_last - file_pos].  The function tests the memory and the file bit
    independently, so the type is a bit set as in the header. *)
Definition NGX_HUNK_IN_MEMORY : Z := 0x0001.
Definition NGX_HUNK_FILE : Z := 0x0100.
Definition NGX_HUNK_FLUSH : Z := 0x1000.
Definition NGX_HUNK_LAST : Z := 0x2000.

(** [h->type & MASK] used as a C condition. *)
Definition has_bits (h : ngx_hunk_t) (mask : Z) : bool :=
  negb (Z.land (type h) mask =? 0).

(** Modelled from the spec: [ngx_hunk_special(h)] of [ngx_hunk.h], the hunk
    has no bit other than the flush and last flags. *)
Definition ngx_hunk_special (h : ngx_hunk_t) : bool :=
  type h =? Z.land (type h) (Z.lor NGX_HUNK_FLUSH NGX_HUNK_LAST).

(** Modelled from the spec: [ngx_hunk_in_memory_only(h)] of [ngx_hunk.h],
    of the memory and file bits exactly the memory bit is set. *)
Definition ngx_hunk_in_memory_only (h : ngx_hunk_t) : bool :=
  Z.land (type h) (Z.lor NGX_HUNK_IN_MEMORY NGX_HUNK_FILE)
  =? NGX_HUNK_IN_MEMORY.

(** Modelled from the spec: [ngx_hunk_size(h)] of [ngx_hunk.h], the
    remaining size of a span. *)
Definition ngx_hunk_size (h : ngx_hunk_t) : Z :=
  if has_bits h NGX_HUNK_IN_MEMORY then last h - pos h
  else file_last h - file_pos h.

(** Hunk pointers and the store they point into. *)
Definition hunk_ref := nat.
Definition store := hunk_ref -> ngx_hunk_t.

Definition upd (st : store) (p : hunk_ref) (h : ngx_hunk_t) : store :=
  fun q => if Nat.eqb q p then h else st q.

(** A chain pointer: the links from it on, each holding its [hunk]. *)
Definition ngx_chain_t := list hunk_ref.

Fixpoint chain_eqb (a b : ngx_chain_t) : bool :=
  match a, b with
  | [], [] => true
  | x :: a', y :: b' => Nat.eqb x y && chain_eqb a' b'
  | _, _ => false
  end.

Definition is_suffix (a b : ngx_chain_t) : Prop := exists k, b = k ++ a.

Record iovec := { iov_base : Z; iov_len : Z }.

(** An [ngx_array_t] of [struct iovec], newest entry first: the head is the
    entry the local [iov] points to, and [iov == NULL] is the empty array
    ([iov] is reset together with the array before each scan).  [elts]
    gives the entries in the order the system calls see them. *)
Definition ngx_array_t := list iovec.
Definition elts (a : ngx_array_t) : list iovec := rev a.
Definition nelts (a : ngx_array_t) : nat := length a.

Record ngx_connection_t := {
  c_fd : Z;               (* c->fd *)
  c_write_ready : bool;   (* c->write->ready *)
  c_sent : Z;             (* c->sent *)
  c_tcp_nopush : bool     (* c->tcp_nopush *)
}.

(** The two tunables of [ngx_freebsd_init.h]. *)
Record ngx_freebsd_tunables := {
  ngx_freebsd_use_tcp_nopush : Z;
  ngx_freebsd_sendfile_nbytes_bug : Z
}.

Inductive syscall :=
| sys_tcp_nopush (s : Z)
| sys_sendfile (file_fd s : Z) (offset nbytes : Z)
               (headers trailers : list iovec)
| sys_writev (s : Z) (iov : list iovec).

Record machine := {
  conn : ngx_connection_t;
  hunks : store;
  trace : list syscall     (* system calls issued, oldest first *)
}.

(** What the environment answers during one iteration. *)
Record os_reply := {
  header_init_ok : bool;          (* ngx_init_array(header, ...) got memory *)
  trailer_init_ok : bool;         (* ngx_init_array(trailer, ...) got memory *)
  header_push_ok : nat -> bool;   (* ngx_push_array(&header) with n entries *)
  trailer_push_ok : nat -> bool;  (* ngx_push_array(&trailer) with n entries *)
  tcp_nopush_rc : Z;              (* ngx_tcp_nopush(c->fd) *)
  io_rc : Z;                      (* return value of sendfile() or writev() *)
  io_errno : Z;                   (* ngx_errno after it *)
  io_sent : Z                     (* what sendfile() stored in &sent *)
}.

Definition NGX_ERROR : Z := -1.
Definition NGX_EINTR : Z := 4.     (* EINTR of FreeBSD's errno.h *)
Definition NGX_EAGAIN : Z := 35.   (* EAGAIN of FreeBSD's errno.h *)

(** ** The coalescing scans (lines 56-129) *)

Inductive scan_result :=
| scan_fault                       (* [iov->iov_len] with [iov == NULL] *)
| scan_nomem                       (* ngx_push_array() returned NULL *)
| scan_done (prev : Z) (arr : ngx_array_t) (hsize : Z) (ce : ngx_chain_t).

(** Lines 59-80: the header scan, from the locals [prev], [header] and
    [hsize] at a link [ce] to the locals when the loop is left. *)
Fixpoint header_scan (st : store) (push_ok : nat -> bool) (ce : ngx_chain_t)
    (prev : Z) (header : ngx_array_t) (hsize : Z) : scan_result :=
  match ce with
  | [] => scan_done prev header hsize []
  | p :: next =>
      let h := st p in
      if ngx_hunk_special h then
        header_scan st push_ok next prev header hsize
      else if negb (ngx_hunk_in_memory_only h) then
        scan_done prev header hsize ce
      else if prev =? pos h then
        match header with
        | [] => scan_fault
        | iov :: older =>
            header_scan st push_ok next (last h)
              ({| iov_base := iov_base iov;
                  iov_len := iov_len iov + (last h - pos h) |} :: older)
              (hsize + (last h - pos h))
        end
      else if push_ok (nelts header) then
        header_scan st push_ok next (last h)
          ({| iov_base := pos h; iov_len := last h - pos h |} :: header)
          (hsize + (last h - pos h))
      else scan_nomem
  end.

(** Lines 110-129: the trailer scan; the same loop without [hsize]. *)
Fixpoint trailer_scan (st : store) (push_ok : nat -> bool) (ce : ngx_chain_t)
    (prev : Z) (trailer : ngx_array_t) : scan_result :=
  match ce with
  | [] => scan_done prev trailer 0 []
  | p :: next =>
      let h := st p in
      if ngx_hunk_special h then
        trailer_scan st push_ok next prev trailer
      else if negb (ngx_hunk_in_memory_only h) then
        scan_done prev trailer 0 ce
      else if prev =? pos h then
        match trailer with
        | [] => scan_fault
        | iov :: older =>
            trailer_scan st push_ok next (last h)
              ({| iov_base := iov_base iov;
                  iov_len := iov_len iov + (last h - pos h) |} :: older)
        end
      else if push_ok (nelts trailer) then
        trailer_scan st push_ok next (last h)
          ({| iov_base := pos h; iov_len := last h - pos h |} :: trailer)
      else scan_nomem
  end.

(** Lines 92-102: coalescing of the file hunks that follow [file]. *)
Fixpoint file_coalesce (st : store) (f : ngx_hunk_t) (fsize fprev : Z)
    (ce : ngx_chain_t) : Z * ngx_chain_t :=
  match ce with
  | [] => (fsize, [])
  | p :: next =>
      let h := st p in
      if has_bits h NGX_HUNK_FILE then
        if negb (fd (file f) =? fd (file h)) || negb (fprev =? file_pos h)
        then (fsize, ce)
        else file_coalesce st f (fsize + (file_last h - file_pos h))
               (file_last h) next
      else (fsize, ce)
  end.

(** Lines 84-103: [file], [fsize] and [ce] after "get the file hunk". *)
Definition file_region (st : store) (ce : ngx_chain_t)
    : option hunk_ref * Z * ngx_chain_t :=
  match ce with
  | [] => (None, 0, [])
  | p :: next =>
      if has_bits (st p) NGX_HUNK_FILE then
        let f := st p in
        let '(fsize, ce') :=
          file_coalesce st f (file_last f - file_pos f) (file_last f) next in
        (Some p, fsize, ce')
      else (None, 0, ce)
  end.

(** ** The completion pass (lines 223-260) *)

(** Lines 238-244: the hunk is sent whole. *)
Definition hunk_consume (h : ngx_hunk_t) : ngx_hunk_t :=
  {| pos := if has_bits h NGX_HUNK_IN_MEMORY then last h else pos h;
     last := last h;
     file_pos := if has_bits h NGX_HUNK_FILE then file_last h else file_pos h;
     file_last := file_last h;
     type := type h;
     file := file h |}.

(** Lines 249-255: the hunk is sent in part. *)
Definition hunk_advance (h : ngx_hunk_t) (sent : Z) : ngx_hunk_t :=
  {| pos := if has_bits h NGX_HUNK_IN_MEMORY then pos h + sent else pos h;
     last := last h;
     file_pos :=
       if has_bits h NGX_HUNK_FILE then file_pos h + sent else file_pos h;
     file_last := file_last h;
     type := type h;
     file := file h |}.

(** Lines 223-260: the store after the loop and the link [ce] it stops at,
    which becomes [in]. *)
Fixpoint completion (st : store) (sent : Z) (ce : ngx_chain_t)
    : store * ngx_chain_t :=
  match ce with
  | [] => (st, [])
  | p :: next =>
      let h := st p in
      if ngx_hunk_special h then completion st sent next
      else if sent =? 0 then (st, ce)
      else
        let size := ngx_hunk_size h in
        if sent >=? size then
          completion (upd st p (hunk_consume h)) (sent - size) next
        else (upd st p (hunk_advance h sent), ce)
  end.

(** ** One iteration of the loop (lines 42-260) *)

Definition with_conn (m : machine) (c : ngx_connection_t) : machine :=
  {| conn := c; hunks := hunks m; trace := trace m |}.

Definition emit (m : machine) (e : syscall) : machine :=
  {| conn := conn m; hunks := hunks m; trace := trace m ++ [e] |}.

Definition set_tcp_nopush (c : ngx_connection_t) : ngx_connection_t :=
  {| c_fd := c_fd c; c_write_ready := c_write_ready c; c_sent := c_sent c;
     c_tcp_nopush := true |}.

Definition set_write_ready (c : ngx_connection_t) (b : bool)
    : ngx_connection_t :=
  {| c_fd := c_fd c; c_write_ready := b; c_sent := c_sent c;
     c_tcp_nopush := c_tcp_nopush c |}.

Definition add_sent (c : ngx_connection_t) (sent : Z) : ngx_connection_t :=
  {| c_fd := c_fd c; c_write_ready := c_write_ready c;
     c_sent := c_sent c + sent; c_tcp_nopush := c_tcp_nopush c |}.

Inductive body_result :=
| body_error (m : machine)      (* return NGX_CHAIN_ERROR *)
| body_fault                    (* NULL dereferenced in a scan *)
| body_test (m : machine) (in' tail : ngx_chain_t) (eintr eagain : bool).
                                (* line 262 reached with these locals *)

(** Lines 221-260: [c->sent += sent], the completion pass and [in = ce]. *)
Definition apply_sent (m : machine) (sent : Z) (in_ tail : ngx_chain_t)
    (eintr eagain : bool) : body_result :=
  let '(st', in') := completion (hunks m) sent in_ in
  body_test {| conn := add_sent (conn m) sent; hunks := st';
               trace := trace m |} in' tail eintr eagain.

(** Lines 138-195: the sendfile() branch. *)
Definition sendfile_branch (t : ngx_freebsd_tunables) (w : os_reply)
    (m : machine) (in_ : ngx_chain_t) (f : hunk_ref) (fsize hsize : Z)
    (header trailer : ngx_array_t) (tail : ngx_chain_t) : body_result :=
  let nopush :=
    negb (ngx_freebsd_use_tcp_nopush t =? 0)
    && negb (c_tcp_nopush (conn m)) in
  let m1 :=
    if nopush
    then emit (with_conn m (set_tcp_nopush (conn m)))
              (sys_tcp_nopush (c_fd (conn m)))
    else m in
  if nopush && (tcp_nopush_rc w =? NGX_ERROR) then body_error m1
  else
    let hsize :=
      if ngx_freebsd_sendfile_nbytes_bug t =? 0 then 0 else hsize in
    let m2 :=
      emit m1 (sys_sendfile (fd (file (hunks m f))) (c_fd (conn m))
                 (file_pos (hunks m f)) (fsize + hsize)
                 (elts header) (elts trailer)) in
    let rc := io_rc w in
    let err := io_errno w in
    let eintr := (rc =? -1) && (err =? NGX_EINTR) in
    let eagain := (rc =? -1) && (err =? NGX_EAGAIN) in
    if (rc =? -1) && negb ((err =? NGX_EAGAIN) || (err =? NGX_EINTR))
    then body_error m2
    else apply_sent m2 (io_sent w) in_ tail eintr eagain.

(** Lines 196-219: the writev() branch. *)
Definition writev_branch (w : os_reply) (m : machine) (in_ : ngx_chain_t)
    (header : ngx_array_t) (tail : ngx_chain_t) : body_result :=
  let m1 := emit m (sys_writev (c_fd (conn m)) (elts header)) in
  let rc := io_rc w in
  let err := io_errno w in
  let eintr :=
    (rc =? -1) && negb (err =? NGX_EAGAIN) && (err =? NGX_EINTR) in
  if (rc =? -1) && negb (err =? NGX_EAGAIN) && negb (err =? NGX_EINTR)
  then body_error m1
  else
    let sent := if rc >? 0 then rc else 0 in
    apply_sent m1 sent in_ tail eintr false.

(** Lines 42-136: the three coalescing steps, giving the header array and
    its size, the file hunk and the size of the file region, the trailer
    array, and [tail]. *)
Inductive coalesced :=
| coalesce_fault
| coalesce_nomem
| coalesce_ok (header : ngx_array_t) (hsize : Z) (file : option hunk_ref)
              (fsize : Z) (trailer : ngx_array_t) (tail : ngx_chain_t).

Definition coalesce (st : store) (w : os_reply) (in_ : ngx_chain_t)
    : coalesced :=
  if negb (header_init_ok w) then coalesce_nomem
  else if negb (trailer_init_ok w) then coalesce_nomem
  else
    match header_scan st (header_push_ok w) in_ NULL [] 0 with
    | scan_fault => coalesce_fault
    | scan_nomem => coalesce_nomem
    | scan_done _ header hsize ce =>
        let '(file, fsize, ce) := file_region st ce in
        match trailer_scan st (trailer_push_ok w) ce NULL [] with
        | scan_fault => coalesce_fault
        | scan_nomem => coalesce_nomem
        | scan_done _ trailer _ tail =>
            coalesce_ok header hsize file fsize trailer tail
        end
    end.

Definition loop_body (t : ngx_freebsd_tunables) (w : os_reply) (m : machine)
    (in_ : ngx_chain_t) : body_result :=
  match coalesce (hunks m) w in_ with
  | coalesce_fault => body_fault
  | coalesce_nomem => body_error m
  | coalesce_ok header hsize (Some f) fsize trailer tail =>
      sendfile_branch t w m in_ f fsize hsize header trailer tail
  | coalesce_ok header hsize None fsize trailer tail =>
      writev_branch w m in_ header tail
  end.

(** ** The loop and the call (lines 37-41 and 262-280) *)

Inductive chain_ret :=
| NGX_CHAIN_ERROR
| chain_ptr (c : ngx_chain_t).

Definition nonnull (c : ngx_chain_t) : bool :=
  match c with [] => false | _ :: _ => true end.

(** Lines 276-280. *)
Definition leave (m : machine) (in_ : ngx_chain_t) : machine :=
  if nonnull in_ then with_conn m (set_write_ready (conn m) false) else m.

Inductive iter_result :=
| iter_again (m : machine) (in_ : ngx_chain_t)   (* the [while] test holds *)
| iter_return (m : machine) (r : chain_ret)
| iter_fault.

(** The body followed by lines 262-274, and by lines 276-280 when the loop
    is left. *)
Definition iteration (t : ngx_freebsd_tunables) (w : os_reply) (m : machine)
    (in_ : ngx_chain_t) : iter_result :=
  match loop_body t w m in_ with
  | body_error m' => iter_return m' NGX_CHAIN_ERROR
  | body_fault => iter_fault
  | body_test m' in' tail eintr eagain =>
      if eagain then
        let m'' := with_conn m' (set_write_ready (conn m') false) in
        iter_return (leave m'' in') (chain_ptr in')
      else if (nonnull tail && chain_eqb tail in') || eintr then
        iter_again m' in'
      else iter_return (leave m' in') (chain_ptr in')
  end.

Inductive call_result :=
| call_returns (m : machine) (r : chain_ret)
| call_faults
| call_awaits (m : machine) (in_ : ngx_chain_t).
    (* the loop goes on beyond the replies given *)

Fixpoint do_while (t : ngx_freebsd_tunables) (replies : list os_reply)
    (m : machine) (in_ : ngx_chain_t) : call_result :=
  match replies with
  | [] => call_awaits m in_
  | w :: replies' =>
      match iteration t w m in_ with
      | iter_again m' in' => do_while t replies' m' in'
      | iter_return m' r => call_returns m' r
      | iter_fault => call_faults
      end
  end.

Definition ngx_freebsd_sendfile_chain (t : ngx_freebsd_tunables)
    (replies : list os_reply) (m : machine) (in_ : ngx_chain_t)
    : call_result :=
  if negb (c_write_ready (conn m)) then call_returns m (chain_ptr in_)
  else do_while t replies m in_.

(** ** The completion pass against its description *)





(** ** What an iteration does *)

(** The outcome of the system call, as the function classifies it. *)
Definition interrupted (w : os_reply) : Prop :=
  io_rc w = -1 /\ io_errno w = NGX_EINTR.

Definition would_block (w : os_reply) : Prop :=
  io_rc w = -1 /\ io_errno w = NGX_EAGAIN.

Definition fatal (w : os_reply) : Prop :=
  io_rc w = -1 /\ io_errno w <> NGX_EINTR /\ io_errno w <> NGX_EAGAIN.

(** The number of bytes the attempt reports: sendfile() stores it in
    [sent], for writev() it is the return value when that is positive. *)
Definition reported_sent (w : os_reply) (file : option hunk_ref) : Z :=
  match file with
  | Some _ => io_sent w
  | None => if io_rc w >? 0 then io_rc w else 0
  end.



(** ** Vocabulary for the scans *)

(** A span the memory scans take into a vector. *)
Definition memory_span (h : ngx_hunk_t) : Prop :=
  ngx_hunk_special h = false /\ ngx_hunk_in_memory_only h = true.

Definition all_special (st : store) (ce : ngx_chain_t) : Prop :=
  Forall (fun p => ngx_hunk_special (st p) = true) ce.

(** The span [h] goes into the entry [iov]. *)
Definition extend_entry (iov : iovec) (h : ngx_hunk_t) : iovec :=
  {| iov_base := iov_base iov; iov_len := iov_len iov + (last h - pos h) |}.

(** The span [h] gets an entry of its own. *)
Definition new_entry (h : ngx_hunk_t) : iovec :=
  {| iov_base := pos h; iov_len := last h - pos h |}.

(** The result of a scan without the size it summed up. *)
Definition forget_hsize (r : scan_result) : scan_result :=
  match r with
  | scan_done prev arr _ ce => scan_done prev arr 0 ce
  | _ => r
  end.

(** ** Vocabulary for the file region *)

Definition file_span (h : ngx_hunk_t) : Prop :=
  has_bits h NGX_HUNK_FILE = true.

(** Each span of [run] is a span of the file of [f] that starts at the
    running end offset, which is [fprev] before the first of them. *)
Fixpoint contiguous_run (st : store) (f : ngx_hunk_t) (fprev : Z)
    (run : ngx_chain_t) : Prop :=
  match run with
  | [] => True
  | p :: run' =>
      file_span (st p) /\
      fd (file f) = fd (file (st p)) /\
      fprev = file_pos (st p) /\
      contiguous_run st f (file_last (st p)) run'
  end.

(** The running end offset behind [run]. *)
Fixpoint run_end (st : store) (fprev : Z) (run : ngx_chain_t) : Z :=
  match run with
  | [] => fprev
  | p :: run' => run_end st (file_last (st p)) run'
  end.

(** The bytes of the file spans [run]. *)
Fixpoint run_size (st : store) (run : ngx_chain_t) : Z :=
  match run with
  | [] => 0
  | p :: run' => (file_last (st p) - file_pos (st p)) + run_size st run'
  end.

(** ** Vocabulary for the iteration *)

(** The chain behind its leading special spans. *)
Fixpoint skip_special (st : store) (ce : ngx_chain_t) : ngx_chain_t :=
  match ce with
  | [] => []
  | p :: next => if ngx_hunk_special (st p) then skip_special st next else ce
  end.

(** The chain without its special spans. *)
Definition strip_special (st : store) (ce : ngx_chain_t) : ngx_chain_t :=
  filter (fun p => negb (ngx_hunk_special (st p))) ce.


(** The iteration turns TCP_NOPUSH on. *)
Definition wants_nopush (t : ngx_freebsd_tunables) (m : machine) : bool :=
  negb (ngx_freebsd_use_tcp_nopush t =? 0) && negb (c_tcp_nopush (conn m)).

(** Turning TCP_NOPUSH on fails. *)
Definition nopush_fails (t : ngx_freebsd_tunables) (w : os_reply)
    (m : machine) : Prop :=
  wants_nopush t m = true /\ tcp_nopush_rc w = NGX_ERROR.

(** The machine when sendfile() is about to be called. *)
Definition before_sendfile (t : ngx_freebsd_tunables) (m : machine)
    : machine :=
  if wants_nopush t m
  then emit (with_conn m (set_tcp_nopush (conn m)))
            (sys_tcp_nopush (c_fd (conn m)))
  else m.

(** The sendfile() call of an iteration with the given hint of the number
    of bytes to send. *)
Definition sendfile_call (m : machine) (f : hunk_ref) (nbytes : Z)
    (header trailer : ngx_array_t) : syscall :=
  sys_sendfile (fd (file (hunks m f))) (c_fd (conn m))
    (file_pos (hunks m f)) nbytes (elts header) (elts trailer).

(** The machine a loop body ends with, if it ends. *)
Definition body_machine (r : body_result) : option machine :=
  match r with
  | body_error m => Some m
  | body_test m _ _ _ _ => Some m
  | body_fault => None
  end.

(** The special hunks of [m] are the same in [m'], and the hunks of [m']
    have the types they have in [m]. *)
Definition specials_kept (m m' : machine) : Prop :=
  forall q,
    type (hunks m' q) = type (hunks m q) /\
    (ngx_hunk_special (hunks m q) = true -> hunks m' q = hunks m q).

(** ** Sample data *)

Module Sample.

Definition mem_hunk (p l : Z) : ngx_hunk_t :=
  {| pos := p; last := l; file_pos := 0; file_last := 0;
     type := NGX_HUNK_IN_MEMORY; file := {| fd := 0 |} |}.

Definition file_hunk (d p l : Z) : ngx_hunk_t :=
  {| pos := 0; last := 0; file_pos := p; file_last := l;
     type := NGX_HUNK_FILE; file := {| fd := d |} |}.

Definition flush_hunk : ngx_hunk_t :=
  {| pos := 0; last := 0; file_pos := 0; file_last := 0;
     type := NGX_HUNK_FLUSH; file := {| fd := 0 |} |}.

(** Hunk 0 holds "abc" at 1000, hunk 1 holds "def" right behind it, hunk 2
    is 100 bytes of file 7, hunk 3 is a flush marker, hunk 4 is the range
    [110, 160) of file 7, hunk 5 is memory at 2000 away from the others,
    hunk 6 is the range [100, 150) of file 7, hunk 7 the same range of
    file 8. *)
Definition st0 : store := fun p =>
  match p with
  | 0%nat => mem_hunk 1000 1003
  | 1%nat => mem_hunk 1003 1006
  | 2%nat => file_hunk 7 0 100
  | 3%nat => flush_hunk
  | 4%nat => file_hunk 7 110 160
  | 5%nat => mem_hunk 2000 2010
  | 6%nat => file_hunk 7 100 150
  | 7%nat => file_hunk 8 100 150
  | _ => flush_hunk
  end.

Definition c0 : ngx_connection_t :=
  {| c_fd := 3; c_write_ready := true; c_sent := 0; c_tcp_nopush := false |}.

Definition m0 : machine := {| conn := c0; hunks := st0; trace := [] |}.

Definition tun (nopush bug : Z) : ngx_freebsd_tunables :=
  {| ngx_freebsd_use_tcp_nopush := nopush;
     ngx_freebsd_sendfile_nbytes_bug := bug |}.

(** A reply in which every allocation succeeds. *)
Definition reply (rc err sent : Z) : os_reply :=
  {| header_init_ok := true; trailer_init_ok := true;
     header_push_ok := fun _ => true; trailer_push_ok := fun _ => true;
     tcp_nopush_rc := 0; io_rc := rc; io_errno := err; io_sent := sent |}.

(** The machine an iteration or a call ends with, for stating examples. *)
Definition machine_at_test (r : body_result) : machine :=
  match r with
  | body_test m _ _ _ _ => m
  | body_error m => m
  | body_fault => m0
  end.

Definition machine_at_return (r : call_result) : machine :=
  match r with
  | call_returns m _ => m
  | call_awaits m _ => m
  | call_faults => m0
  end.

End Sample.

(** ** Vocabulary for the further properties *)

(** The first span of a chain that is not special is a memory span at the
    address NULL. *)
Definition starts_at_null (st : store) (ce : ngx_chain_t) : Prop :=
  exists p rest,
    skip_special st ce = p :: rest /\
    ngx_hunk_in_memory_only (st p) = true /\ pos (st p) = NULL.

(** The addresses [base], [base + 1], ... of [len] bytes. *)
Definition bytes_of (base len : Z) : list Z :=
  map (fun i => base + Z.of_nat i) (seq 0 (Z.to_nat len)).

(** The addresses an array of entries makes a system call send, in
    order. *)
Definition iov_bytes (v : list iovec) : list Z :=
  flat_map (fun e => bytes_of (iov_base e) (iov_len e)) v.

(** The addresses of the memory data of the spans of a chain that are not
    special, in chain order. *)
Definition chain_bytes (st : store) (ce : ngx_chain_t) : list Z :=
  flat_map (fun p =>
              if ngx_hunk_special (st p) then []
              else bytes_of (pos (st p)) (last (st p) - pos (st p))) ce.

(** Every link of the chain is a special span or a memory span. *)
Definition all_memory (st : store) (ce : ngx_chain_t) : Prop :=
  Forall (fun p => ngx_hunk_special (st p) = true
                   \/ ngx_hunk_in_memory_only (st p) = true) ce.

(** The scan stops at the end of the chain or at a span that is neither
    special nor a memory span. *)
Definition scan_stop (st : store) (rest : ngx_chain_t) : Prop :=
  match rest with
  | [] => True
  | q :: _ =>
      ngx_hunk_special (st q) = false /\
      ngx_hunk_in_memory_only (st q) = false
  end.

(** The memory spans of the chain have their start before their end. *)
Definition memory_ranges_ok (st : store) (ce : ngx_chain_t) : Prop :=
  Forall (fun p => ngx_hunk_special (st p) = true
                   \/ pos (st p) <= last (st p)) ce.

(** The entry [iov] of an array ends at the address [prev]. *)
Definition array_ends_at (arr : ngx_array_t) (prev : Z) : Prop :=
  match arr with
  | [] => True
  | iov :: _ => iov_base iov + iov_len iov = prev /\ 0 <= iov_len iov
  end.

(** The span [q] can be merged into the region of the file hunk [f] whose
    running end offset is [fprev]. *)
Definition mergeable (st : store) (f : ngx_hunk_t) (fprev : Z)
    (q : hunk_ref) : Prop :=
  file_span (st q) /\ fd (file f) = fd (file (st q)) /\
  fprev = file_pos (st q).

(** The chain behind a file region does not go on with a mergeable span. *)
Definition region_stop (st : store) (f : ngx_hunk_t) (fprev : Z)
    (ce : ngx_chain_t) : Prop :=
  match ce with
  | [] => True
  | q :: _ => ~ mergeable st f fprev q
  end.

(** ** Vocabulary for the cursors *)

(** The cursors of a hunk are within their limits; a hunk that has its
    data both in memory and in a file has as much of it left in the one
    as in the other. *)
Definition hunk_ok (h : ngx_hunk_t) : Prop :=
  pos h <= last h /\ file_pos h <= file_last h /\
  (has_bits h NGX_HUNK_IN_MEMORY = true ->
   has_bits h NGX_HUNK_FILE = true ->
   last h - pos h = file_last h - file_pos h).

Definition store_ok (st : store) : Prop := forall p, hunk_ok (st p).

(** Every hunk that is not special has its data in memory or in a file. *)
Definition kinds_ok (st : store) : Prop :=
  forall p,
    ngx_hunk_special (st p) = true \/
    has_bits (st p) NGX_HUNK_IN_MEMORY = true \/
    has_bits (st p) NGX_HUNK_FILE = true.

(** [h'] is [h] with its cursors further on, still within the limits, and
    nothing else changed. *)
Definition moved_forward (h h' : ngx_hunk_t) : Prop :=
  last h' = last h /\ file_last h' = file_last h /\
  type h' = type h /\ file h' = file h /\
  pos h <= pos h' <= last h /\
  file_pos h <= file_pos h' <= file_last h /\
  hunk_ok h'.

(** The bytes left in the spans of a chain. *)
Fixpoint total_size (st : store) (ce : ngx_chain_t) : Z :=
  match ce with
  | [] => 0
  | p :: next =>
      (if ngx_hunk_special (st p) then 0 else ngx_hunk_size (st p))
      + total_size st next
  end.

(** Every span of the chain that is not special has bytes left. *)
Definition all_pending (st : store) (ce : ngx_chain_t) : Prop :=
  Forall (fun p => ngx_hunk_special (st p) = true
                   \/ 0 < ngx_hunk_size (st p)) ce.

(** The machine a call ends with or waits in. *)
Definition result_machine (r : call_result) : option machine :=
  match r with
  | call_returns m _ => Some m
  | call_awaits m _ => Some m
  | call_faults => None
  end.

(** All replies report a number of bytes that is not negative. *)
Definition sent_not_negative (replies : list os_reply) : Prop :=
  Forall (fun w => 0 <= io_sent w) replies.

(** The store with every span of [unit] that is not special sent whole. *)
Definition consume_all (st : store) (unit : ngx_chain_t) : store :=
  fold_left
    (fun s p =>
       if ngx_hunk_special (s p) then s else upd s p (hunk_consume (s p)))
    unit st.

(** ** Vocabulary for the system calls *)

Definition is_nopush (e : syscall) : bool :=
  match e with sys_tcp_nopush _ => true | _ => false end.

Definition is_transmit (e : syscall) : bool :=
  match e with sys_tcp_nopush _ => false | _ => true end.

(** How often [ngx_tcp_nopush()] is called, and how often sendfile() or
    writev(). *)
Definition nopush_calls (evs : list syscall) : nat :=
  length (filter is_nopush evs).

Definition transmit_calls (evs : list syscall) : nat :=
  length (filter is_transmit evs).

(** The system call is made on the socket [s]. *)
Definition on_socket (s : Z) (e : syscall) : Prop :=
  match e with
  | sys_tcp_nopush s' => s' = s
  | sys_sendfile _ s' _ _ _ _ => s' = s
  | sys_writev s' _ => s' = s
  end.

(** What a run from the machine [m] to the machine [m'] with at most [n]
    iterations has done beside sending: the system calls [evs] were added
    to the trace, all on the socket of the connection, at most one
    sendfile() or writev() per iteration, and [ngx_tcp_nopush()] exactly
    when [c->tcp_nopush] went from off to on; the flag does not go off, and
    stays as it is when TCP_NOPUSH is not in use. *)
Definition call_effects (t : ngx_freebsd_tunables) (m m' : machine)
    (n : nat) (evs : list syscall) : Prop :=
  trace m' = trace m ++ evs /\
  c_fd (conn m') = c_fd (conn m) /\
  Forall (on_socket (c_fd (conn m))) evs /\
  (transmit_calls evs <= n)%nat /\
  nopush_calls evs
  = (if c_tcp_nopush (conn m') && negb (c_tcp_nopush (conn m))
     then 1 else 0)%nat /\
  (c_tcp_nopush (conn m) = true -> c_tcp_nopush (conn m') = true) /\
  (ngx_freebsd_use_tcp_nopush t = 0 ->
   c_tcp_nopush (conn m') = c_tcp_nopush (conn m)).

(** No entry of the array (newest first) starts where the entry before it
    ends. *)
Fixpoint entries_apart (a : ngx_array_t) : Prop :=
  match a with
  | iov :: rest =>
      match rest with
      | older :: _ => iov_base iov <> iov_base older + iov_len older
      | [] => True
      end /\ entries_apart rest
  | [] => True
  end.

(** The newest entry of the array ends at [prev]. *)
Definition newest_ends_at (a : ngx_array_t) (prev : Z) : Prop :=
  match a with
  | iov :: _ => iov_base iov + iov_len iov = prev
  | [] => True
  end.

(** The number of memory spans of a chain. *)
Definition memory_spans (st : store) (ce : ngx_chain_t) : nat :=
  length (strip_special st ce).

(** No reply is an EAGAIN. *)
Definition never_blocks (replies : list os_reply) : Prop :=
  Forall (fun w => ~ would_block w) replies.

(** ** More sample data *)

Module Sample2.

(** The sample store with hunk 9 a memory span at the address NULL. *)
Definition st_null : store := upd Sample.st0 9%nat (Sample.mem_hunk 0 5).

(** A reply in which [ngx_tcp_nopush()] fails. *)
Definition reply_nopush_fails : os_reply :=
  {| header_init_ok := true; trailer_init_ok := true;
     header_push_ok := fun _ => true; trailer_push_ok := fun _ => true;
     tcp_nopush_rc := NGX_ERROR; io_rc := 0; io_errno := 0; io_sent := 0 |}.

(** A reply in which the header array cannot be set up. *)
Definition reply_no_memory : os_reply :=
  {| header_init_ok := false; trailer_init_ok := true;
     header_push_ok := fun _ => true; trailer_push_ok := fun _ => true;
     tcp_nopush_rc := 0; io_rc := 0; io_errno := 0; io_sent := 0 |}.

End Sample2.
(** ** Basic facts *)

Lemma upd_same (st : store) (p : hunk_ref) (h : ngx_hunk_t) :
  upd st p h p = h.
Proof. unfold upd. now rewrite Nat.eqb_refl. Qed.

Lemma upd_other (st : store) (p q : hunk_ref) (h : ngx_hunk_t) :
  q <> p -> upd st p h q = st q.
Proof.
  intros Hne. unfold upd.
  destruct (Nat.eqb_spec q p); [contradiction | reflexivity].
Qed.

Lemma chain_eqb_eq (a b : ngx_chain_t) : chain_eqb a b = true <-> a = b.
Proof.
  revert b. induction a as [|x a IH]; intros [|y b]; simpl;
    try (split; [discriminate | discriminate]); try tauto.
  rewrite andb_true_iff, Nat.eqb_eq, IH.
  split; [intros [-> ->]; reflexivity | intros H; inversion H; auto].
Qed.

Lemma chain_eqb_refl (a : ngx_chain_t) : chain_eqb a a = true.
Proof. now apply chain_eqb_eq. Qed.

Lemma is_suffix_refl (a : ngx_chain_t) : is_suffix a a.
Proof. now exists []. Qed.

Lemma is_suffix_cons (a b : ngx_chain_t) (p : hunk_ref) :
  is_suffix a b -> is_suffix a (p :: b).
Proof. intros [k ->]. now exists (p :: k). Qed.

Create HintDb chain.
#[local] Hint Resolve is_suffix_refl is_suffix_cons : chain.

Lemma is_suffix_trans (a b c : ngx_chain_t) :
  is_suffix a b -> is_suffix b c -> is_suffix a c.
Proof.
  intros [k ->] [k' ->]. exists (k' ++ k). now rewrite app_assoc.
Qed.

(** Two chain pointers into one chain are the same pointer (they are the
    same number of links away from its end) exactly when they are the same
    list. *)
Lemma suffix_same_pointer (chain a b : ngx_chain_t) :
  is_suffix a chain -> is_suffix b chain ->
  (length a = length b <-> a = b).
Proof.
  intros [ka Ha] [kb Hb]. split; [|now intros ->].
  intros Hlen. subst chain.
  assert (Hk : length ka = length kb).
  { apply (f_equal (@length _)) in Hb. rewrite !length_app in Hb.
    apply Nat.add_cancel_r with (p := length a). now rewrite Hlen at 2. }
  revert kb Hb Hk. induction ka as [|x ka IH]; intros [|y kb] Hb Hk;
    simpl in *; try discriminate; auto.
  inversion Hb. apply (IH kb); auto.
Qed.

(** A hunk with the file bit is neither special nor memory-only. *)
Lemma land_file_bit (t : Z) :
  Z.land t NGX_HUNK_FILE <> 0 -> Z.testbit t 8 = true.
Proof.
  intros H. destruct (Z.testbit t 8) eqn:E; [reflexivity|].
  exfalso. apply H. apply Z.bits_inj'. intros n Hn.
  rewrite Z.land_spec, Z.bits_0.
  change NGX_HUNK_FILE with (2 ^ 8).
  rewrite Z.pow2_bits_eqb by lia.
  destruct (Z.eqb_spec 8 n) as [<-|]; [now rewrite E | apply andb_false_r].
Qed.

Lemma file_not_special (h : ngx_hunk_t) :
  has_bits h NGX_HUNK_FILE = true -> ngx_hunk_special h = false.
Proof.
  unfold has_bits, ngx_hunk_special. intros H.
  apply negb_true_iff, Z.eqb_neq, land_file_bit in H.
  apply Z.eqb_neq. intros E.
  rewrite E, Z.land_spec in H.
  change (Z.testbit (Z.lor NGX_HUNK_FLUSH NGX_HUNK_LAST) 8) with false in H.
  now rewrite andb_false_r in H.
Qed.

Lemma file_not_memory_only (h : ngx_hunk_t) :
  has_bits h NGX_HUNK_FILE = true -> ngx_hunk_in_memory_only h = false.
Proof.
  unfold has_bits, ngx_hunk_in_memory_only. intros H.
  apply negb_true_iff, Z.eqb_neq, land_file_bit in H.
  apply Z.eqb_neq. intros E.
  apply (f_equal (fun z => Z.testbit z 8)) in E.
  rewrite Z.land_spec, H in E.
  now vm_compute in E.
Qed.

(** What kind of span a hunk is depends on its type only. *)
Lemma special_by_type (h h' : ngx_hunk_t) :
  type h' = type h -> ngx_hunk_special h' = ngx_hunk_special h.
Proof. unfold ngx_hunk_special. now intros ->. Qed.

(** ** The completion pass against its description *)






Lemma completion_suffix (st : store) (sent : Z) (ce : ngx_chain_t) :
  is_suffix (snd (completion st sent ce)) ce.
Proof.
  revert st sent. induction ce as [|p next IH]; intros st sent; simpl.
  - auto with chain.
  - destruct (ngx_hunk_special (st p)); [auto with chain|].
    destruct (sent =? 0); [auto with chain|].
    destruct (sent >=? ngx_hunk_size (st p)); auto with chain.
Qed.

(** What an iteration that reaches line 262 has done: the system call's
    byte count went to [c->sent] and through the completion pass over the
    chain the iteration started with. *)
Lemma apply_sent_inv (m : machine) (sent : Z) (in_ tail : ngx_chain_t)
    (eintr eagain : bool) (r : body_result) :
  apply_sent m sent in_ tail eintr eagain = r ->
  r = body_test {| conn := add_sent (conn m) sent;
                   hunks := fst (completion (hunks m) sent in_);
                   trace := trace m |}
                (snd (completion (hunks m) sent in_)) tail eintr eagain.
Proof.
  unfold apply_sent. destruct (completion (hunks m) sent in_). now intros <-.
Qed.

(** ** What an iteration does *)

(** Case analysis on the return value and the error of the system call in
    a hypothesis [H] on the result of a branch. *)
Ltac classify_reply w H :=
  let Hrc := fresh "Hrc" in
  let Ha := fresh "Ha" in
  let Hi := fresh "Hi" in
  destruct (Z.eqb_spec (io_rc w) (-1)) as [Hrc|Hrc];
  destruct (Z.eqb_spec (io_errno w) NGX_EAGAIN) as [Ha|Ha];
  destruct (Z.eqb_spec (io_errno w) NGX_EINTR) as [Hi|Hi];
  try (exfalso; rewrite Ha in Hi; discriminate Hi);
  simpl in H; try discriminate H;
  apply apply_sent_inv in H; inversion H; subst; simpl;
  unfold fatal, interrupted, would_block;
  repeat split; try tauto; try congruence; try discriminate;
  try (intros [? ?]; congruence); try (intros [[? ?] ?]; congruence);
  try (intros (? & ? & ?); congruence).

Lemma loop_body_test_inv (t : ngx_freebsd_tunables) (w : os_reply)
    (m m' : machine) (in_ in' tail : ngx_chain_t) (eintr eagain : bool) :
  loop_body t w m in_ = body_test m' in' tail eintr eagain ->
  exists header hsize file fsize trailer,
    coalesce (hunks m) w in_
      = coalesce_ok header hsize file fsize trailer tail /\
    ~ fatal w /\
    hunks m' = fst (completion (hunks m) (reported_sent w file) in_) /\
    in' = snd (completion (hunks m) (reported_sent w file) in_) /\
    c_sent (conn m') = c_sent (conn m) + reported_sent w file /\
    c_write_ready (conn m') = c_write_ready (conn m) /\
    c_fd (conn m') = c_fd (conn m) /\
    (eintr = true <-> interrupted w) /\
    (eagain = true <-> would_block w /\ file <> None).
Proof.
  unfold loop_body. intros H.
  destruct (coalesce (hunks m) w in_)
    as [| | header hsize file fsize trailer tl] eqn:Hco; try discriminate.
  exists header, hsize, file, fsize, trailer.
  destruct file as [f|].
  - unfold sendfile_branch in H.
    destruct (negb (ngx_freebsd_use_tcp_nopush t =? 0)
              && negb (c_tcp_nopush (conn m))) eqn:Hnp; simpl in H;
      [destruct (tcp_nopush_rc w =? NGX_ERROR); [discriminate|] |];
      classify_reply w H.
  - unfold writev_branch in H. classify_reply w H.
Qed.



(** ** The memory scans *)

Section MemoryScans.

Variable st : store.
Variable ok : nat -> bool.

Lemma trailer_as_header (ce : ngx_chain_t)
    (prev : Z) (arr : ngx_array_t) (hsize : Z) :
  trailer_scan st ok ce prev arr
  = forget_hsize (header_scan st ok ce prev arr hsize).
Proof.
  revert prev arr hsize.
  induction ce as [|p next IH]; intros prev arr hsize; simpl; auto.
  destruct (ngx_hunk_special (st p)); [apply IH|].
  destruct (ngx_hunk_in_memory_only (st p)); simpl; [|reflexivity].
  destruct (prev =? pos (st p)).
  - destruct arr; [reflexivity | apply IH].
  - destruct (ok (nelts arr)); [apply IH | reflexivity].
Qed.

(** A scan that gets through a prefix of the chain goes on from the locals
    it has there. *)
Lemma header_scan_app (pre l : ngx_chain_t)
    (p0 : Z) (a0 : ngx_array_t) (h0 : Z)
    (p1 : Z) (a1 : ngx_array_t) (h1 : Z) :
  header_scan st ok pre p0 a0 h0 = scan_done p1 a1 h1 [] ->
  header_scan st ok (pre ++ l) p0 a0 h0 = header_scan st ok l p1 a1 h1.
Proof.
  revert p0 a0 h0.
  induction pre as [|p pre IH]; intros p0 a0 h0; simpl.
  - intros H. now inversion H.
  - destruct (ngx_hunk_special (st p)); [apply IH|].
    destruct (ngx_hunk_in_memory_only (st p)); simpl; [|discriminate].
    destruct (p0 =? pos (st p)).
    + destruct a0; [discriminate | apply IH].
    + destruct (ok (nelts a0)); [apply IH | discriminate].
Qed.

(** Special spans do not change the locals of the scan. *)
Lemma header_scan_specials (sp l : ngx_chain_t)
    (p0 : Z) (a0 : ngx_array_t) (h0 : Z) :
  all_special st sp ->
  header_scan st ok (sp ++ l) p0 a0 h0 = header_scan st ok l p0 a0 h0.
Proof.
  induction 1 as [|p sp Hp _ IH]; simpl; [reflexivity|].
  now rewrite Hp.
Qed.

(** The locals after a scan that got through a memory span as its last
    link: [prev] is the end of the span and the array is not empty. *)
Lemma header_scan_through (pre : ngx_chain_t) (a : hunk_ref)
    (p0 : Z) (a0 : ngx_array_t) (h0 : Z)
    (pA : Z) (arrA : ngx_array_t) (hsA : Z) (rest : ngx_chain_t) :
  memory_span (st a) ->
  header_scan st ok (pre ++ [a]) p0 a0 h0 = scan_done pA arrA hsA rest ->
  rest = [] ->
  pA = last (st a) /\ exists iovA older, arrA = iovA :: older.
Proof.
  intros [Hsp Hmem]. revert p0 a0 h0.
  induction pre as [|p pre IH]; intros p0 a0 h0; simpl.
  - rewrite Hsp, Hmem. simpl.
    destruct (p0 =? pos (st a)).
    + destruct a0 as [|iov older]; [discriminate|].
      intros H _. inversion H. eauto.
    + destruct (ok (nelts a0)); [|discriminate].
      intros H _. inversion H. eauto.
  - destruct (ngx_hunk_special (st p)); [apply IH|].
    destruct (ngx_hunk_in_memory_only (st p)); simpl.
    + destruct (p0 =? pos (st p)).
      * destruct a0; [discriminate | apply IH].
      * destruct (ok (nelts a0)); [apply IH | discriminate].
    + intros H Hr. inversion H. subst rest. discriminate.
Qed.

(** One memory span met with a non-empty array. *)
Lemma header_scan_step (b : hunk_ref)
    (post : ngx_chain_t) (prev : Z) (iov : iovec) (older : ngx_array_t)
    (hs : Z) :
  memory_span (st b) ->
  header_scan st ok (b :: post) prev (iov :: older) hs
  = if prev =? pos (st b) then
      header_scan st ok post (last (st b))
        (extend_entry iov (st b) :: older) (hs + (last (st b) - pos (st b)))
    else if ok (nelts (iov :: older)) then
      header_scan st ok post (last (st b))
        (new_entry (st b) :: iov :: older) (hs + (last (st b) - pos (st b)))
    else scan_nomem.
Proof. intros [Hsp Hmem]. simpl. now rewrite Hsp, Hmem. Qed.

(** Two memory spans [a] and [b] with nothing but special spans [sp]
    between them, anywhere in a chain the header scan gets through up to
    [a]: the scan goes on behind [b] with [b] in the entry of [a] when [b]
    starts where [a] ends, and with a new entry for [b] otherwise. *)
Lemma header_scan_pair (pre sp post : ngx_chain_t) (a b : hunk_ref)
    (pA : Z) (arrA : ngx_array_t) (hsA : Z) :
  memory_span (st a) -> memory_span (st b) -> all_special st sp ->
  header_scan st ok (pre ++ [a]) NULL [] 0 = scan_done pA arrA hsA [] ->
  exists iovA older,
    arrA = iovA :: older /\
    header_scan st ok (pre ++ a :: sp ++ b :: post) NULL [] 0
    = if last (st a) =? pos (st b) then
        header_scan st ok post (last (st b))
          (extend_entry iovA (st b) :: older)
          (hsA + (last (st b) - pos (st b)))
      else if ok (nelts arrA) then
        header_scan st ok post (last (st b))
          (new_entry (st b) :: iovA :: older)
          (hsA + (last (st b) - pos (st b)))
      else scan_nomem.
Proof.
  intros Ha Hb Hsp H.
  destruct (header_scan_through _ _ _ _ _ _ _ _ _ Ha H eq_refl)
    as (HpA & iovA & older & Harr).
  exists iovA, older. split; [exact Harr|].
  change (a :: sp ++ b :: post) with ([a] ++ sp ++ b :: post).
  rewrite app_assoc, (header_scan_app _ _ _ _ _ _ _ _ H).
  rewrite header_scan_specials by exact Hsp.
  subst arrA pA. now apply header_scan_step.
Qed.

Lemma forget_hsize_done (r : scan_result) (prev : Z) (arr : ngx_array_t)
    (z : Z) (ce : ngx_chain_t) :
  forget_hsize r = scan_done prev arr z ce ->
  exists hs, r = scan_done prev arr hs ce.
Proof. destruct r; simpl; try discriminate. intros H. inversion H. eauto. Qed.

Lemma trailer_scan_pair (pre sp post : ngx_chain_t) (a b : hunk_ref)
    (pA : Z) (arrA : ngx_array_t) (z : Z) :
  memory_span (st a) -> memory_span (st b) -> all_special st sp ->
  trailer_scan st ok (pre ++ [a]) NULL [] = scan_done pA arrA z [] ->
  exists iovA older,
    arrA = iovA :: older /\
    trailer_scan st ok (pre ++ a :: sp ++ b :: post) NULL []
    = if last (st a) =? pos (st b) then
        trailer_scan st ok post (last (st b))
          (extend_entry iovA (st b) :: older)
      else if ok (nelts arrA) then
        trailer_scan st ok post (last (st b))
          (new_entry (st b) :: iovA :: older)
      else scan_nomem.
Proof.
  intros Ha Hb Hsp H.
  rewrite (trailer_as_header _ _ _ 0) in H.
  apply forget_hsize_done in H. destruct H as [hs H].
  destruct (header_scan_pair pre sp post a b pA arrA hs Ha Hb Hsp H)
    as (iovA & older & Harr & Heq).
  exists iovA, older. split; [exact Harr|].
  rewrite (trailer_as_header _ _ _ 0), Heq.
  destruct (last (st a) =? pos (st b)).
  - symmetry. apply trailer_as_header.
  - destruct (ok (nelts arrA)); [|reflexivity].
    symmetry. apply trailer_as_header.
Qed.

(** The arrays before and after [b] compared. *)
Lemma pair_arrays (adjacent : bool) (okn : bool) (iovA : iovec)
    (older arrB : ngx_array_t) (ext new : iovec) (pB pB' hsB hsB' : Z)
    (rest : ngx_chain_t) :
  (if adjacent then scan_done pB' (ext :: older) hsB' []
   else if okn then scan_done pB' (new :: iovA :: older) hsB' []
   else scan_nomem) = scan_done pB arrB hsB rest ->
  (nelts arrB = nelts (iovA :: older) <-> adjacent = true) /\
  (adjacent = true -> elts arrB = elts older ++ [ext]) /\
  (adjacent = false -> elts arrB = elts older ++ [iovA; new]).
Proof.
  unfold elts, nelts.
  destruct adjacent; [|destruct okn; [|discriminate]];
    intros H; inversion H; subst; simpl.
  - repeat split; auto; discriminate.
  - repeat split; try discriminate; try lia.
    intros _. now rewrite <- app_assoc.
Qed.

(** C2. Two consecutive memory spans [a], [b] anywhere in a chain the header
    scan (the trailer scan) gets through up to [a].  When [b] starts where
    [a] ends the scan goes on behind [b] with [b] added to the entry of
    [a]; otherwise, whatever the gap, it goes on with a new entry for [b]
    on top of the entry of [a] (or returns the error when the array cannot
    grow).  So the array has as many entries after [b] as after [a] if and
    only if the end of [a] is the start of [b], and in the order the
    system calls see the entries that of [b] comes right after that of
    [a]. *)
Theorem memory_spans_merge_iff_adjacent
    (pre : ngx_chain_t) (a b : hunk_ref)
    (pA : Z) (arrA : ngx_array_t) (hsA : Z) :
  memory_span (st a) -> memory_span (st b) ->
  (header_scan st ok (pre ++ [a]) NULL [] 0 = scan_done pA arrA hsA [] ->
   exists iovA older,
     arrA = iovA :: older /\
     (forall post,
         header_scan st ok (pre ++ a :: b :: post) NULL [] 0
         = if last (st a) =? pos (st b) then
             header_scan st ok post (last (st b))
               (extend_entry iovA (st b) :: older)
               (hsA + (last (st b) - pos (st b)))
           else if ok (nelts arrA) then
             header_scan st ok post (last (st b))
               (new_entry (st b) :: iovA :: older)
               (hsA + (last (st b) - pos (st b)))
           else scan_nomem) /\
     (forall pB arrB hsB rest,
         header_scan st ok (pre ++ [a; b]) NULL [] 0
           = scan_done pB arrB hsB rest ->
         (nelts arrB = nelts arrA <-> last (st a) = pos (st b)) /\
         (last (st a) = pos (st b) ->
          elts arrB = elts older ++ [extend_entry iovA (st b)]) /\
         (last (st a) <> pos (st b) ->
          elts arrB = elts older ++ [iovA; new_entry (st b)])))
  /\
  (trailer_scan st ok (pre ++ [a]) NULL [] = scan_done pA arrA hsA [] ->
   exists iovA older,
     arrA = iovA :: older /\
     (forall post,
         trailer_scan st ok (pre ++ a :: b :: post) NULL []
         = if last (st a) =? pos (st b) then
             trailer_scan st ok post (last (st b))
               (extend_entry iovA (st b) :: older)
           else if ok (nelts arrA) then
             trailer_scan st ok post (last (st b))
               (new_entry (st b) :: iovA :: older)
           else scan_nomem) /\
     (forall pB arrB hsB rest,
         trailer_scan st ok (pre ++ [a; b]) NULL []
           = scan_done pB arrB hsB rest ->
         (nelts arrB = nelts arrA <-> last (st a) = pos (st b)) /\
         (last (st a) = pos (st b) ->
          elts arrB = elts older ++ [extend_entry iovA (st b)]) /\
         (last (st a) <> pos (st b) ->
          elts arrB = elts older ++ [iovA; new_entry (st b)]))).
Proof.
  intros Ha Hb. split; intros H.
  - destruct (header_scan_pair pre [] [] a b pA arrA hsA Ha Hb
                (Forall_nil _) H) as (iovA & older & Harr & Heq).
    exists iovA, older. split; [exact Harr|]. split.
    + intros post.
      destruct (header_scan_pair pre [] post a b pA arrA hsA Ha Hb
                  (Forall_nil _) H) as (iovA' & older' & Harr' & Heq').
      rewrite Harr in Harr'. inversion Harr'. subst iovA' older'.
      exact Heq'.
    + intros pB arrB hsB rest HB. simpl in Heq. rewrite Heq in HB.
      simpl in HB. apply pair_arrays in HB. rewrite Harr.
      destruct HB as (H1 & H2 & H3). rewrite H1.
      rewrite Z.eqb_eq. repeat split; try tauto.
      * intros E. apply H2. now apply Z.eqb_eq.
      * intros E. apply H3. now apply Z.eqb_neq.
  - destruct (trailer_scan_pair pre [] [] a b pA arrA hsA Ha Hb
                (Forall_nil _) H) as (iovA & older & Harr & Heq).
    exists iovA, older. split; [exact Harr|]. split.
    + intros post.
      destruct (trailer_scan_pair pre [] post a b pA arrA hsA Ha Hb
                  (Forall_nil _) H) as (iovA' & older' & Harr' & Heq').
      rewrite Harr in Harr'. inversion Harr'. subst iovA' older'.
      exact Heq'.
    + intros pB arrB hsB rest HB. simpl in Heq. rewrite Heq in HB.
      simpl in HB. apply pair_arrays in HB. rewrite Harr.
      destruct HB as (H1 & H2 & H3). rewrite H1.
      rewrite Z.eqb_eq. repeat split; try tauto.
      * intros E. apply H2. now apply Z.eqb_eq.
      * intros E. apply H3. now apply Z.eqb_neq.
Qed.

Lemma memory_only_in_memory (h : ngx_hunk_t) :
  ngx_hunk_in_memory_only h = true -> has_bits h NGX_HUNK_IN_MEMORY = true.
Proof.
  unfold ngx_hunk_in_memory_only, has_bits. intros H.
  apply Z.eqb_eq in H. apply negb_true_iff, Z.eqb_neq. intros E.
  apply (f_equal (fun z => Z.testbit z 0)) in H.
  apply (f_equal (fun z => Z.testbit z 0)) in E.
  rewrite Z.land_spec in H, E.
  change (Z.testbit (Z.lor NGX_HUNK_IN_MEMORY NGX_HUNK_FILE) 0)
    with true in H.
  change (Z.testbit NGX_HUNK_IN_MEMORY 0) with true in H, E.
  change (Z.testbit 0 0) with false in E.
  rewrite andb_true_r in H, E. congruence.
Qed.

Lemma memory_span_size (h : ngx_hunk_t) :
  memory_span h -> ngx_hunk_size h = last h - pos h.
Proof.
  intros [_ H]. unfold ngx_hunk_size.
  now rewrite (memory_only_in_memory h H).
Qed.

(** The first memory span of a scan, at an address other than NULL, opens
    the array. *)
Lemma header_scan_first (pre : ngx_chain_t) (a : hunk_ref) :
  all_special st pre -> memory_span (st a) ->
  pos (st a) <> NULL -> ok 0%nat = true ->
  header_scan st ok (pre ++ [a]) NULL [] 0
  = scan_done (last (st a)) [new_entry (st a)]
      (0 + (last (st a) - pos (st a))) [].
Proof.
  intros Hpre [Hsp Hmem] Hnn Hok.
  rewrite header_scan_specials by exact Hpre.
  cbn [header_scan]. rewrite Hsp, Hmem. cbn [negb].
  destruct (Z.eqb_spec NULL (pos (st a))) as [E|_]; [now symmetry in E|].
  change (nelts []) with 0%nat. now rewrite Hok.
Qed.

(** C10. Special spans between two memory spans [a] and [b] do not reset
    the adjacency tracking of the header scan or of the trailer scan: when
    [b] starts where [a] ends, the scan goes on behind [b] with the entry
    of [a] grown by the size of [b] and without a new entry.  When [a] is
    the first memory span of the scan, that entry starts at [a] and its
    length is the sum of the two sizes. *)
Theorem specials_keep_adjacency
    (pre sp : ngx_chain_t) (a b : hunk_ref)
    (pA : Z) (arrA : ngx_array_t) (hsA : Z) :
  memory_span (st a) -> memory_span (st b) -> all_special st sp ->
  last (st a) = pos (st b) ->
  (header_scan st ok (pre ++ [a]) NULL [] 0 = scan_done pA arrA hsA [] ->
   exists iovA older,
     arrA = iovA :: older /\
     forall post,
       header_scan st ok (pre ++ a :: sp ++ b :: post) NULL [] 0
       = header_scan st ok post (last (st b))
           ({| iov_base := iov_base iovA;
               iov_len := iov_len iovA + ngx_hunk_size (st b) |} :: older)
           (hsA + ngx_hunk_size (st b)))
  /\
  (trailer_scan st ok (pre ++ [a]) NULL [] = scan_done pA arrA hsA [] ->
   exists iovA older,
     arrA = iovA :: older /\
     forall post,
       trailer_scan st ok (pre ++ a :: sp ++ b :: post) NULL []
       = trailer_scan st ok post (last (st b))
           ({| iov_base := iov_base iovA;
               iov_len := iov_len iovA + ngx_hunk_size (st b) |} :: older))
  /\
  (all_special st pre -> pos (st a) <> NULL -> ok 0%nat = true ->
   forall post,
     header_scan st ok (pre ++ a :: sp ++ b :: post) NULL [] 0
     = header_scan st ok post (last (st b))
         [{| iov_base := pos (st a);
             iov_len := ngx_hunk_size (st a) + ngx_hunk_size (st b) |}]
         (ngx_hunk_size (st a) + ngx_hunk_size (st b))
     /\
     trailer_scan st ok (pre ++ a :: sp ++ b :: post) NULL []
     = trailer_scan st ok post (last (st b))
         [{| iov_base := pos (st a);
             iov_len := ngx_hunk_size (st a) + ngx_hunk_size (st b) |}]).
Proof.
  intros Ha Hb Hsp Hadj.
  rewrite (memory_span_size _ Ha), (memory_span_size _ Hb).
  assert (Hadjb : (last (st a) =? pos (st b)) = true) by now apply Z.eqb_eq.
  split; [|split].
  - intros H.
    destruct (header_scan_pair pre sp [] a b pA arrA hsA Ha Hb Hsp H)
      as (iovA & older & Harr & _).
    exists iovA, older. split; [exact Harr|]. intros post.
    destruct (header_scan_pair pre sp post a b pA arrA hsA Ha Hb Hsp H)
      as (iovA' & older' & Harr' & Heq).
    rewrite Harr in Harr'. inversion Harr'. subst iovA' older'.
    now rewrite Heq, Hadjb.
  - intros H.
    destruct (trailer_scan_pair pre sp [] a b pA arrA hsA Ha Hb Hsp H)
      as (iovA & older & Harr & _).
    exists iovA, older. split; [exact Harr|]. intros post.
    destruct (trailer_scan_pair pre sp post a b pA arrA hsA
                Ha Hb Hsp H) as (iovA' & older' & Harr' & Heq).
    rewrite Harr in Harr'. inversion Harr'. subst iovA' older'.
    now rewrite Heq, Hadjb.
  - intros Hpre Hnn Hok post.
    pose proof (header_scan_first pre a Hpre Ha Hnn Hok) as H.
    assert (Ht : trailer_scan st ok (pre ++ [a]) NULL []
                 = scan_done (last (st a)) [new_entry (st a)] 0 []).
    { now rewrite (trailer_as_header _ _ _ 0), H. }
    split.
    + destruct (header_scan_pair pre sp post a b _ _ _ Ha Hb Hsp H)
        as (iovA' & older' & Harr' & Heq).
      inversion Harr'. subst iovA' older'.
      now rewrite Heq, Hadjb.
    + destruct (trailer_scan_pair pre sp post a b _ _ _ Ha Hb Hsp Ht)
        as (iovA' & older' & Harr' & Heq).
      inversion Harr'. subst iovA' older'.
      now rewrite Heq, Hadjb.
Qed.

End MemoryScans.

(** A flush marker, then "abc" and "def" right behind it: one entry of 6
    bytes in either scan. *)
Lemma memory_spans_merge_iff_adjacent_witness :
  memory_span (Sample.st0 0%nat) /\ memory_span (Sample.st0 1%nat) /\
  header_scan Sample.st0 (fun _ => true) ([3] ++ [0])%nat NULL [] 0
    = scan_done 1003 [{| iov_base := 1000; iov_len := 3 |}] 3 [] /\
  trailer_scan Sample.st0 (fun _ => true) ([3] ++ [0])%nat NULL []
    = scan_done 1003 [{| iov_base := 1000; iov_len := 3 |}] 0 [] /\
  header_scan Sample.st0 (fun _ => true) ([3] ++ [0; 1])%nat NULL [] 0
    = scan_done 1006 [{| iov_base := 1000; iov_len := 6 |}] 6 [] /\
  trailer_scan Sample.st0 (fun _ => true) ([3] ++ [0; 1])%nat NULL []
    = scan_done 1006 [{| iov_base := 1000; iov_len := 6 |}] 0 [].
Proof.
  assert (Ha : memory_span (Sample.st0 0%nat)) by (split; reflexivity).
  assert (Hb : memory_span (Sample.st0 1%nat)) by (split; reflexivity).
  split; [exact Ha|]. split; [exact Hb|].
  split; [reflexivity|]. split; [reflexivity|]. split.
  - destruct (proj1 (memory_spans_merge_iff_adjacent Sample.st0
                       (fun _ => true) [3%nat] 0%nat 1%nat 1003
                       [{| iov_base := 1000; iov_len := 3 |}] 3 Ha Hb)
                eq_refl) as (iovA & older & Harr & Hpost & _).
    inversion Harr; subst. refine (eq_trans (Hpost []) _). reflexivity.
  - destruct (proj2 (memory_spans_merge_iff_adjacent Sample.st0
                       (fun _ => true) [3%nat] 0%nat 1%nat 1003
                       [{| iov_base := 1000; iov_len := 3 |}] 0 Ha Hb)
                eq_refl) as (iovA & older & Harr & Hpost & _).
    inversion Harr; subst. refine (eq_trans (Hpost []) _). reflexivity.
Defined.

(** "abc", a flush marker, "def": one entry of 6 bytes at 1000. *)
Lemma specials_keep_adjacency_witness :
  memory_span (Sample.st0 0%nat) /\ memory_span (Sample.st0 1%nat) /\
  all_special Sample.st0 [3%nat] /\
  last (Sample.st0 0%nat) = pos (Sample.st0 1%nat) /\
  header_scan Sample.st0 (fun _ => true) ([] ++ [0; 3; 1])%nat NULL [] 0
    = scan_done 1006 [{| iov_base := 1000; iov_len := 6 |}] 6 [] /\
  trailer_scan Sample.st0 (fun _ => true) ([] ++ [0; 3; 1])%nat NULL []
    = scan_done 1006 [{| iov_base := 1000; iov_len := 6 |}] 0 [].
Proof.
  assert (Ha : memory_span (Sample.st0 0%nat)) by (split; reflexivity).
  assert (Hb : memory_span (Sample.st0 1%nat)) by (split; reflexivity).
  assert (Hsp : all_special Sample.st0 [3%nat])
    by (repeat constructor).
  split; [exact Ha|]. split; [exact Hb|]. split; [exact Hsp|].
  split; [reflexivity|].
  assert (Hnn : pos (Sample.st0 0%nat) <> NULL) by discriminate.
  destruct (proj2 (proj2 (specials_keep_adjacency Sample.st0 (fun _ => true)
                            [] [3%nat] 0%nat 1%nat 0 [] 0 Ha Hb Hsp
                            eq_refl))
              (Forall_nil _) Hnn eq_refl []) as [Hh Ht].
  split.
  - refine (eq_trans Hh _). reflexivity.
  - refine (eq_trans Ht _). reflexivity.
Defined.

(** ** The file region *)

Lemma file_coalesce_run (st : store) (f : ngx_hunk_t) (run l : ngx_chain_t)
    (fsize fprev : Z) :
  contiguous_run st f fprev run ->
  file_coalesce st f fsize fprev (run ++ l)
  = file_coalesce st f (fsize + run_size st run) (run_end st fprev run) l.
Proof.
  revert fsize fprev.
  induction run as [|p run IH]; intros fsize fprev; simpl.
  - intros _. now rewrite Z.add_0_r.
  - intros (Hf & Hfd & Hpos & Hrun). unfold file_span in Hf.
    rewrite Hf, Hfd, Hpos, !Z.eqb_refl. simpl.
    rewrite (IH _ _ Hrun). now rewrite Z.add_assoc.
Qed.

Lemma file_coalesce_suffix (st : store) (f : ngx_hunk_t) (ce : ngx_chain_t)
    (fsize fprev : Z) :
  is_suffix (snd (file_coalesce st f fsize fprev ce)) ce.
Proof.
  revert fsize fprev.
  induction ce as [|p next IH]; intros fsize fprev; simpl.
  - auto with chain.
  - destruct (has_bits (st p) NGX_HUNK_FILE); [|auto with chain].
    destruct (negb (fd (file f) =? fd (file (st p)))
              || negb (fprev =? file_pos (st p))); auto with chain.
Qed.

Lemma header_scan_suffix (st : store) (ok : nat -> bool) (ce : ngx_chain_t)
    (p0 : Z) (a0 : ngx_array_t) (h0 : Z)
    (p1 : Z) (a1 : ngx_array_t) (h1 : Z) (rest : ngx_chain_t) :
  header_scan st ok ce p0 a0 h0 = scan_done p1 a1 h1 rest ->
  is_suffix rest ce.
Proof.
  revert p0 a0 h0.
  induction ce as [|p next IH]; intros p0 a0 h0; simpl.
  - intros H. inversion H. apply is_suffix_refl.
  - destruct (ngx_hunk_special (st p)).
    { intros H. apply is_suffix_cons. eapply IH, H. }
    destruct (ngx_hunk_in_memory_only (st p)); simpl.
    + destruct (p0 =? pos (st p)).
      * destruct a0; [discriminate|].
        intros H. apply is_suffix_cons. eapply IH, H.
      * destruct (ok (nelts a0)); [|discriminate].
        intros H. apply is_suffix_cons. eapply IH, H.
    + intros H. inversion H. apply is_suffix_refl.
Qed.

Lemma trailer_scan_suffix (st : store) (ok : nat -> bool) (ce : ngx_chain_t)
    (p0 : Z) (a0 : ngx_array_t)
    (p1 : Z) (a1 : ngx_array_t) (z : Z) (rest : ngx_chain_t) :
  trailer_scan st ok ce p0 a0 = scan_done p1 a1 z rest ->
  is_suffix rest ce.
Proof.
  rewrite (trailer_as_header _ _ _ _ _ 0). intros H.
  apply forget_hsize_done in H. destruct H as [hs H].
  eapply header_scan_suffix, H.
Qed.

Lemma is_suffix_length (a b : ngx_chain_t) :
  is_suffix a b -> (length a <= length b)%nat.
Proof. intros [k ->]. rewrite length_app. lia. Qed.

(** A file span stops the trailer scan where it starts. *)
Lemma trailer_scan_at_file (st : store) (ok : nat -> bool) (g : hunk_ref)
    (rest : ngx_chain_t) (prev : Z) (arr : ngx_array_t) :
  file_span (st g) ->
  trailer_scan st ok (g :: rest) prev arr = scan_done prev arr 0 (g :: rest).
Proof.
  intros Hg. simpl.
  now rewrite (file_not_special _ Hg), (file_not_memory_only _ Hg).
Qed.

(** The file region of a chain that starts with the file span [f], a run
    of file spans merged into it, and one more file span [g]. *)
Lemma file_region_next (st : store) (f g : hunk_ref) (run rest : ngx_chain_t) :
  file_span (st f) ->
  contiguous_run st (st f) (file_last (st f)) run ->
  file_span (st g) ->
  file_region st (f :: run ++ g :: rest)
  = if (fd (file (st f)) =? fd (file (st g)))
       && (run_end st (file_last (st f)) run =? file_pos (st g))
    then
      (Some f,
       fst (file_coalesce st (st f)
              (file_last (st f) - file_pos (st f) + run_size st run
               + (file_last (st g) - file_pos (st g)))
              (file_last (st g)) rest),
       snd (file_coalesce st (st f)
              (file_last (st f) - file_pos (st f) + run_size st run
               + (file_last (st g) - file_pos (st g)))
              (file_last (st g)) rest))
    else
      (Some f, file_last (st f) - file_pos (st f) + run_size st run,
       g :: rest).
Proof.
  intros Hf Hrun Hg. unfold file_region. unfold file_span in Hf, Hg.
  rewrite Hf, (file_coalesce_run _ _ _ _ _ _ Hrun).
  simpl. rewrite Hg.
  destruct (fd (file (st f)) =? fd (file (st g))); simpl; [|reflexivity].
  destruct (run_end st (file_last (st f)) run =? file_pos (st g)); simpl;
    [|reflexivity].
  now destruct (file_coalesce _ _ _ _ rest).
Qed.

(** C3. A chain whose header scan stops at a file span [f], followed by a
    run of file spans already merged into the region of [f] and by one
    more file span [g].  With the same file descriptor as [f] and its
    start at the running end offset, [g] is merged: the region goes on
    behind [g] with the size of [g] added and the end of [g] as the running
    end, and [tail] lies behind [g].  With another descriptor or any other
    start offset the coalescing stops: the region is [f] with the run, no
    trailer is built, and [g] is the tail.  So [g] is the tail if and only
    if it is not mergeable. *)
Theorem file_spans_merge_iff_contiguous
    (st : store) (w : os_reply) (in_ : ngx_chain_t)
    (prev : Z) (header : ngx_array_t) (hsize : Z)
    (f g : hunk_ref) (run rest : ngx_chain_t) :
  header_init_ok w = true -> trailer_init_ok w = true ->
  header_scan st (header_push_ok w) in_ NULL [] 0
    = scan_done prev header hsize (f :: run ++ g :: rest) ->
  file_span (st f) ->
  contiguous_run st (st f) (file_last (st f)) run ->
  file_span (st g) ->
  let fprev := run_end st (file_last (st f)) run in
  let fsize := file_last (st f) - file_pos (st f) + run_size st run in
  let mergeable :=
    fd (file (st f)) = fd (file (st g)) /\ fprev = file_pos (st g) in
  (mergeable ->
   file_region st (f :: run ++ g :: rest)
   = (Some f,
      fst (file_coalesce st (st f)
             (fsize + (file_last (st g) - file_pos (st g)))
             (file_last (st g)) rest),
      snd (file_coalesce st (st f)
             (fsize + (file_last (st g) - file_pos (st g)))
             (file_last (st g)) rest)))
  /\
  (~ mergeable ->
   coalesce st w in_ = coalesce_ok header hsize (Some f) fsize [] (g :: rest))
  /\
  (forall header' hsize' file' fsize' trailer' tail,
      coalesce st w in_
        = coalesce_ok header' hsize' file' fsize' trailer' tail ->
      file' = Some f /\
      (tail = g :: rest <-> ~ mergeable) /\
      (mergeable ->
       is_suffix tail rest /\
       fsize' = fst (file_coalesce st (st f)
                       (fsize + (file_last (st g) - file_pos (st g)))
                       (file_last (st g)) rest))).
Proof.
  intros Hhi Hti Hscan Hf Hrun Hg fprev fsize mergeable.
  pose proof (file_region_next st f g run rest Hf Hrun Hg) as Hreg.
  fold fprev in Hreg. fold fsize in Hreg.
  assert (Hdec : (fd (file (st f)) =? fd (file (st g)))
                 && (fprev =? file_pos (st g)) = true <-> mergeable).
  { unfold mergeable. now rewrite andb_true_iff, !Z.eqb_eq. }
  assert (Hyes : mergeable ->
                 file_region st (f :: run ++ g :: rest)
                 = (Some f,
                    fst (file_coalesce st (st f)
                           (fsize + (file_last (st g) - file_pos (st g)))
                           (file_last (st g)) rest),
                    snd (file_coalesce st (st f)
                           (fsize + (file_last (st g) - file_pos (st g)))
                           (file_last (st g)) rest))).
  { intros Hm. apply Hdec in Hm. now rewrite Hreg, Hm. }
  assert (Hno : ~ mergeable ->
                coalesce st w in_
                = coalesce_ok header hsize (Some f) fsize [] (g :: rest)).
  { intros Hm. unfold coalesce. rewrite Hhi, Hti, Hscan. simpl negb. cbv iota.
    rewrite Hreg.
    destruct ((fd (file (st f)) =? fd (file (st g)))
              && (fprev =? file_pos (st g))) eqn:E.
    - exfalso. now apply Hm, Hdec.
    - now rewrite (trailer_scan_at_file _ _ _ _ _ _ Hg). }
  split; [exact Hyes|]. split; [exact Hno|].
  intros header' hsize' file' fsize' trailer' tail Hco.
  assert (Hcases : mergeable \/ ~ mergeable).
  { destruct ((fd (file (st f)) =? fd (file (st g)))
              && (fprev =? file_pos (st g))) eqn:E.
    - left. now apply Hdec.
    - right. intros Hm. apply Hdec in Hm. congruence. }
  destruct Hcases as [Hm|Hm].
  - assert (Hin : file' = Some f /\ is_suffix tail rest /\
                  fsize' = fst (file_coalesce st (st f)
                                  (fsize
                                   + (file_last (st g) - file_pos (st g)))
                                  (file_last (st g)) rest)).
    { unfold coalesce in Hco. rewrite Hhi, Hti, Hscan in Hco.
      simpl negb in Hco. cbv iota in Hco. rewrite (Hyes Hm) in Hco.
      destruct (trailer_scan _ _ _ _ _) as [| |p1 a1 z1 tl] eqn:Ht;
        try discriminate.
      inversion Hco. subst. split; [reflexivity|]. split; [|reflexivity].
      eapply is_suffix_trans;
        [eapply trailer_scan_suffix, Ht | apply file_coalesce_suffix]. }
    destruct Hin as (Hfile & Hsuf & Hsz).
    split; [exact Hfile|]. split; [|intros _; now split].
    split; [|now intros Hn].
    intros Htl. exfalso. subst tail.
    apply is_suffix_length in Hsuf. simpl in Hsuf. lia.
  - rewrite (Hno Hm) in Hco. inversion Hco. subst.
    split; [reflexivity|]. split; [tauto|]. intros Hy. contradiction.
Qed.

(** "abc", then the ranges [0, 100), [100, 150) and [110, 160) of file 7:
    the first two make a region of 150 bytes, the third is the tail. *)
Lemma file_spans_merge_iff_contiguous_witness :
  file_span (Sample.st0 2%nat) /\
  contiguous_run Sample.st0 (Sample.st0 2%nat) 100 [6%nat] /\
  file_span (Sample.st0 4%nat) /\
  coalesce Sample.st0 (Sample.reply 0 0 0) [0; 2; 6; 4]%nat
  = coalesce_ok [{| iov_base := 1000; iov_len := 3 |}] 3 (Some 2%nat) 150
      [] [4%nat].
Proof.
  assert (Hf : file_span (Sample.st0 2%nat)) by reflexivity.
  assert (Hg : file_span (Sample.st0 4%nat)) by reflexivity.
  assert (Hrun : contiguous_run Sample.st0 (Sample.st0 2%nat)
                   (file_last (Sample.st0 2%nat)) [6%nat])
    by (repeat split).
  split; [exact Hf|]. split; [exact Hrun|]. split; [exact Hg|].
  refine (proj1 (proj2 (file_spans_merge_iff_contiguous Sample.st0
                          (Sample.reply 0 0 0) [0; 2; 6; 4]%nat 1003
                          [{| iov_base := 1000; iov_len := 3 |}] 3
                          2%nat 4%nat [6%nat] [] eq_refl eq_refl eq_refl
                          Hf Hrun Hg)) _).
  intros [_ H]. discriminate H.
Defined.

(** ** The two branches *)

Lemma fatal_dec (w : os_reply) :
  (io_rc w =? -1) && negb ((io_errno w =? NGX_EAGAIN)
                           || (io_errno w =? NGX_EINTR)) = true
  <-> fatal w.
Proof.
  unfold fatal.
  rewrite andb_true_iff, negb_true_iff, orb_false_iff, !Z.eqb_neq, Z.eqb_eq.
  tauto.
Qed.

Lemma interrupted_dec (w : os_reply) :
  (io_rc w =? -1) && (io_errno w =? NGX_EINTR) = true <-> interrupted w.
Proof. unfold interrupted. now rewrite andb_true_iff, !Z.eqb_eq. Qed.


Lemma nopush_fails_dec (t : ngx_freebsd_tunables) (w : os_reply)
    (m : machine) :
  wants_nopush t m && (tcp_nopush_rc w =? NGX_ERROR) = true
  <-> nopush_fails t w m.
Proof. unfold nopush_fails. now rewrite andb_true_iff, Z.eqb_eq. Qed.

(** The sendfile() branch, case by case. *)
Lemma sendfile_branch_cases (t : ngx_freebsd_tunables) (w : os_reply)
    (m : machine) (in_ : ngx_chain_t) (f : hunk_ref) (fsize hsize : Z)
    (header trailer : ngx_array_t) (tail : ngx_chain_t) :
  let nbytes :=
    fsize + (if ngx_freebsd_sendfile_nbytes_bug t =? 0 then 0 else hsize) in
  let m2 :=
    emit (before_sendfile t m) (sendfile_call m f nbytes header trailer) in
  sendfile_branch t w m in_ f fsize hsize header trailer tail
  = if wants_nopush t m && (tcp_nopush_rc w =? NGX_ERROR)
    then body_error (before_sendfile t m)
    else if (io_rc w =? -1) && negb ((io_errno w =? NGX_EAGAIN)
                                     || (io_errno w =? NGX_EINTR))
    then body_error m2
    else apply_sent m2 (io_sent w) in_ tail
           ((io_rc w =? -1) && (io_errno w =? NGX_EINTR))
           ((io_rc w =? -1) && (io_errno w =? NGX_EAGAIN)).
Proof. reflexivity. Qed.

Lemma before_sendfile_hunks (t : ngx_freebsd_tunables) (m : machine) :
  hunks (before_sendfile t m) = hunks m.
Proof. unfold before_sendfile. now destruct (wants_nopush t m). Qed.

Lemma before_sendfile_conn (t : ngx_freebsd_tunables) (m : machine) :
  c_sent (conn (before_sendfile t m)) = c_sent (conn m) /\
  c_write_ready (conn (before_sendfile t m)) = c_write_ready (conn m) /\
  c_fd (conn (before_sendfile t m)) = c_fd (conn m).
Proof. unfold before_sendfile. now destruct (wants_nopush t m). Qed.

Lemma before_sendfile_trace (t : ngx_freebsd_tunables) (m : machine) :
  trace (before_sendfile t m)
  = trace m ++ (if wants_nopush t m
                then [sys_tcp_nopush (c_fd (conn m))] else []).
Proof.
  unfold before_sendfile. destruct (wants_nopush t m); simpl; auto.
  now rewrite app_nil_r.
Qed.

Lemma completion_zero (st : store) (ce : ngx_chain_t) :
  completion st 0 ce = (st, skip_special st ce).
Proof.
  induction ce as [|p next IH]; simpl; auto.
  now destruct (ngx_hunk_special (st p)).
Qed.

(** ** The iteration and the call *)

(** C8. Called with the write-ready flag off, the function returns the
    chain it was given, whatever the environment would answer: the machine
    is the one it was called with, so no hunk cursor, not [c->sent], not
    [c->tcp_nopush] and not the flag itself has changed, and no system call
    was issued. *)
Theorem not_ready_returns_chain_unchanged
    (t : ngx_freebsd_tunables) (replies : list os_reply) (m : machine)
    (in_ : ngx_chain_t) :
  c_write_ready (conn m) = false ->
  ngx_freebsd_sendfile_chain t replies m in_ = call_returns m (chain_ptr in_).
Proof.
  intros H. unfold ngx_freebsd_sendfile_chain. now rewrite H.
Qed.

Lemma not_ready_returns_chain_unchanged_witness :
  let m :=
    with_conn Sample.m0 (set_write_ready Sample.c0 false) in
  c_write_ready (conn m) = false /\
  ngx_freebsd_sendfile_chain (Sample.tun 1 1) [Sample.reply 0 0 106] m
    [0; 1; 2]%nat
  = call_returns m (chain_ptr [0; 1; 2]%nat).
Proof.
  intros m. split; [reflexivity|].
  apply (not_ready_returns_chain_unchanged (Sample.tun 1 1)
           [Sample.reply 0 0 106] m [0; 1; 2]%nat).
  reflexivity.
Defined.

(** C6 as stated fails: sendfile() fails with EIO having reported 10 bytes
    sent of a file span of 100 bytes.  The call returns the error with the
    cursor of the span where it was and [c->sent] at 0, while the
    completion pass would have moved the cursor to 10. *)
Lemma fatal_error_leaves_sent_bytes_unapplied :
  let w := Sample.reply (-1) 5 10 in
  let r :=
    ngx_freebsd_sendfile_chain (Sample.tun 0 0) [w] Sample.m0 [2%nat] in
  fatal w /\ io_sent w = 10 /\
  r = call_returns (Sample.machine_at_return r) NGX_CHAIN_ERROR /\
  file_pos (hunks (Sample.machine_at_return r) 2%nat) = 0 /\
  c_sent (conn (Sample.machine_at_return r)) = 0 /\
  file_pos (fst (completion Sample.st0 10 [2%nat]) 2%nat) = 10 /\
  hunks (Sample.machine_at_return r) 2%nat
    <> fst (completion Sample.st0 10 [2%nat]) 2%nat.
Proof.
  intros w r.
  split; [unfold fatal; repeat split; discriminate|].
  do 5 (split; [reflexivity|]).
  intros H. apply (f_equal file_pos) in H. discriminate H.
Qed.

(** C6 as the code has it.  An iteration whose system call fails with an
    error other than EINTR and EAGAIN ends the call with the error marker
    (unless a scan has faulted before the call was made): the completion
    pass is not run for this attempt, so the hunks are the ones the
    iteration started with and [c->sent] has not grown, whatever number of
    bytes the call reported. *)
Theorem fatal_error_returns_without_completion
    (t : ngx_freebsd_tunables) (w : os_reply) (replies : list os_reply)
    (m : machine) (in_ : ngx_chain_t) :
  fatal w ->
  (coalesce (hunks m) w in_ = coalesce_fault /\
   do_while t (w :: replies) m in_ = call_faults)
  \/
  (exists m',
      do_while t (w :: replies) m in_ = call_returns m' NGX_CHAIN_ERROR /\
      hunks m' = hunks m /\
      c_sent (conn m') = c_sent (conn m) /\
      c_write_ready (conn m') = c_write_ready (conn m)).
Proof.
  intros Hf. simpl. unfold iteration, loop_body.
  destruct (coalesce (hunks m) w in_)
    as [| | header hsize [f|] fsize trailer tail] eqn:Hco.
  - left. now split.
  - right. exists m. now repeat split.
  - right. rewrite sendfile_branch_cases.
    destruct (wants_nopush t m && (tcp_nopush_rc w =? NGX_ERROR)).
    + exists (before_sendfile t m).
      split; [reflexivity|]. split; [apply before_sendfile_hunks|].
      destruct (before_sendfile_conn t m) as (H1 & H2 & _). now split.
    + apply fatal_dec in Hf. rewrite Hf.
      eexists. split; [reflexivity|]. simpl.
      split; [apply before_sendfile_hunks|].
      destruct (before_sendfile_conn t m) as (H1 & H2 & _). now split.
  - right. unfold writev_branch.
    destruct Hf as (Hrc & Hi & Ha).
    apply Z.eqb_eq in Hrc. apply Z.eqb_neq in Hi, Ha.
    rewrite Hrc, Hi, Ha. simpl.
    eexists. split; [reflexivity|]. simpl. now repeat split.
Qed.

Lemma fatal_error_returns_without_completion_witness :
  let w := Sample.reply (-1) 5 10 in
  fatal w /\
  exists m',
    do_while (Sample.tun 0 0) [w] Sample.m0 [2%nat]
      = call_returns m' NGX_CHAIN_ERROR /\
    hunks m' = Sample.st0 /\ c_sent (conn m') = 0 /\
    c_write_ready (conn m') = true.
Proof.
  intros w.
  assert (Hf : fatal w) by (unfold fatal; repeat split; discriminate).
  split; [exact Hf|].
  destruct (fatal_error_returns_without_completion (Sample.tun 0 0) w []
              Sample.m0 [2%nat] Hf) as [[H _]|H].
  - discriminate H.
  - exact H.
Defined.

(** C9 as stated fails: "abc", "def" and 100 bytes of a file, the header
    being one entry of 6 bytes.  With the nbytes-bug flag at 0 the length
    passed to sendfile() is 100, not 106; with the flag at 1, the setting
    for the systems that have the bug, it is 106 and the header does count.
    The header entry is passed either way. *)
Lemma sendfile_length_counterexample :
  let hdr := [{| iov_base := 1000; iov_len := 6 |}] in
  let run bug :=
    ngx_freebsd_sendfile_chain (Sample.tun 0 bug) [Sample.reply 0 0 0]
      Sample.m0 [0; 1; 2]%nat in
  coalesce Sample.st0 (Sample.reply 0 0 0) [0; 1; 2]%nat
    = coalesce_ok hdr 6 (Some 2%nat) 100 [] [] /\
  trace (Sample.machine_at_return (run 0)) = [sys_sendfile 7 3 0 100 hdr []] /\
  trace (Sample.machine_at_return (run 1)) = [sys_sendfile 7 3 0 106 hdr []] /\
  100 <> 100 + 6 /\ 106 <> 100 + 0.
Proof. repeat split; discriminate. Qed.

(** C9 as the code has it.  In an iteration with a file region, once
    TCP_NOPUSH is dealt with, sendfile() is called with the file and the
    offset of the first file span, with the header and the trailer
    entries, and with a length that is the size of the file region plus
    the size of the header when the nbytes-bug flag is set, and the size
    of the file region alone when the flag is 0.  It is the last system
    call of the iteration. *)
Theorem sendfile_length_by_nbytes_bug
    (t : ngx_freebsd_tunables) (w : os_reply) (m : machine)
    (in_ : ngx_chain_t) (header : ngx_array_t) (hsize : Z) (f : hunk_ref)
    (fsize : Z) (trailer : ngx_array_t) (tail : ngx_chain_t) :
  coalesce (hunks m) w in_
    = coalesce_ok header hsize (Some f) fsize trailer tail ->
  ~ nopush_fails t w m ->
  exists m' nbytes,
    body_machine (loop_body t w m in_) = Some m' /\
    trace m'
    = trace m
      ++ (if wants_nopush t m then [sys_tcp_nopush (c_fd (conn m))] else [])
      ++ [sys_sendfile (fd (file (hunks m f))) (c_fd (conn m))
            (file_pos (hunks m f)) nbytes (elts header) (elts trailer)] /\
    (ngx_freebsd_sendfile_nbytes_bug t <> 0 -> nbytes = fsize + hsize) /\
    (ngx_freebsd_sendfile_nbytes_bug t = 0 -> nbytes = fsize).
Proof.
  intros Hco Hnp. unfold loop_body. rewrite Hco, sendfile_branch_cases.
  destruct (wants_nopush t m && (tcp_nopush_rc w =? NGX_ERROR)) eqn:E.
  { exfalso. now apply Hnp, nopush_fails_dec. }
  set (nbytes := fsize + (if ngx_freebsd_sendfile_nbytes_bug t =? 0
                          then 0 else hsize)).
  assert (Hn : (ngx_freebsd_sendfile_nbytes_bug t <> 0 ->
                nbytes = fsize + hsize) /\
               (ngx_freebsd_sendfile_nbytes_bug t = 0 -> nbytes = fsize)).
  { unfold nbytes.
    destruct (Z.eqb_spec (ngx_freebsd_sendfile_nbytes_bug t) 0);
      split; intros; try contradiction; lia. }
  assert (Htr : trace (emit (before_sendfile t m)
                         (sendfile_call m f nbytes header trailer))
                = trace m
                  ++ (if wants_nopush t m
                      then [sys_tcp_nopush (c_fd (conn m))] else [])
                  ++ [sys_sendfile (fd (file (hunks m f))) (c_fd (conn m))
                        (file_pos (hunks m f)) nbytes
                        (elts header) (elts trailer)]).
  { simpl. now rewrite before_sendfile_trace, <- app_assoc. }
  destruct ((io_rc w =? -1) && negb ((io_errno w =? NGX_EAGAIN)
                                     || (io_errno w =? NGX_EINTR))).
  - eexists _, nbytes. split; [reflexivity|]. now split.
  - unfold apply_sent.
    destruct (completion _ _ _) as [st' in'].
    eexists _, nbytes. split; [reflexivity|]. now split.
Qed.

Lemma sendfile_length_by_nbytes_bug_witness :
  let hdr := [{| iov_base := 1000; iov_len := 6 |}] in
  coalesce Sample.st0 (Sample.reply 0 0 0) [0; 1; 2]%nat
    = coalesce_ok hdr 6 (Some 2%nat) 100 [] [] /\
  ~ nopush_fails (Sample.tun 1 1) (Sample.reply 0 0 0) Sample.m0 /\
  exists m' nbytes,
    body_machine (loop_body (Sample.tun 1 1) (Sample.reply 0 0 0)
                    Sample.m0 [0; 1; 2]%nat) = Some m' /\
    trace m' = [] ++ [sys_tcp_nopush 3]
               ++ [sys_sendfile 7 3 0 nbytes (elts hdr) (elts [])] /\
    (1 <> 0 -> nbytes = 100 + 6) /\ (1 = 0 -> nbytes = 100).
Proof.
  intros hdr.
  assert (Hnp : ~ nopush_fails (Sample.tun 1 1) (Sample.reply 0 0 0)
                  Sample.m0) by (intros [_ H]; discriminate H).
  split; [reflexivity|]. split; [exact Hnp|].
  exact (sendfile_length_by_nbytes_bug (Sample.tun 1 1) (Sample.reply 0 0 0)
           Sample.m0 [0; 1; 2]%nat hdr 6 2%nat 100 [] [] eq_refl Hnp).
Defined.






Lemma leave_hunks (m : machine) (in_ : ngx_chain_t) :
  hunks (leave m in_) = hunks m.
Proof. unfold leave. now destruct (nonnull in_). Qed.

Lemma leave_sent (m : machine) (in_ : ngx_chain_t) :
  c_sent (conn (leave m in_)) = c_sent (conn m).
Proof. unfold leave. now destruct (nonnull in_). Qed.




(** ** Special spans *)

Lemma strip_special_cons (st : store) (p : hunk_ref) (ce : ngx_chain_t) :
  strip_special st (p :: ce)
  = if ngx_hunk_special (st p) then strip_special st ce
    else p :: strip_special st ce.
Proof. unfold strip_special. simpl. now destruct (ngx_hunk_special (st p)). Qed.





(** The completion pass keeps the type of every hunk and does not touch
    the special ones. *)
Lemma completion_type (st : store) (sent : Z) (ce : ngx_chain_t)
    (q : hunk_ref) :
  type (fst (completion st sent ce) q) = type (st q).
Proof.
  revert st sent. induction ce as [|p next IH]; intros st sent; simpl; auto.
  destruct (ngx_hunk_special (st p)); [apply IH|].
  destruct (sent =? 0); [reflexivity|].
  destruct (sent >=? ngx_hunk_size (st p)).
  - rewrite IH. unfold upd. now destruct (Nat.eqb_spec q p) as [->|].
  - simpl. unfold upd. now destruct (Nat.eqb_spec q p) as [->|].
Qed.

Lemma completion_keeps_special (st : store) (sent : Z) (ce : ngx_chain_t)
    (q : hunk_ref) :
  ngx_hunk_special (st q) = true ->
  fst (completion st sent ce) q = st q.
Proof.
  revert st sent. induction ce as [|p next IH]; intros st sent Hq; simpl; auto.
  destruct (ngx_hunk_special (st p)) eqn:Hsp; [now apply IH|].
  assert (Hne : q <> p) by (intros ->; congruence).
  destruct (sent =? 0); [reflexivity|].
  destruct (sent >=? ngx_hunk_size (st p)).
  - rewrite IH; [now apply upd_other|].
    now rewrite upd_other.
  - simpl. now apply upd_other.
Qed.

(** What the hunks are after a loop body that ended with an error. *)
Lemma loop_body_error_inv (t : ngx_freebsd_tunables) (w : os_reply)
    (m m' : machine) (in_ : ngx_chain_t) :
  loop_body t w m in_ = body_error m' -> hunks m' = hunks m.
Proof.
  unfold loop_body.
  destruct (coalesce (hunks m) w in_)
    as [| | header hsize [f|] fsize trailer tail]; try discriminate.
  - intros H. now inversion H.
  - rewrite sendfile_branch_cases.
    destruct (wants_nopush t m && (tcp_nopush_rc w =? NGX_ERROR)).
    { intros H. inversion H. apply before_sendfile_hunks. }
    destruct ((io_rc w =? -1) && negb ((io_errno w =? NGX_EAGAIN)
                                       || (io_errno w =? NGX_EINTR))).
    { intros H. inversion H. simpl. apply before_sendfile_hunks. }
    intros H. apply apply_sent_inv in H. discriminate H.
  - unfold writev_branch.
    destruct ((io_rc w =? -1) && negb (io_errno w =? NGX_EAGAIN)
              && negb (io_errno w =? NGX_EINTR)).
    { intros H. now inversion H. }
    intros H. apply apply_sent_inv in H. discriminate H.
Qed.

Lemma specials_kept_refl (m m' : machine) :
  hunks m' = hunks m -> specials_kept m m'.
Proof. intros H q. now rewrite H. Qed.

Lemma specials_kept_trans (m1 m2 m3 : machine) :
  specials_kept m1 m2 -> specials_kept m2 m3 -> specials_kept m1 m3.
Proof.
  intros H12 H23 q. destruct (H12 q) as [T12 S12], (H23 q) as [T23 S23].
  split; [congruence|]. intros Hq.
  rewrite S23, S12; auto.
  rewrite (special_by_type _ _ T12). exact Hq.
Qed.

Lemma iteration_inv (t : ngx_freebsd_tunables) (w : os_reply)
    (m : machine) (in_ : ngx_chain_t) :
  match iteration t w m in_ with
  | iter_again m' in' => specials_kept m m' /\ is_suffix in' in_
  | iter_return m' r =>
      specials_kept m m' /\ forall out, r = chain_ptr out -> is_suffix out in_
  | iter_fault => True
  end.
Proof.
  unfold iteration.
  destruct (loop_body t w m in_) as [m1| |m1 in' tail eintr eagain] eqn:Hb.
  - split; [|discriminate].
    apply specials_kept_refl. eapply loop_body_error_inv, Hb.
  - exact I.
  - apply loop_body_test_inv in Hb.
    destruct Hb as (header & hsize & file & fsize & trailer & _ & _ & Hst
                    & Hin & _).
    assert (Hk : specials_kept m m1).
    { intros q. rewrite Hst. split; [apply completion_type|].
      apply completion_keeps_special. }
    assert (Hsuf : is_suffix in' in_)
      by (rewrite Hin; apply completion_suffix).
    assert (Hl : forall x, hunks x = hunks m1 ->
                           specials_kept m (leave x in')).
    { intros x Hx q. rewrite leave_hunks, Hx. apply Hk. }
    destruct eagain; [|destruct (nonnull tail && chain_eqb tail in' || eintr)].
    + split; [now apply Hl|]. intros out H. inversion H. now subst out.
    + now split.
    + split; [now apply Hl|]. intros out H. inversion H. now subst out.
Qed.

Lemma do_while_inv (t : ngx_freebsd_tunables) (replies : list os_reply)
    (m m' : machine) (in_ : ngx_chain_t) (r : chain_ret) :
  do_while t replies m in_ = call_returns m' r ->
  specials_kept m m' /\ forall out, r = chain_ptr out -> is_suffix out in_.
Proof.
  revert m in_. induction replies as [|w replies IH]; intros m in_; simpl.
  - discriminate.
  - pose proof (iteration_inv t w m in_) as Hi.
    destruct (iteration t w m in_) as [m1 in1|m1 r1|].
    + intros H. apply IH in H. destruct Hi as [Hk Hs], H as [Hk' Hs'].
      split; [eapply specials_kept_trans; eauto|].
      intros out Hr. eapply is_suffix_trans; eauto.
    + intros H. inversion H. subst. exact Hi.
    + discriminate.
Qed.




(** ** The scenarios of the specification *)

(** "abc", "def" behind it and 100 bytes of a file: one header entry of 6
    bytes and a file region of 100 bytes; with 106 bytes sent both memory
    spans and the file span are consumed and the chain is empty. *)
Example scenario_all_sent :
  let r :=
    ngx_freebsd_sendfile_chain (Sample.tun 1 1) [Sample.reply 0 0 106]
      Sample.m0 [0; 1; 2]%nat in
  coalesce Sample.st0 (Sample.reply 0 0 106) [0; 1; 2]%nat
    = coalesce_ok [{| iov_base := 1000; iov_len := 6 |}] 6 (Some 2%nat) 100
        [] [] /\
  r = call_returns (Sample.machine_at_return r) (chain_ptr []) /\
  map (fun p => ngx_hunk_size (hunks (Sample.machine_at_return r) p))
    [0; 1; 2]%nat = [0; 0; 0] /\
  c_sent (conn (Sample.machine_at_return r)) = 106 /\
  c_write_ready (conn (Sample.machine_at_return r)) = true.
Proof. repeat split. Qed.

(** The same chain with 3 bytes sent: "abc" is consumed, "def" is untouched
    and is the new head, and the write-ready flag goes off. *)
Example scenario_three_sent :
  let r :=
    ngx_freebsd_sendfile_chain (Sample.tun 1 1) [Sample.reply 0 0 3]
      Sample.m0 [0; 1; 2]%nat in
  r = call_returns (Sample.machine_at_return r) (chain_ptr [1; 2]%nat) /\
  map (hunks (Sample.machine_at_return r)) [0; 1; 2]%nat
  = [Sample.mem_hunk 1003 1003; Sample.st0 1%nat; Sample.st0 2%nat] /\
  c_write_ready (conn (Sample.machine_at_return r)) = false.
Proof. repeat split. Qed.

(** Two spans of one file with a gap between them are not coalesced: the
    second is the tail, and once the first is sent whole the loop sends the
    second in its next iteration. *)
Example scenario_file_gap :
  let r :=
    ngx_freebsd_sendfile_chain (Sample.tun 0 0)
      [Sample.reply 0 0 100; Sample.reply 0 0 50] Sample.m0 [2; 4]%nat in
  coalesce Sample.st0 (Sample.reply 0 0 100) [2; 4]%nat
    = coalesce_ok [] 0 (Some 2%nat) 100 [] [4%nat] /\
  r = call_returns (Sample.machine_at_return r) (chain_ptr []) /\
  trace (Sample.machine_at_return r)
  = [sys_sendfile 7 3 0 100 [] []; sys_sendfile 7 3 110 50 [] []].
Proof. repeat split. Qed.

(** File coalescing takes only the spans that follow immediately: a special
    span between two contiguous spans of one file ends the region, and the
    second file span is the tail. *)
Example special_span_ends_file_region :
  coalesce Sample.st0 (Sample.reply 0 0 0) [2; 6]%nat
    = coalesce_ok [] 0 (Some 2%nat) 150 [] [] /\
  coalesce Sample.st0 (Sample.reply 0 0 0) [2; 3; 6]%nat
    = coalesce_ok [] 0 (Some 2%nat) 100 [] [6%nat].
Proof. split; reflexivity. Qed.

(** Memory spans that are not adjacent get an entry each, in chain order;
    a span of another file ends the file region. *)
Example scenario_no_merge :
  coalesce Sample.st0 (Sample.reply 0 0 0) [0; 5]%nat
    = coalesce_ok [{| iov_base := 2000; iov_len := 10 |};
                   {| iov_base := 1000; iov_len := 3 |}] 13 None 0 [] [] /\
  elts [{| iov_base := 2000; iov_len := 10 |};
        {| iov_base := 1000; iov_len := 3 |}]
    = [{| iov_base := 1000; iov_len := 3 |};
       {| iov_base := 2000; iov_len := 10 |}] /\
  coalesce Sample.st0 (Sample.reply 0 0 0) [2; 7]%nat
    = coalesce_ok [] 0 (Some 2%nat) 100 [] [7%nat].
Proof. repeat split. Qed.

(** ** Further properties of the scans *)

Section ScanOutcomes.

Variable st : store.
Variable ok : nat -> bool.

(** Once the array has an entry the scan cannot fault. *)
Lemma header_scan_no_fault (ce : ngx_chain_t) (p0 : Z) (iov : iovec)
    (older : ngx_array_t) (h0 : Z) :
  header_scan st ok ce p0 (iov :: older) h0 <> scan_fault.
Proof.
  revert p0 iov older h0.
  induction ce as [|p next IH]; intros p0 iov older h0; cbn [header_scan].
  - discriminate.
  - destruct (ngx_hunk_special (st p)); [apply IH|].
    destruct (ngx_hunk_in_memory_only (st p)); cbn [negb]; [|discriminate].
    destruct (p0 =? pos (st p)); [apply IH|].
    destruct (ok (nelts (iov :: older))); [apply IH | discriminate].
Qed.

Lemma header_scan_fault_iff (ce : ngx_chain_t) (h0 : Z) :
  header_scan st ok ce NULL [] h0 = scan_fault <-> starts_at_null st ce.
Proof.
  unfold starts_at_null.
  induction ce as [|p next IH]; cbn [header_scan skip_special].
  - split; [discriminate | intros (q & r & H & _); discriminate H].
  - destruct (ngx_hunk_special (st p)) eqn:Hsp; [exact IH|].
    destruct (ngx_hunk_in_memory_only (st p)) eqn:Hmem; cbn [negb].
    + destruct (Z.eqb_spec NULL (pos (st p))) as [E|E].
      * split; [|reflexivity]. intros _. exists p, next. now repeat split.
      * split.
        -- destruct (ok (nelts [])); [|discriminate].
           intros H. now apply header_scan_no_fault in H.
        -- intros (q & r & H & _ & Hq). inversion H. subst. congruence.
    + split; [discriminate|].
      intros (q & r & H & Hq & _). inversion H. subst. congruence.
Qed.

(** With every push succeeding the scan ends by itself unless it faults. *)
Lemma header_scan_total (ce : ngx_chain_t) (p0 : Z) (a0 : ngx_array_t)
    (h0 : Z) :
  (forall n, ok n = true) ->
  header_scan st ok ce p0 a0 h0 = scan_fault \/
  exists prev arr hs rest,
    header_scan st ok ce p0 a0 h0 = scan_done prev arr hs rest.
Proof.
  intros Hok. revert p0 a0 h0.
  induction ce as [|p next IH]; intros p0 a0 h0; cbn [header_scan].
  - right. eauto.
  - destruct (ngx_hunk_special (st p)); [apply IH|].
    destruct (ngx_hunk_in_memory_only (st p)); cbn [negb]; [|right; eauto].
    destruct (p0 =? pos (st p)).
    + destruct a0; [now left | apply IH].
    + rewrite Hok. apply IH.
Qed.

(** X1. The header scan and the trailer scan dereference the NULL [iov]
    exactly when the first span that is not special is a memory span whose
    data starts at the address NULL; in every other case, and with every
    [ngx_push_array()] succeeding, they run to their end. *)
Theorem scans_fault_only_at_null (ce : ngx_chain_t) :
  (header_scan st ok ce NULL [] 0 = scan_fault <-> starts_at_null st ce) /\
  (trailer_scan st ok ce NULL [] = scan_fault <-> starts_at_null st ce) /\
  ((forall n, ok n = true) -> ~ starts_at_null st ce ->
   exists prev arr hs rest,
     header_scan st ok ce NULL [] 0 = scan_done prev arr hs rest /\
     trailer_scan st ok ce NULL [] = scan_done prev arr 0 rest).
Proof.
  split; [apply header_scan_fault_iff|]. split.
  - rewrite (trailer_as_header _ _ _ _ _ 0), <- (header_scan_fault_iff ce 0).
    destruct (header_scan st ok ce NULL [] 0); simpl;
      split; intros H; congruence.
  - intros Hok Hn.
    destruct (header_scan_total ce NULL [] 0 Hok)
      as [H|(prev & arr & hs & rest & H)].
    + now apply header_scan_fault_iff in H.
    + exists prev, arr, hs, rest. split; [exact H|].
      now rewrite (trailer_as_header _ _ _ _ _ 0), H.
Qed.

End ScanOutcomes.

(** ** The bytes of the vectors *)

Lemma bytes_of_length (base len : Z) :
  0 <= len -> Z.of_nat (length (bytes_of base len)) = len.
Proof.
  intros H. unfold bytes_of. rewrite length_map, length_seq. lia.
Qed.

Lemma map_seq_shift (A : Type) (f : nat -> A) (k n s : nat) :
  map f (seq (k + s) n) = map (fun i => f (k + i)%nat) (seq s n).
Proof.
  revert s. induction n as [|n IH]; intros s; simpl; [reflexivity|].
  f_equal. replace (S (k + s)) with (k + S s)%nat by lia. apply IH.
Qed.

Lemma bytes_of_app (base a b : Z) :
  0 <= a -> 0 <= b ->
  bytes_of base (a + b) = bytes_of base a ++ bytes_of (base + a) b.
Proof.
  intros Ha Hb. unfold bytes_of.
  rewrite Z2Nat.inj_add by lia. rewrite seq_app, map_app. f_equal.
  rewrite <- (Nat.add_0_r (Z.to_nat a)) at 1. rewrite Nat.add_0_l.
  rewrite map_seq_shift. apply map_ext. intros i. lia.
Qed.

Lemma iov_bytes_snoc (v : list iovec) (e : iovec) :
  iov_bytes (v ++ [e]) = iov_bytes v ++ bytes_of (iov_base e) (iov_len e).
Proof.
  unfold iov_bytes. rewrite flat_map_app. simpl. now rewrite app_nil_r.
Qed.

Section ScanBytes.

Variable st : store.
Variable ok : nat -> bool.

Lemma header_scan_bytes (ce : ngx_chain_t) (p0 : Z) (a0 : ngx_array_t)
    (h0 : Z) (prev : Z) (arr : ngx_array_t) (hs : Z) (rest : ngx_chain_t) :
  array_ends_at a0 p0 ->
  memory_ranges_ok st ce ->
  header_scan st ok ce p0 a0 h0 = scan_done prev arr hs rest ->
  exists scanned,
    ce = scanned ++ rest /\
    all_memory st scanned /\
    scan_stop st rest /\
    iov_bytes (elts arr) = iov_bytes (elts a0) ++ chain_bytes st scanned /\
    hs = h0 + Z.of_nat (length (chain_bytes st scanned)).
Proof.
  revert p0 a0 h0.
  induction ce as [|p next IH]; intros p0 a0 h0 Hends Hok; cbn [header_scan].
  - intros H. inversion H. subst. exists []. simpl.
    rewrite app_nil_r, Z.add_0_r. repeat split. constructor.
  - inversion Hok as [|x l Hp Hnext]. subst x l.
    destruct (ngx_hunk_special (st p)) eqn:Hsp.
    { intros H. destruct (IH _ _ _ Hends Hnext H)
        as (sc & Hce & Hall & Hstop & Hb & Hh).
      exists (p :: sc). simpl. rewrite Hsp. simpl.
      repeat split; auto; [now rewrite Hce | constructor; auto]. }
    destruct Hp as [Hp|Hp]; [discriminate|].
    destruct (ngx_hunk_in_memory_only (st p)) eqn:Hmem; cbn [negb].
    + assert (Hstep : forall a1 h1,
                 array_ends_at a1 (last (st p)) ->
                 iov_bytes (elts a1)
                 = iov_bytes (elts a0)
                   ++ bytes_of (pos (st p)) (last (st p) - pos (st p)) ->
                 h1 = h0 + (last (st p) - pos (st p)) ->
                 header_scan st ok next (last (st p)) a1 h1
                 = scan_done prev arr hs rest ->
                 exists scanned,
                   p :: next = scanned ++ rest /\
                   all_memory st scanned /\
                   scan_stop st rest /\
                   iov_bytes (elts arr)
                   = iov_bytes (elts a0) ++ chain_bytes st scanned /\
                   hs = h0 + Z.of_nat (length (chain_bytes st scanned))).
      { intros a1 h1 He1 Hb1 Hh1 H.
        destruct (IH _ _ _ He1 Hnext H)
          as (sc & Hce & Hall & Hstop & Hb & Hh).
        exists (p :: sc). simpl. rewrite Hsp.
        split; [now rewrite Hce|]. split; [constructor; auto|].
        split; [exact Hstop|]. split.
        - now rewrite Hb, Hb1, <- app_assoc.
        - rewrite Hh, Hh1, length_app, Nat2Z.inj_add.
          rewrite bytes_of_length by lia. lia. }
      destruct (Z.eqb_spec p0 (pos (st p))) as [E|E].
      * destruct a0 as [|iov older]; [discriminate|].
        destruct Hends as [Hend Hlen].
        apply Hstep; [simpl; lia | | reflexivity].
        unfold elts. simpl. rewrite !iov_bytes_snoc, <- app_assoc. simpl.
        f_equal. rewrite bytes_of_app by lia. f_equal. f_equal. lia.
      * destruct (ok (nelts a0)); [|discriminate].
        apply Hstep; [simpl; lia | | reflexivity].
        unfold elts. simpl. now rewrite iov_bytes_snoc.
    + intros H. inversion H. subst. exists []. simpl.
      rewrite app_nil_r, Z.add_0_r. repeat split; auto. constructor.
Qed.

(** X2. Coalescing does not change what is sent.  When a scan over a chain
    whose memory spans have their start before their end is done, the chain
    is the part scanned followed by the link the scan stopped at; the part
    scanned has special and memory spans only; the scan stopped at the end
    of the chain or at a span that is neither; and the entries of the
    array, in the order the system call gets them, cover the very
    addresses of the memory spans scanned, in chain order.  For the header
    scan [hsize] is the number of these bytes. *)
Theorem scan_vectors_cover_the_spans (ce : ngx_chain_t)
    (prev : Z) (arr : ngx_array_t) (hs : Z) (rest : ngx_chain_t) :
  memory_ranges_ok st ce ->
  (header_scan st ok ce NULL [] 0 = scan_done prev arr hs rest ->
   exists scanned,
     ce = scanned ++ rest /\ all_memory st scanned /\ scan_stop st rest /\
     iov_bytes (elts arr) = chain_bytes st scanned /\
     hs = Z.of_nat (length (iov_bytes (elts arr))))
  /\
  (trailer_scan st ok ce NULL [] = scan_done prev arr hs rest ->
   exists scanned,
     ce = scanned ++ rest /\ all_memory st scanned /\ scan_stop st rest /\
     iov_bytes (elts arr) = chain_bytes st scanned).
Proof.
  intros Hok. split; intros H.
  - destruct (header_scan_bytes ce NULL [] 0 prev arr hs rest I Hok H)
      as (sc & Hce & Hall & Hstop & Hb & Hh).
    exists sc. simpl in Hb. rewrite Hb. now repeat split.
  - rewrite (trailer_as_header _ _ _ _ _ 0) in H.
    apply forget_hsize_done in H. destruct H as [hs' H].
    destruct (header_scan_bytes ce NULL [] 0 prev arr hs' rest I Hok H)
      as (sc & Hce & Hall & Hstop & Hb & Hh).
    exists sc. simpl in Hb. now repeat split.
Qed.

End ScanBytes.

(** ** The extent of the file region *)

Lemma run_size_telescopes (st : store) (f : ngx_hunk_t) (run : ngx_chain_t)
    (fprev : Z) :
  contiguous_run st f fprev run ->
  run_size st run = run_end st fprev run - fprev.
Proof.
  revert fprev. induction run as [|p run IH]; intros fprev; simpl.
  - intros _. lia.
  - intros (_ & _ & Hpos & Hrun). rewrite (IH _ Hrun). lia.
Qed.

Lemma file_coalesce_inv (st : store) (f : ngx_hunk_t) (ce : ngx_chain_t)
    (fsize fprev : Z) (fsize' : Z) (ce' : ngx_chain_t) :
  file_coalesce st f fsize fprev ce = (fsize', ce') ->
  exists merged,
    ce = merged ++ ce' /\
    contiguous_run st f fprev merged /\
    fsize' = fsize + run_size st merged /\
    region_stop st f (run_end st fprev merged) ce'.
Proof.
  revert fsize fprev.
  induction ce as [|p next IH]; intros fsize fprev; simpl.
  - intros H. inversion H. exists []. simpl. repeat split; auto. lia.
  - destruct (has_bits (st p) NGX_HUNK_FILE) eqn:Hf.
    + destruct (Z.eqb_spec (fd (file f)) (fd (file (st p)))) as [Efd|Efd];
        destruct (Z.eqb_spec fprev (file_pos (st p))) as [Epos|Epos]; simpl.
      * intros H. destruct (IH _ _ H) as (mg & Hce & Hrun & Hsz & Hstop).
        exists (p :: mg). simpl. rewrite Hce.
        repeat split; auto. lia.
      * intros H. inversion H. subst. exists []. simpl.
        repeat split; auto; [lia|]. intros (_ & _ & E). contradiction.
      * intros H. inversion H. subst. exists []. simpl.
        repeat split; auto; [lia|]. intros (_ & E & _). contradiction.
      * intros H. inversion H. subst. exists []. simpl.
        repeat split; auto; [lia|]. intros (_ & E & _). contradiction.
    + intros H. inversion H. subst. exists []. simpl.
      repeat split; auto; [lia|]. intros (E & _). unfold file_span in E.
      congruence.
Qed.

(** The parts of the chain around a file region. *)
Lemma file_region_inv (st : store) (ce : ngx_chain_t)
    (file : option hunk_ref) (fsize : Z) (ce' : ngx_chain_t) :
  file_region st ce = (file, fsize, ce') ->
  match file with
  | Some f =>
      exists merged,
        ce = f :: merged ++ ce' /\
        file_span (st f) /\
        contiguous_run st (st f) (file_last (st f)) merged /\
        region_stop st (st f) (run_end st (file_last (st f)) merged) ce'
  | None => ce' = ce /\ fsize = 0
  end.
Proof.
  unfold file_region. destruct ce as [|p next].
  - intros H. inversion H. now split.
  - destruct (has_bits (st p) NGX_HUNK_FILE) eqn:Hf.
    + destruct (file_coalesce _ _ _ _ next) as [fs c'] eqn:Hc.
      intros H. inversion H. subst.
      destruct (file_coalesce_inv _ _ _ _ _ _ _ Hc)
        as (mg & Hce & Hrun & _ & Hstop).
      exists mg. rewrite Hce. now repeat split.
    + intros H. inversion H. now split.
Qed.

(** X3. The file region is the longest run it can be.  When a file hunk
    [f] is found, the chain is [f], the spans merged into it and the rest;
    the merged spans are file spans of the file of [f], each starting at
    the end offset of the one before; the rest does not go on with a span
    that could have been merged; and [fsize] is the distance from the
    start offset of [f] to the end offset of the last span merged.  When
    no file hunk is found the chain is empty or starts with a span without
    the file bit, and nothing is taken from it. *)
Theorem file_region_is_longest_run (st : store) (ce : ngx_chain_t)
    (file : option hunk_ref) (fsize : Z) (ce' : ngx_chain_t) :
  file_region st ce = (file, fsize, ce') ->
  match file with
  | Some f =>
      exists merged,
        ce = f :: merged ++ ce' /\
        file_span (st f) /\
        contiguous_run st (st f) (file_last (st f)) merged /\
        region_stop st (st f) (run_end st (file_last (st f)) merged) ce' /\
        fsize = run_end st (file_last (st f)) merged - file_pos (st f) /\
        fsize = file_last (st f) - file_pos (st f) + run_size st merged
  | None =>
      ce' = ce /\ fsize = 0 /\
      match ce with
      | [] => True
      | p :: _ => ~ file_span (st p)
      end
  end.
Proof.
  unfold file_region. destruct ce as [|p next].
  - intros H. inversion H. now repeat split.
  - destruct (has_bits (st p) NGX_HUNK_FILE) eqn:Hf.
    + destruct (file_coalesce _ _ _ _ next) as [fs c'] eqn:Hc.
      intros H. inversion H. subst.
      destruct (file_coalesce_inv _ _ _ _ _ _ _ Hc)
        as (mg & Hce & Hrun & Hsz & Hstop).
      exists mg. rewrite Hce. repeat split; auto.
      rewrite Hsz, (run_size_telescopes _ _ _ _ Hrun). lia.
    + intros H. inversion H. subst. repeat split.
      unfold file_span. congruence.
Qed.

(** ** The transmission unit *)

Lemma header_scan_split (st : store) (ok : nat -> bool) (ce : ngx_chain_t)
    (p0 : Z) (a0 : ngx_array_t) (h0 : Z)
    (prev : Z) (arr : ngx_array_t) (hs : Z) (rest : ngx_chain_t) :
  header_scan st ok ce p0 a0 h0 = scan_done prev arr hs rest ->
  exists scanned,
    ce = scanned ++ rest /\ all_memory st scanned /\ scan_stop st rest /\
    (scanned = [] -> arr = a0).
Proof.
  revert p0 a0 h0.
  induction ce as [|p next IH]; intros p0 a0 h0; cbn [header_scan].
  - intros H. inversion H. exists []. repeat split. constructor.
  - destruct (ngx_hunk_special (st p)) eqn:Hsp.
    { intros H. destruct (IH _ _ _ H) as (sc & Hce & Hall & Hstop & _).
      exists (p :: sc). rewrite Hce.
      repeat split; auto; [constructor; auto | discriminate]. }
    destruct (ngx_hunk_in_memory_only (st p)) eqn:Hmem; cbn [negb].
    + assert (Hstep : forall a1 h1,
                 header_scan st ok next (last (st p)) a1 h1
                 = scan_done prev arr hs rest ->
                 exists scanned,
                   p :: next = scanned ++ rest /\ all_memory st scanned /\
                   scan_stop st rest /\ (scanned = [] -> arr = a0)).
      { intros a1 h1 H.
        destruct (IH _ _ _ H) as (sc & Hce & Hall & Hstop & _).
        exists (p :: sc). rewrite Hce.
        repeat split; auto; [constructor; auto | discriminate]. }
      destruct (p0 =? pos (st p)).
      * destruct a0; [discriminate | apply Hstep].
      * destruct (ok (nelts a0)); [apply Hstep | discriminate].
    + intros H. inversion H. subst. exists [].
      repeat split; auto. constructor.
Qed.

Lemma trailer_scan_split (st : store) (ok : nat -> bool) (ce : ngx_chain_t)
    (p0 : Z) (a0 : ngx_array_t)
    (prev : Z) (arr : ngx_array_t) (z : Z) (rest : ngx_chain_t) :
  trailer_scan st ok ce p0 a0 = scan_done prev arr z rest ->
  exists scanned,
    ce = scanned ++ rest /\ all_memory st scanned /\ scan_stop st rest /\
    (scanned = [] -> arr = a0).
Proof.
  rewrite (trailer_as_header _ _ _ _ _ 0). intros H.
  apply forget_hsize_done in H. destruct H as [hs H].
  eapply header_scan_split, H.
Qed.

(** A scan that starts at the link another scan stopped at takes nothing. *)
Lemma all_memory_at_stop (st : store) (scanned rest : ngx_chain_t) :
  all_memory st scanned -> scan_stop st (scanned ++ rest) -> scanned = [].
Proof.
  intros Hall Hstop. destruct scanned as [|p sc]; [reflexivity|].
  inversion Hall as [|x l Hp _]. subst. simpl in Hstop.
  destruct Hstop as [H1 H2]. destruct Hp; congruence.
Qed.

(** X4. What one iteration sets out to send.  When the coalescing steps
    succeed, the chain is a header part of special and memory spans, then
    the file hunk with the spans merged into it, then a trailer part of
    special and memory spans, then [tail], which is NULL or starts with a
    span that is neither special nor a memory span.  Without a file hunk
    there is no file part and no trailer part either, the trailer array is
    empty and [fsize] is 0: everything writev() is given is in the header
    array. *)
Theorem coalesce_partitions_chain (st : store) (w : os_reply)
    (in_ : ngx_chain_t) (header : ngx_array_t) (hsize : Z)
    (file : option hunk_ref) (fsize : Z) (trailer : ngx_array_t)
    (tail : ngx_chain_t) :
  coalesce st w in_ = coalesce_ok header hsize file fsize trailer tail ->
  exists hpart fpart tpart,
    in_ = hpart ++ fpart ++ tpart ++ tail /\
    all_memory st hpart /\ all_memory st tpart /\ scan_stop st tail /\
    match file with
    | Some f =>
        exists merged,
          fpart = f :: merged /\ file_span (st f) /\
          contiguous_run st (st f) (file_last (st f)) merged /\
          region_stop st (st f) (run_end st (file_last (st f)) merged)
            (tpart ++ tail)
    | None => fpart = [] /\ tpart = [] /\ trailer = [] /\ fsize = 0
    end.
Proof.
  unfold coalesce.
  destruct (negb (header_init_ok w)); [discriminate|].
  destruct (negb (trailer_init_ok w)); [discriminate|].
  destruct (header_scan _ _ _ _ _ _) as [| |p1 a1 h1 ce] eqn:Hh;
    try discriminate.
  destruct (file_region st ce) as [[fl fs] ce'] eqn:Hr.
  destruct (trailer_scan _ _ _ _ _) as [| |p2 a2 z tl] eqn:Ht;
    try discriminate.
  intros H. injection H as E1 E2 E3 E4 E5 E6. subst a1 h1 fl fs a2 tl.
  destruct (header_scan_split _ _ _ _ _ _ _ _ _ _ Hh)
    as (hpart & Hce & Hhall & Hhstop & _).
  destruct (trailer_scan_split _ _ _ _ _ _ _ _ _ Ht)
    as (tpart & Hce' & Htall & Htstop & Hnil).
  apply file_region_inv in Hr.
  destruct file as [f|].
  - destruct Hr as (mg & Hc & Hf & Hrun & Hstop).
    exists hpart, (f :: mg), tpart.
    split; [rewrite Hce, Hc, Hce'; reflexivity|].
    repeat split; auto. exists mg. rewrite <- Hce'. now repeat split.
  - destruct Hr as (Hc & Hfs).
    assert (Hn : tpart = []).
    { apply (all_memory_at_stop st tpart tail Htall).
      rewrite <- Hce', Hc. exact Hhstop. }
    exists hpart, [], tpart.
    split; [rewrite Hce, <- Hc, Hce'; reflexivity|].
    repeat split; auto.
Qed.

(** ** The cursors *)

Lemma moved_forward_refl (h : ngx_hunk_t) : hunk_ok h -> moved_forward h h.
Proof.
  intros Hok. pose proof Hok as (H1 & H2 & _).
  unfold moved_forward. do 6 (split; [reflexivity || lia|]). exact Hok.
Qed.

Lemma moved_forward_trans (h1 h2 h3 : ngx_hunk_t) :
  moved_forward h1 h2 -> moved_forward h2 h3 -> moved_forward h1 h3.
Proof.
  intros (A1 & A2 & A3 & A4 & A5 & A6 & A7) (B1 & B2 & B3 & B4 & B5 & B6 & B7).
  unfold moved_forward.
  do 6 (split; [congruence || lia|]). exact B7.
Qed.

Lemma has_bits_by_type (h h' : ngx_hunk_t) (mask : Z) :
  type h' = type h -> has_bits h' mask = has_bits h mask.
Proof. unfold has_bits. now intros ->. Qed.

(** Sizes do not grow and do not go below 0. *)
Lemma moved_forward_size (h h' : ngx_hunk_t) :
  moved_forward h h' -> 0 <= ngx_hunk_size h' <= ngx_hunk_size h.
Proof.
  intros (A1 & A2 & A3 & A4 & A5 & A6 & _).
  unfold ngx_hunk_size. rewrite (has_bits_by_type _ _ _ A3).
  destruct (has_bits h NGX_HUNK_IN_MEMORY); lia.
Qed.

Lemma hunk_ok_size (h : ngx_hunk_t) : hunk_ok h -> 0 <= ngx_hunk_size h.
Proof.
  intros (H1 & H2 & _). unfold ngx_hunk_size.
  destruct (has_bits h NGX_HUNK_IN_MEMORY); lia.
Qed.

(** The cases of the memory and the file bit of [h] in a goal on the
    cursors of [hunk_consume h] or [hunk_advance h n]. *)
Ltac cursor_cases h :=
  unfold moved_forward, hunk_ok, ngx_hunk_size in *;
  repeat match goal with
  | |- context [has_bits (hunk_consume h) ?m] =>
      change (has_bits (hunk_consume h) m) with (has_bits h m)
  | |- context [has_bits (hunk_advance h ?n) ?m] =>
      change (has_bits (hunk_advance h n) m) with (has_bits h m)
  end;
  cbn [hunk_consume hunk_advance pos last file_pos file_last type file];
  destruct (has_bits h NGX_HUNK_IN_MEMORY);
  destruct (has_bits h NGX_HUNK_FILE);
  repeat split; try reflexivity; try lia; intros; try discriminate;
  try lia.

Lemma hunk_consume_forward (h : ngx_hunk_t) :
  hunk_ok h -> moved_forward h (hunk_consume h).
Proof.
  intros (H1 & H2 & H3). cursor_cases h.
Qed.

Lemma hunk_advance_forward (h : ngx_hunk_t) (sent : Z) :
  hunk_ok h -> 0 <= sent < ngx_hunk_size h ->
  moved_forward h (hunk_advance h sent).
Proof.
  intros (H1 & H2 & H3) Hs. cursor_cases h.
  all: try (specialize (H3 eq_refl eq_refl); lia).
Qed.

Lemma completion_forward (st : store) (sent : Z) (ce : ngx_chain_t) :
  store_ok st -> 0 <= sent ->
  forall p, moved_forward (st p) (fst (completion st sent ce) p).
Proof.
  revert st sent. induction ce as [|q next IH]; intros st sent Hok Hs p;
    simpl.
  - now apply moved_forward_refl.
  - destruct (ngx_hunk_special (st q)); [now apply IH|].
    destruct (Z.eqb_spec sent 0); [now apply moved_forward_refl|].
    pose proof (hunk_ok_size _ (Hok q)) as Hsz.
    destruct (sent >=? ngx_hunk_size (st q)) eqn:Hge.
    + apply Z.geb_le in Hge.
      assert (Hq : moved_forward (st q) (hunk_consume (st q)))
        by now apply hunk_consume_forward.
      assert (Hok' : store_ok (upd st q (hunk_consume (st q)))).
      { intros x. unfold upd. destruct (Nat.eqb_spec x q); [apply Hq|].
        apply Hok. }
      eapply moved_forward_trans; [|apply IH; [exact Hok' | lia]].
      unfold upd. destruct (Nat.eqb_spec p q) as [->|]; [exact Hq|].
      now apply moved_forward_refl.
    + rewrite Z.geb_leb in Hge. apply Z.leb_gt in Hge. simpl.
      unfold upd. destruct (Nat.eqb_spec p q) as [->|].
      * apply hunk_advance_forward; [apply Hok | lia].
      * now apply moved_forward_refl.
Qed.

Lemma reported_sent_not_negative (w : os_reply) (file : option hunk_ref) :
  0 <= io_sent w -> 0 <= reported_sent w file.
Proof.
  intros H. unfold reported_sent. destruct file; [exact H|].
  destruct (io_rc w >? 0) eqn:E; [|lia].
  apply Z.gtb_lt in E. lia.
Qed.

Lemma iteration_forward (t : ngx_freebsd_tunables) (w : os_reply)
    (m : machine) (in_ : ngx_chain_t) :
  store_ok (hunks m) -> 0 <= io_sent w ->
  match iteration t w m in_ with
  | iter_again m' _ | iter_return m' _ =>
      (forall p, moved_forward (hunks m p) (hunks m' p)) /\
      c_sent (conn m) <= c_sent (conn m')
  | iter_fault => True
  end.
Proof.
  intros Hok Hs. unfold iteration.
  destruct (loop_body t w m in_) as [m1| |m1 in' tail eintr eagain] eqn:Hb.
  - assert (E : hunks m1 = hunks m) by (eapply loop_body_error_inv, Hb).
    split; [intros p; rewrite E; now apply moved_forward_refl|].
    revert Hb. unfold loop_body.
    destruct (coalesce (hunks m) w in_)
      as [| | header hsize [f|] fsize trailer tl]; try discriminate.
    + intros H. inversion H. lia.
    + rewrite sendfile_branch_cases.
      destruct (before_sendfile_conn t m) as (H1 & _).
      destruct (wants_nopush t m && (tcp_nopush_rc w =? NGX_ERROR)).
      { intros H. inversion H. lia. }
      destruct ((io_rc w =? -1) && negb ((io_errno w =? NGX_EAGAIN)
                                         || (io_errno w =? NGX_EINTR))).
      { intros H. inversion H. simpl. lia. }
      intros H. apply apply_sent_inv in H. discriminate H.
    + unfold writev_branch.
      destruct ((io_rc w =? -1) && negb (io_errno w =? NGX_EAGAIN)
                && negb (io_errno w =? NGX_EINTR)).
      { intros H. inversion H. simpl. lia. }
      intros H. apply apply_sent_inv in H. discriminate H.
  - exact I.
  - apply loop_body_test_inv in Hb.
    destruct Hb as (header & hsize & file & fsize & trailer & _ & _ & Hst
                    & _ & Hsent & _).
    pose proof (reported_sent_not_negative w file Hs) as Hr.
    assert (Hf : forall p, moved_forward (hunks m p) (hunks m1 p)).
    { intros p. rewrite Hst. now apply completion_forward. }
    destruct eagain; [|destruct (nonnull tail && chain_eqb tail in' || eintr)];
      rewrite ?leave_hunks, ?leave_sent; simpl; split; auto; lia.
Qed.

Lemma do_while_forward (t : ngx_freebsd_tunables) (replies : list os_reply)
    (m m' : machine) (in_ : ngx_chain_t) :
  store_ok (hunks m) -> sent_not_negative replies ->
  result_machine (do_while t replies m in_) = Some m' ->
  (forall p, moved_forward (hunks m p) (hunks m' p)) /\
  c_sent (conn m) <= c_sent (conn m').
Proof.
  revert m in_. induction replies as [|w replies IH]; intros m in_ Hok Hs;
    simpl.
  - intros H. inversion H. subst.
    split; [intros p; now apply moved_forward_refl | lia].
  - inversion Hs as [|x l Hw Hrest]. subst.
    pose proof (iteration_forward t w m in_ Hok Hw) as Hi.
    destruct (iteration t w m in_) as [m1 in1|m1 r1|]; simpl.
    + destruct Hi as [Hf Hc]. intros H.
      assert (Hok1 : store_ok (hunks m1)) by (intros p; apply (Hf p)).
      destruct (IH _ _ Hok1 Hrest H) as [Hf' Hc'].
      split; [|lia]. intros p. eapply moved_forward_trans; eauto.
    + intros H. inversion H. subst. exact Hi.
    + discriminate.
Qed.

(** X5. Cursors only move forward and never pass their limit.  In a store
    whose hunks have their cursors within the limits, and when no
    sendfile() reports a negative number of bytes, whatever a call ends
    with, every hunk has its limits, type and file as before, its memory
    cursor and its file cursor where they were or further on and not beyond
    the limit, so its size has not grown and is not negative; and
    [c->sent] has not decreased. *)
Theorem cursors_only_move_forward
    (t : ngx_freebsd_tunables) (replies : list os_reply) (m m' : machine)
    (in_ : ngx_chain_t) :
  store_ok (hunks m) -> sent_not_negative replies ->
  result_machine (ngx_freebsd_sendfile_chain t replies m in_) = Some m' ->
  (forall p,
      moved_forward (hunks m p) (hunks m' p) /\
      0 <= ngx_hunk_size (hunks m' p) <= ngx_hunk_size (hunks m p)) /\
  store_ok (hunks m') /\
  c_sent (conn m) <= c_sent (conn m').
Proof.
  intros Hok Hs. unfold ngx_freebsd_sendfile_chain.
  assert (Hgoal : (forall p, moved_forward (hunks m p) (hunks m' p)) /\
                  c_sent (conn m) <= c_sent (conn m') ->
                  (forall p,
                      moved_forward (hunks m p) (hunks m' p) /\
                      0 <= ngx_hunk_size (hunks m' p)
                        <= ngx_hunk_size (hunks m p)) /\
                  store_ok (hunks m') /\
                  c_sent (conn m) <= c_sent (conn m')).
  { intros [Hf Hc]. split; [|split; [|exact Hc]].
    - intros p. split; [apply Hf | apply moved_forward_size, Hf].
    - intros p. apply (Hf p). }
  destruct (c_write_ready (conn m)); simpl; intros H; apply Hgoal.
  - eapply do_while_forward; eauto.
  - inversion H. subst.
    split; [intros p; now apply moved_forward_refl | lia].
Qed.

(** ** What a call gives back *)

Lemma hunk_consume_size (h : ngx_hunk_t) :
  has_bits h NGX_HUNK_IN_MEMORY = true \/ has_bits h NGX_HUNK_FILE = true ->
  ngx_hunk_size (hunk_consume h) = 0.
Proof.
  intros H. unfold ngx_hunk_size.
  change (has_bits (hunk_consume h) NGX_HUNK_IN_MEMORY)
    with (has_bits h NGX_HUNK_IN_MEMORY).
  cbn [hunk_consume pos last file_pos file_last].
  destruct (has_bits h NGX_HUNK_IN_MEMORY); [lia|].
  destruct H as [H|H]; [discriminate|]. rewrite H. lia.
Qed.

Lemma kinds_ok_forward (st st' : store) :
  kinds_ok st -> (forall p, type (st' p) = type (st p)) -> kinds_ok st'.
Proof.
  intros Hk Ht p. specialize (Hk p). specialize (Ht p).
  now rewrite (special_by_type _ _ Ht), !(has_bits_by_type _ _ _ Ht).
Qed.

Lemma completion_prefix_spent (st : store) (sent : Z) (ce : ngx_chain_t) :
  store_ok st -> kinds_ok st -> 0 <= sent ->
  exists pre,
    ce = pre ++ snd (completion st sent ce) /\
    forall p, In p pre ->
              ngx_hunk_special (st p) = true \/
              ngx_hunk_size (fst (completion st sent ce) p) = 0.
Proof.
  revert st sent. induction ce as [|q next IH]; intros st sent Hok Hk Hs;
    simpl.
  - exists []. split; [reflexivity | intros p []].
  - destruct (ngx_hunk_special (st q)) eqn:Hsp.
    + destruct (IH st sent Hok Hk Hs) as (pre & Hce & Hpre).
      exists (q :: pre). split; [simpl; now rewrite <- Hce|].
      intros p [<-|Hin]; [now left | now apply Hpre].
    + destruct (Z.eqb_spec sent 0).
      { exists []. split; [reflexivity | intros p []]. }
      pose proof (hunk_ok_size _ (Hok q)) as Hsz.
      destruct (sent >=? ngx_hunk_size (st q)) eqn:Hge.
      * apply Z.geb_le in Hge.
        set (st1 := upd st q (hunk_consume (st q))).
        assert (Hok1 : store_ok st1).
        { intros x. unfold st1, upd. destruct (Nat.eqb_spec x q).
          - apply hunk_consume_forward, Hok.
          - apply Hok. }
        assert (Ht1 : forall p, type (st1 p) = type (st p)).
        { intros x. unfold st1, upd. now destruct (Nat.eqb_spec x q) as [->|]. }
        assert (Hk1 : kinds_ok st1) by (eapply kinds_ok_forward; eauto).
        assert (Hs1 : 0 <= sent - ngx_hunk_size (st q)) by lia.
        destruct (IH st1 _ Hok1 Hk1 Hs1) as (pre & Hce & Hpre).
        exists (q :: pre). split; [simpl; now rewrite <- Hce|].
        intros p [<-|Hin].
        -- right.
           pose proof (moved_forward_size _ _
                         (completion_forward st1 _ next Hok1 Hs1 q)) as Hm.
           assert (E : ngx_hunk_size (st1 q) = 0).
           { unfold st1. rewrite upd_same. apply hunk_consume_size.
             destruct (Hk q) as [H|H]; [congruence | exact H]. }
           lia.
        -- destruct (Hpre p Hin) as [H|H]; [left | now right].
           now rewrite <- (special_by_type _ _ (Ht1 p)).
      * exists []. split; [reflexivity | intros p []].
Qed.

Lemma completion_head (st : store) (sent : Z) (ce : ngx_chain_t)
    (q : hunk_ref) (r : ngx_chain_t) :
  snd (completion st sent ce) = q :: r -> ngx_hunk_special (st q) = false.
Proof.
  revert st sent. induction ce as [|p next IH]; intros st sent; simpl.
  - discriminate.
  - destruct (ngx_hunk_special (st p)) eqn:Hsp; [apply IH|].
    destruct (sent =? 0); [intros H; now inversion H; subst|].
    destruct (sent >=? ngx_hunk_size (st p)).
    + intros H. apply IH in H.
      rewrite <- H. symmetry. apply special_by_type.
      unfold upd. now destruct (Nat.eqb_spec q p) as [->|].
    + simpl. intros H. now inversion H; subst.
Qed.

(** What an iteration that hands a chain on or back has done to it. *)
Lemma iteration_chain (t : ngx_freebsd_tunables) (w : os_reply)
    (m m' : machine) (in_ out : ngx_chain_t) :
  iteration t w m in_ = iter_again m' out \/
  iteration t w m in_ = iter_return m' (chain_ptr out) ->
  exists s,
    hunks m' = fst (completion (hunks m) s in_) /\
    out = snd (completion (hunks m) s in_) /\
    (0 <= io_sent w -> 0 <= s) /\
    (iteration t w m in_ = iter_return m' (chain_ptr out) ->
     out <> [] -> c_write_ready (conn m') = false).
Proof.
  unfold iteration.
  destruct (loop_body t w m in_) as [m1| |m1 in' tail eintr eagain] eqn:Hb.
  - intros [H|H]; discriminate H.
  - intros [H|H]; discriminate H.
  - apply loop_body_test_inv in Hb.
    destruct Hb as (header & hsize & file & fsize & trailer & _ & _ & Hst
                    & Hin & _).
    intros H. exists (reported_sent w file).
    assert (Hl : forall x, in' <> [] ->
                           c_write_ready (conn (leave x in')) = false).
    { intros x Hn. unfold leave. destruct in'; [contradiction|reflexivity]. }
    destruct eagain; [|destruct (nonnull tail && chain_eqb tail in' || eintr)];
      destruct H as [H|H]; try discriminate H; inversion H; subst;
      rewrite ?leave_hunks; simpl;
      (split; [exact Hst|]); (split; [reflexivity|]);
      (split; [apply reported_sent_not_negative|]);
      try (intros _; apply Hl); try discriminate.
Qed.

Lemma do_while_spent (t : ngx_freebsd_tunables) (replies : list os_reply)
    (m m' : machine) (in_ out : ngx_chain_t) :
  store_ok (hunks m) -> kinds_ok (hunks m) -> sent_not_negative replies ->
  do_while t replies m in_ = call_returns m' (chain_ptr out) ->
  exists pre,
    in_ = pre ++ out /\
    forall p, In p pre ->
              ngx_hunk_special (hunks m p) = true \/
              ngx_hunk_size (hunks m' p) = 0.
Proof.
  revert m in_. induction replies as [|w replies IH];
    intros m in_ Hok Hk Hs; simpl; [discriminate|].
  inversion Hs as [|x l Hw Hrest]. subst.
  destruct (iteration t w m in_) as [m1 in1|m1 r1|] eqn:Hi;
    [| |discriminate].
  - intros H.
    destruct (iteration_chain t w m m1 in_ in1 (or_introl Hi))
      as (s & Hst & Hin & Hs0 & _).
    specialize (Hs0 Hw).
    destruct (completion_prefix_spent (hunks m) s in_ Hok Hk Hs0)
      as (pre1 & Hce1 & Hpre1).
    rewrite <- Hst, <- Hin in *.
    assert (Hf1 : forall p, moved_forward (hunks m p) (hunks m1 p))
      by (intros p; rewrite Hst; now apply completion_forward).
    assert (Hok1 : store_ok (hunks m1)) by (intros p; apply (Hf1 p)).
    assert (Hk1 : kinds_ok (hunks m1)).
    { eapply kinds_ok_forward; [exact Hk|]. intros p. apply (Hf1 p). }
    destruct (IH m1 in1 Hok1 Hk1 Hrest H) as (pre2 & Hce2 & Hpre2).
    exists (pre1 ++ pre2). split; [now rewrite Hce1, Hce2, app_assoc|].
    intros p Hp. apply in_app_or in Hp. destruct Hp as [Hp|Hp].
    + destruct (Hpre1 p Hp) as [E|E]; [now left | right].
      assert (Hm : result_machine (do_while t replies m1 in1) = Some m')
        by now rewrite H.
      destruct (do_while_forward t replies m1 m' in1 Hok1 Hrest Hm)
        as [Hf _].
      pose proof (moved_forward_size _ _ (Hf p)). lia.
    + destruct (Hpre2 p Hp) as [E|E]; [left | now right].
      rewrite <- E. symmetry. apply special_by_type, (Hf1 p).
  - intros H. inversion H. subst.
    destruct (iteration_chain t w m m' in_ out (or_intror Hi))
      as (s & Hst & Hin & Hs0 & _).
    specialize (Hs0 Hw).
    destruct (completion_prefix_spent (hunks m) s in_ Hok Hk Hs0)
      as (pre1 & Hce1 & Hpre1).
    rewrite <- Hst, <- Hin in *. now exists pre1.
Qed.

(** X6. No unsent data is dropped.  In a store whose hunks have their
    cursors within the limits and their data in memory or in a file unless
    they are special, and with no negative number of bytes reported, the
    chain given to a call is what the call has dealt with followed by the
    chain it returns, and every span it has dealt with is special or has
    no bytes left when the call returns. *)
Theorem dropped_spans_are_spent
    (t : ngx_freebsd_tunables) (replies : list os_reply) (m m' : machine)
    (in_ out : ngx_chain_t) :
  store_ok (hunks m) -> kinds_ok (hunks m) -> sent_not_negative replies ->
  ngx_freebsd_sendfile_chain t replies m in_
    = call_returns m' (chain_ptr out) ->
  exists pre,
    in_ = pre ++ out /\
    forall p, In p pre ->
              ngx_hunk_special (hunks m p) = true \/
              ngx_hunk_size (hunks m' p) = 0.
Proof.
  intros Hok Hk Hs. unfold ngx_freebsd_sendfile_chain.
  destruct (c_write_ready (conn m)); simpl.
  - now apply do_while_spent.
  - intros H. inversion H. subst. exists []. split; [reflexivity|].
    intros p [].
Qed.

Lemma do_while_head (t : ngx_freebsd_tunables) (replies : list os_reply)
    (m m' : machine) (in_ : ngx_chain_t) (q : hunk_ref) (r : ngx_chain_t) :
  do_while t replies m in_ = call_returns m' (chain_ptr (q :: r)) ->
  c_write_ready (conn m') = false /\ ngx_hunk_special (hunks m' q) = false.
Proof.
  revert m in_. induction replies as [|w replies IH]; intros m in_; simpl;
    [discriminate|].
  destruct (iteration t w m in_) as [m1 in1|m1 r1|] eqn:Hi;
    [apply IH | | discriminate].
  intros H. inversion H. subst.
  destruct (iteration_chain t w m m' in_ (q :: r) (or_intror Hi))
    as (s & Hst & Hin & _ & Hready).
  split; [apply Hready; [exact Hi | discriminate]|].
  symmetry in Hin. apply completion_head in Hin.
  rewrite <- Hin. apply special_by_type.
  rewrite Hst. apply completion_type.
Qed.

(** X7. A caller that gets unsent data back finds the connection not
    ready for writing: whenever a call returns a chain that is not empty,
    [c->write->ready] is off, and, unless the flag was off already when
    the call was made, the chain starts with a span that is not special. *)
Theorem unsent_chain_means_not_ready
    (t : ngx_freebsd_tunables) (replies : list os_reply) (m m' : machine)
    (in_ : ngx_chain_t) (q : hunk_ref) (r : ngx_chain_t) :
  ngx_freebsd_sendfile_chain t replies m in_
    = call_returns m' (chain_ptr (q :: r)) ->
  c_write_ready (conn m') = false /\
  (c_write_ready (conn m) = true ->
   ngx_hunk_special (hunks m' q) = false).
Proof.
  unfold ngx_freebsd_sendfile_chain.
  destruct (c_write_ready (conn m)) eqn:Hr; simpl.
  - intros H. apply do_while_head in H. now split.
  - intros H. inversion H. subst. split; [exact Hr | discriminate].
Qed.

(** ** How far a byte count gets *)

Lemma completion_frame (st : store) (sent : Z) (ce : ngx_chain_t)
    (q : hunk_ref) :
  ~ In q ce -> fst (completion st sent ce) q = st q.
Proof.
  revert st sent. induction ce as [|p next IH]; intros st sent Hq; simpl;
    [reflexivity|].
  assert (Hne : q <> p) by (intros ->; apply Hq; now left).
  assert (Hn : ~ In q next) by (intros H; apply Hq; now right).
  destruct (ngx_hunk_special (st p)); [now apply IH|].
  destruct (sent =? 0); [reflexivity|].
  destruct (sent >=? ngx_hunk_size (st p)).
  - rewrite IH by exact Hn. now apply upd_other.
  - simpl. now apply upd_other.
Qed.

Lemma total_size_ext (st st' : store) (ce : ngx_chain_t) :
  (forall p, In p ce -> st' p = st p) ->
  total_size st' ce = total_size st ce.
Proof.
  induction ce as [|p next IH]; intros H; simpl; [reflexivity|].
  rewrite (H p (or_introl eq_refl)), IH; [reflexivity|].
  intros q Hq. apply H. now right.
Qed.

Lemma all_pending_ext (st st' : store) (ce : ngx_chain_t) :
  (forall p, In p ce -> st' p = st p) ->
  all_pending st ce -> all_pending st' ce.
Proof.
  unfold all_pending. rewrite !Forall_forall. intros H Hp p Hin.
  rewrite (H p Hin). now apply Hp.
Qed.

Lemma total_size_pending (st : store) (ce : ngx_chain_t) :
  all_pending st ce -> 0 <= total_size st ce.
Proof.
  induction 1 as [|p next Hp _ IH]; simpl; [lia|].
  destruct (ngx_hunk_special (st p)); [lia|].
  destruct Hp as [Hp|Hp]; [discriminate | lia].
Qed.

Lemma skip_special_ext (st st' : store) (ce : ngx_chain_t) :
  (forall p, type (st' p) = type (st p)) ->
  skip_special st' ce = skip_special st ce.
Proof.
  intros H. induction ce as [|p next IH]; simpl; [reflexivity|].
  now rewrite (special_by_type _ _ (H p)), IH.
Qed.

Lemma skip_special_at_stop (st : store) (ce : ngx_chain_t) :
  scan_stop st ce -> skip_special st ce = ce.
Proof.
  destruct ce as [|q r]; simpl; [reflexivity|]. now intros [-> _].
Qed.

Lemma upd_consume_type (st : store) (p : hunk_ref) (q : hunk_ref) :
  type (upd st p (hunk_consume (st p)) q) = type (st q).
Proof. unfold upd. now destruct (Nat.eqb_spec q p) as [->|]. Qed.

(** The byte count of a part of the chain sends all of it and stops right
    behind it. *)
Lemma completion_exact (st : store) (unit tail : ngx_chain_t) :
  NoDup unit -> all_pending st unit ->
  completion st (total_size st unit) (unit ++ tail)
  = (consume_all st unit, skip_special st tail).
Proof.
  revert st. induction unit as [|p u IH]; intros st Hnd Hp.
  - simpl. apply completion_zero.
  - inversion Hnd as [|x l Hnin Hnd']. subst.
    inversion Hp as [|x l Hpp Hpu]. subst.
    cbn [app completion total_size consume_all fold_left].
    destruct (ngx_hunk_special (st p)) eqn:Hsp.
    { rewrite Z.add_0_l. now apply IH. }
    destruct Hpp as [Hpp|Hpp]; [discriminate|].
    pose proof (total_size_pending _ _ Hpu) as Ht.
    destruct (Z.eqb_spec (ngx_hunk_size (st p) + total_size st u) 0);
      [lia|].
    assert (Hge : (ngx_hunk_size (st p) + total_size st u
                   >=? ngx_hunk_size (st p)) = true)
      by (apply Z.geb_le; lia).
    rewrite Hge.
    set (st1 := upd st p (hunk_consume (st p))).
    assert (Hsame : forall q, In q u -> st1 q = st q).
    { intros q Hq. unfold st1. apply upd_other. intros ->. contradiction. }
    replace (ngx_hunk_size (st p) + total_size st u - ngx_hunk_size (st p))
      with (total_size st1 u)
      by (rewrite (total_size_ext _ _ _ Hsame); lia).
    rewrite IH; [|exact Hnd' | now apply (all_pending_ext st)].
    f_equal. apply skip_special_ext. intros q. apply upd_consume_type.
Qed.


Lemma coalesce_tail_stop (st : store) (w : os_reply) (in_ : ngx_chain_t)
    (header : ngx_array_t) (hsize : Z) (file : option hunk_ref) (fsize : Z)
    (trailer : ngx_array_t) (tail : ngx_chain_t) :
  coalesce st w in_ = coalesce_ok header hsize file fsize trailer tail ->
  scan_stop st tail.
Proof.
  unfold coalesce.
  destruct (negb (header_init_ok w)); [discriminate|].
  destruct (negb (trailer_init_ok w)); [discriminate|].
  destruct (header_scan _ _ _ _ _ _) as [| |p1 a1 h1 ce]; try discriminate.
  destruct (file_region st ce) as [[fl fs] ce'].
  destruct (trailer_scan _ _ _ _ _) as [| |p2 a2 z tl] eqn:Ht;
    try discriminate.
  intros H. injection H as E1 E2 E3 E4 E5 E6. subst tl.
  now destruct (trailer_scan_split _ _ _ _ _ _ _ _ _ Ht) as (? & _ & _ & ? & _).
Qed.

(** X8. "tail == in" means that a single sendfile() is complete.  Take an
    iteration that gets past its system call, on a chain that is a part
    [unit] of distinct hunks, all special or with bytes left, followed by
    [tail].  When the system call reports exactly the bytes of [unit],
    every span of [unit] is sent whole, nothing else is touched and the new
    head is [tail]; so, unless sendfile() said EAGAIN, the loop goes on
    with [tail] when there is one, and otherwise the call returns the empty
    chain with the write-ready flag as it was. *)
Theorem whole_unit_sent_moves_to_tail
    (t : ngx_freebsd_tunables) (w : os_reply) (m m' : machine)
    (in' unit tail : ngx_chain_t) (eintr eagain : bool) :
  loop_body t w m (unit ++ tail) = body_test m' in' tail eintr eagain ->
  NoDup unit -> all_pending (hunks m) unit ->
  c_sent (conn m') - c_sent (conn m) = total_size (hunks m) unit ->
  in' = tail /\
  hunks m' = consume_all (hunks m) unit /\
  (eagain = false -> tail <> [] ->
   forall replies,
     do_while t (w :: replies) m (unit ++ tail)
     = do_while t replies m' tail) /\
  (eagain = false -> eintr = false -> tail = [] ->
   forall replies,
     do_while t (w :: replies) m (unit ++ tail)
     = call_returns m' (chain_ptr []) /\
     c_write_ready (conn m') = c_write_ready (conn m)).
Proof.
  intros Hb Hnd Hp Hs.
  pose proof (loop_body_test_inv _ _ _ _ _ _ _ _ _ Hb) as Hinv.
  destruct Hinv as (header & hsize & file & fsize & trailer & Hco & _ & Hst
                    & Hin & Hsent & Hready & _).
  assert (E : reported_sent w file = total_size (hunks m) unit) by lia.
  rewrite E, completion_exact in Hst, Hin by assumption. simpl in Hst, Hin.
  rewrite (skip_special_at_stop _ _ (coalesce_tail_stop _ _ _ _ _ _ _ _ _ Hco))
    in Hin.
  subst in'. split; [reflexivity|]. split; [exact Hst|].
  split.
  - intros -> Hne replies. simpl. unfold iteration. rewrite Hb.
    rewrite chain_eqb_refl. destruct tail; [contradiction|reflexivity].
  - intros -> -> -> replies. simpl. unfold iteration. rewrite Hb.
    simpl. now split.
Qed.


Lemma hunk_advance_size (h : ngx_hunk_t) (sent : Z) :
  has_bits h NGX_HUNK_IN_MEMORY = true \/ has_bits h NGX_HUNK_FILE = true ->
  ngx_hunk_size (hunk_advance h sent) = ngx_hunk_size h - sent.
Proof.
  intros H. unfold ngx_hunk_size.
  change (has_bits (hunk_advance h sent) NGX_HUNK_IN_MEMORY)
    with (has_bits h NGX_HUNK_IN_MEMORY).
  cbn [hunk_advance pos last file_pos file_last].
  destruct (has_bits h NGX_HUNK_IN_MEMORY); [lia|].
  destruct H as [H|H]; [discriminate|]. rewrite H. lia.
Qed.

Lemma total_size_ok (st : store) (ce : ngx_chain_t) :
  store_ok st -> 0 <= total_size st ce.
Proof.
  intros Hok. induction ce as [|p next IH]; simpl; [lia|].
  pose proof (hunk_ok_size _ (Hok p)).
  destruct (ngx_hunk_special (st p)); lia.
Qed.

Lemma completion_total (st : store) (sent : Z) (ce : ngx_chain_t) :
  NoDup ce -> store_ok st -> kinds_ok st -> 0 <= sent ->
  total_size (fst (completion st sent ce)) ce
  = Z.max 0 (total_size st ce - sent).
Proof.
  revert st sent. induction ce as [|p next IH];
    intros st sent Hnd Hok Hk Hs; simpl; [lia|].
  inversion Hnd as [|x l Hnin Hnd']. subst.
  pose proof (total_size_ok st next Hok) as Hn.
  pose proof (hunk_ok_size _ (Hok p)) as Hsz.
  destruct (ngx_hunk_special (st p)) eqn:Hsp.
  - rewrite (special_by_type _ _ (completion_type st sent next p)), Hsp.
    rewrite IH by assumption. lia.
  - assert (Hkind : has_bits (st p) NGX_HUNK_IN_MEMORY = true
                    \/ has_bits (st p) NGX_HUNK_FILE = true).
    { destruct (Hk p) as [H|H]; [congruence | exact H]. }
    destruct (Z.eqb_spec sent 0) as [->|Hnz].
    { simpl. rewrite Hsp. lia. }
    destruct (sent >=? ngx_hunk_size (st p)) eqn:Hge.
    + apply Z.geb_le in Hge.
      remember (upd st p (hunk_consume (st p))) as st1 eqn:Hst1.
      assert (Hp1 : st1 p = hunk_consume (st p))
        by (subst st1; apply upd_same).
      assert (Ht1 : forall q, type (st1 q) = type (st q))
        by (intros q; subst st1; apply upd_consume_type).
      assert (Hsame : forall q, In q next -> st1 q = st q).
      { intros q Hq. subst st1. apply upd_other. intros ->. contradiction. }
      assert (Hok1 : store_ok st1).
      { intros x. destruct (Nat.eq_dec x p) as [->|Hx].
        - rewrite Hp1. apply hunk_consume_forward, Hok.
        - subst st1. rewrite upd_other by exact Hx. apply Hok. }
      assert (Hk1 : kinds_ok st1) by (eapply kinds_ok_forward; eauto).
      rewrite (special_by_type _ _ (completion_type st1 _ next p)).
      rewrite (special_by_type _ _ (Ht1 p)), Hsp.
      rewrite completion_frame by exact Hnin.
      rewrite Hp1, hunk_consume_size by exact Hkind.
      rewrite IH by (assumption || lia).
      rewrite (total_size_ext _ _ _ Hsame). lia.
    + rewrite Z.geb_leb in Hge. apply Z.leb_gt in Hge. simpl.
      rewrite upd_same.
      change (ngx_hunk_special (hunk_advance (st p) sent))
        with (ngx_hunk_special (st p)).
      rewrite Hsp, hunk_advance_size by exact Hkind.
      rewrite (total_size_ext st (upd st p (hunk_advance (st p) sent)) next);
        [lia|].
      intros q Hq. apply upd_other. intros ->. contradiction.
Qed.

(** X10. Bytes counted are bytes applied.  In an iteration that gets past
    its system call, on a chain of distinct hunks with their cursors within
    the limits and their data in memory or in a file unless they are
    special, the bytes left in the chain go down by the number of bytes
    added to [c->sent], down to 0 when the system call reported more than
    the chain held. *)
Theorem sent_bytes_leave_the_chain
    (t : ngx_freebsd_tunables) (w : os_reply) (m m' : machine)
    (in_ in' tail : ngx_chain_t) (eintr eagain : bool) :
  loop_body t w m in_ = body_test m' in' tail eintr eagain ->
  NoDup in_ -> store_ok (hunks m) -> kinds_ok (hunks m) ->
  0 <= io_sent w ->
  0 <= c_sent (conn m') - c_sent (conn m) /\
  total_size (hunks m) in_ - total_size (hunks m') in_
  = Z.min (c_sent (conn m') - c_sent (conn m)) (total_size (hunks m) in_).
Proof.
  intros Hb Hnd Hok Hk Hs.
  apply loop_body_test_inv in Hb.
  destruct Hb as (header & hsize & file & fsize & trailer & _ & _ & Hst
                  & _ & Hsent & _).
  pose proof (reported_sent_not_negative w file Hs) as Hr.
  split; [lia|].
  rewrite Hst, completion_total by assumption.
  pose proof (total_size_ok (hunks m) in_ Hok). lia.
Qed.

(** ** The system calls of a call *)

Lemma call_effects_refl (t : ngx_freebsd_tunables) (m : machine) (n : nat) :
  call_effects t m m n [].
Proof.
  unfold call_effects, nopush_calls, transmit_calls.
  rewrite app_nil_r. simpl.
  split; [reflexivity|]. split; [reflexivity|]. split; [constructor|].
  split; [lia|]. split; [now destruct (c_tcp_nopush (conn m))|].
  split; auto.
Qed.

Lemma call_effects_trans (t : ngx_freebsd_tunables) (m1 m2 m3 : machine)
    (n1 n2 : nat) (e1 e2 : list syscall) :
  call_effects t m1 m2 n1 e1 -> call_effects t m2 m3 n2 e2 ->
  call_effects t m1 m3 (n1 + n2) (e1 ++ e2).
Proof.
  intros (A1 & A2 & A3 & A4 & A5 & A6 & A7) (B1 & B2 & B3 & B4 & B5 & B6 & B7).
  unfold call_effects, transmit_calls, nopush_calls in *.
  rewrite !filter_app, !length_app.
  split; [now rewrite B1, A1, app_assoc|].
  split; [congruence|].
  split; [apply Forall_app; split; [exact A3 | now rewrite <- A2]|].
  split; [lia|].
  split; [|split; [auto | intros H; now rewrite B7, A7]].
  rewrite A5, B5.
  destruct (c_tcp_nopush (conn m1)) eqn:E1;
    destruct (c_tcp_nopush (conn m2)) eqn:E2;
    destruct (c_tcp_nopush (conn m3)) eqn:E3; simpl; try reflexivity;
    try (specialize (A6 eq_refl); discriminate A6);
    try (specialize (B6 eq_refl); discriminate B6).
Qed.

(** The fields the effects speak of. *)
Lemma call_effects_same (t : ngx_freebsd_tunables) (m m1 m2 : machine)
    (n : nat) (evs : list syscall) :
  trace m2 = trace m1 -> c_fd (conn m2) = c_fd (conn m1) ->
  c_tcp_nopush (conn m2) = c_tcp_nopush (conn m1) ->
  call_effects t m m1 n evs -> call_effects t m m2 n evs.
Proof.
  intros Ht Hf Hn. unfold call_effects. now rewrite Ht, Hf, Hn.
Qed.

Lemma call_effects_le (t : ngx_freebsd_tunables) (m m' : machine)
    (n n' : nat) (evs : list syscall) :
  (n <= n')%nat -> call_effects t m m' n evs -> call_effects t m m' n' evs.
Proof.
  intros Hle (A1 & A2 & A3 & A4 & A5). unfold call_effects.
  repeat split; try tauto. lia.
Qed.

Lemma before_sendfile_effects (t : ngx_freebsd_tunables) (m : machine) :
  call_effects t m (before_sendfile t m) 0
    (if wants_nopush t m then [sys_tcp_nopush (c_fd (conn m))] else []).
Proof.
  unfold before_sendfile, wants_nopush.
  destruct (Z.eqb_spec (ngx_freebsd_use_tcp_nopush t) 0) as [E|E]; simpl.
  - apply call_effects_refl.
  - destruct (c_tcp_nopush (conn m)) eqn:En; simpl.
    + apply call_effects_refl.
    + unfold call_effects, nopush_calls, transmit_calls. simpl.
      rewrite En. simpl.
      split; [reflexivity|]. split; [reflexivity|].
      split; [repeat constructor|]. split; [lia|].
      split; [reflexivity|]. split; [reflexivity | contradiction].
Qed.

Lemma emit_transmit_effects (t : ngx_freebsd_tunables) (m : machine)
    (e : syscall) :
  is_transmit e = true -> on_socket (c_fd (conn m)) e ->
  call_effects t m (emit m e) 1 [e].
Proof.
  intros He Hs. unfold call_effects, nopush_calls, transmit_calls. simpl.
  rewrite He.
  assert (Hn : is_nopush e = false) by (destruct e; simpl in *; congruence).
  rewrite Hn. simpl.
  split; [reflexivity|]. split; [reflexivity|].
  split; [repeat constructor; exact Hs|]. split; [lia|].
  split; [now destruct (c_tcp_nopush (conn m))|]. split; auto.
Qed.

Lemma loop_body_effects (t : ngx_freebsd_tunables) (w : os_reply)
    (m m1 : machine) (in_ : ngx_chain_t) :
  body_machine (loop_body t w m in_) = Some m1 ->
  exists evs, call_effects t m m1 1 evs.
Proof.
  unfold loop_body.
  destruct (coalesce (hunks m) w in_)
    as [| | header hsize [f|] fsize trailer tail]; simpl.
  - discriminate.
  - intros H. inversion H. subst. eexists. apply call_effects_refl.
  - rewrite sendfile_branch_cases.
    pose proof (before_sendfile_effects t m) as Hb.
    destruct (before_sendfile_conn t m) as (_ & _ & Hfd).
    set (nbytes := fsize + _).
    assert (Hs : call_effects t m
                   (emit (before_sendfile t m)
                      (sendfile_call m f nbytes header trailer)) 1
                   ((if wants_nopush t m
                     then [sys_tcp_nopush (c_fd (conn m))] else [])
                    ++ [sendfile_call m f nbytes header trailer])).
    { apply (call_effects_trans t m _ _ 0 1 _ _ Hb).
      apply emit_transmit_effects; [reflexivity|]. simpl. now rewrite Hfd. }
    destruct (wants_nopush t m && (tcp_nopush_rc w =? NGX_ERROR)).
    { simpl. intros H. inversion H. subst. eexists.
      apply (call_effects_le t m _ 0 1 _ (Nat.le_0_l 1)). exact Hb. }
    destruct ((io_rc w =? -1) && negb ((io_errno w =? NGX_EAGAIN)
                                       || (io_errno w =? NGX_EINTR))).
    { simpl. intros H. inversion H. subst. eexists. exact Hs. }
    unfold apply_sent. destruct (completion _ _ _) as [st' in'].
    simpl. intros H. inversion H. subst. eexists.
    eapply call_effects_same; [..|exact Hs]; reflexivity.
  - unfold writev_branch.
    assert (Hs : call_effects t m
                   (emit m (sys_writev (c_fd (conn m)) (elts header))) 1
                   [sys_writev (c_fd (conn m)) (elts header)]).
    { apply emit_transmit_effects; reflexivity. }
    destruct ((io_rc w =? -1) && negb (io_errno w =? NGX_EAGAIN)
              && negb (io_errno w =? NGX_EINTR)).
    { simpl. intros H. inversion H. subst. eexists. exact Hs. }
    unfold apply_sent. destruct (completion _ _ _) as [st' in'].
    simpl. intros H. inversion H. subst. eexists.
    eapply call_effects_same; [..|exact Hs]; reflexivity.
Qed.

Lemma leave_effects (t : ngx_freebsd_tunables) (m m1 : machine) (n : nat)
    (evs : list syscall) (in_ : ngx_chain_t) :
  call_effects t m m1 n evs -> call_effects t m (leave m1 in_) n evs.
Proof.
  intros H. unfold leave. destruct (nonnull in_); [|exact H].
  eapply call_effects_same; [..|exact H]; reflexivity.
Qed.

Lemma iteration_effects (t : ngx_freebsd_tunables) (w : os_reply)
    (m : machine) (in_ : ngx_chain_t) :
  match iteration t w m in_ with
  | iter_again m' _ | iter_return m' _ =>
      exists evs, call_effects t m m' 1 evs
  | iter_fault => True
  end.
Proof.
  unfold iteration.
  pose proof (loop_body_effects t w m) as Hb. specialize (fun m1 => Hb m1 in_).
  destruct (loop_body t w m in_) as [m1| |m1 in' tail eintr eagain];
    simpl in Hb.
  - now apply Hb.
  - exact I.
  - destruct (Hb m1 eq_refl) as [evs He].
    destruct eagain; [|destruct (nonnull tail && chain_eqb tail in' || eintr)].
    + exists evs. apply leave_effects.
      eapply call_effects_same; [..|exact He]; reflexivity.
    + now exists evs.
    + exists evs. now apply leave_effects.
Qed.

Lemma do_while_effects (t : ngx_freebsd_tunables) (replies : list os_reply)
    (m m' : machine) (in_ : ngx_chain_t) :
  result_machine (do_while t replies m in_) = Some m' ->
  exists evs, call_effects t m m' (length replies) evs.
Proof.
  revert m in_. induction replies as [|w replies IH]; intros m in_; simpl.
  - intros H. inversion H. subst. eexists. apply call_effects_refl.
  - pose proof (iteration_effects t w m in_) as Hi.
    destruct (iteration t w m in_) as [m1 in1|m1 r1|]; simpl.
    + intros H. destruct Hi as [e1 H1]. destruct (IH _ _ H) as [e2 H2].
      exists (e1 ++ e2). apply (call_effects_trans t m m1 m' 1 _ _ _ H1 H2).
    + intros H. inversion H. subst. destruct Hi as [e1 H1]. exists e1.
      apply (call_effects_le t m m' 1 _ _ (le_n_S _ _ (Nat.le_0_l _)) H1).
    + discriminate.
Qed.

(** X11. TCP_NOPUSH is turned on once.  Whatever a call ends with, it has
    only added system calls to the trace, all of them on the socket of the
    connection, whose descriptor it has not changed; it has made at most
    one sendfile() or writev() per reply consumed; it has called
    [ngx_tcp_nopush()] once if [c->tcp_nopush] went from off to on and not
    at all otherwise; the flag never goes off, and it stays as it is when
    [ngx_freebsd_use_tcp_nopush] is 0. *)
Theorem nopush_is_turned_on_once
    (t : ngx_freebsd_tunables) (replies : list os_reply) (m m' : machine)
    (in_ : ngx_chain_t) :
  result_machine (ngx_freebsd_sendfile_chain t replies m in_) = Some m' ->
  exists evs,
    call_effects t m m' (length replies) evs /\
    (nopush_calls evs <= 1)%nat /\
    (c_tcp_nopush (conn m) = true -> nopush_calls evs = 0%nat) /\
    (ngx_freebsd_use_tcp_nopush t = 0 -> nopush_calls evs = 0%nat).
Proof.
  unfold ngx_freebsd_sendfile_chain. intros H.
  assert (He : exists evs, call_effects t m m' (length replies) evs).
  { destruct (c_write_ready (conn m)); simpl in H.
    - now apply do_while_effects in H.
    - inversion H. subst. eexists. apply call_effects_refl. }
  destruct He as [evs He]. exists evs. split; [exact He|].
  destruct He as (_ & _ & _ & _ & Hn & Hon & Hoff). rewrite Hn.
  split; [|split].
  - destruct (c_tcp_nopush (conn m') && negb (c_tcp_nopush (conn m))); lia.
  - intros E. rewrite E. now rewrite andb_false_r.
  - intros E. rewrite (Hoff E). now destruct (c_tcp_nopush (conn m)).
Qed.

(** ** Error returns *)

(** X12. A failed [ngx_tcp_nopush()] leaves the flag on.  When the socket
    option cannot be set, the call returns the error marker having made
    that one system call and no sendfile(); no hunk, not [c->sent] and not
    the write-ready flag has changed, but [c->tcp_nopush] is on, so no
    later call on this connection tries to set the option again. *)
Theorem nopush_failure_keeps_flag
    (t : ngx_freebsd_tunables) (w : os_reply) (replies : list os_reply)
    (m : machine) (in_ : ngx_chain_t) (header : ngx_array_t) (hsize : Z)
    (f : hunk_ref) (fsize : Z) (trailer : ngx_array_t) (tail : ngx_chain_t) :
  coalesce (hunks m) w in_
    = coalesce_ok header hsize (Some f) fsize trailer tail ->
  nopush_fails t w m ->
  exists m1,
    do_while t (w :: replies) m in_ = call_returns m1 NGX_CHAIN_ERROR /\
    trace m1 = trace m ++ [sys_tcp_nopush (c_fd (conn m))] /\
    c_tcp_nopush (conn m1) = true /\
    hunks m1 = hunks m /\
    c_sent (conn m1) = c_sent (conn m) /\
    c_write_ready (conn m1) = c_write_ready (conn m) /\
    forall t2 replies2 in2 m3,
      result_machine (ngx_freebsd_sendfile_chain t2 replies2 m1 in2)
        = Some m3 ->
      exists evs, trace m3 = trace m1 ++ evs /\ nopush_calls evs = 0%nat.
Proof.
  intros Hco Hnp. pose proof Hnp as [Hw Hrc].
  exists (before_sendfile t m).
  assert (Hon : c_tcp_nopush (conn (before_sendfile t m)) = true).
  { unfold before_sendfile. now rewrite Hw. }
  split.
  { simpl. unfold iteration, loop_body.
    rewrite Hco, sendfile_branch_cases.
    apply nopush_fails_dec in Hnp. now rewrite Hnp. }
  split; [rewrite before_sendfile_trace; now rewrite Hw|].
  split; [exact Hon|].
  split; [apply before_sendfile_hunks|].
  destruct (before_sendfile_conn t m) as (H1 & H2 & _).
  split; [exact H1|]. split; [exact H2|].
  intros t2 replies2 in2 m3 H.
  assert (He : exists evs,
             call_effects t2 (before_sendfile t m) m3 (length replies2) evs).
  { unfold ngx_freebsd_sendfile_chain in H.
    destruct (c_write_ready (conn (before_sendfile t m))); simpl in H.
    - now apply do_while_effects in H.
    - inversion H. subst. eexists. apply call_effects_refl. }
  destruct He as (evs & Ht & _ & _ & _ & Hn & _).
  exists evs. split; [exact Ht|].
  now rewrite Hn, Hon, andb_false_r.
Qed.

Lemma iteration_again_ready (t : ngx_freebsd_tunables) (w : os_reply)
    (m m' : machine) (in_ in' : ngx_chain_t) :
  iteration t w m in_ = iter_again m' in' ->
  c_write_ready (conn m') = c_write_ready (conn m).
Proof.
  unfold iteration.
  destruct (loop_body t w m in_) as [m1| |m1 in1 tail eintr eagain] eqn:Hb;
    try discriminate.
  apply loop_body_test_inv in Hb.
  destruct Hb as (header & hsize & file & fsize & trailer & _ & _ & _ & _
                  & _ & Hr & _).
  destruct eagain; [discriminate|].
  destruct (nonnull tail && chain_eqb tail in1 || eintr); [|discriminate].
  intros H. now inversion H; subst.
Qed.

Lemma iteration_error_causes (t : ngx_freebsd_tunables) (w : os_reply)
    (m : machine) (in_ : ngx_chain_t) :
  (exists m', iteration t w m in_ = iter_return m' NGX_CHAIN_ERROR) <->
  coalesce (hunks m) w in_ = coalesce_nomem \/
  exists header hsize file fsize trailer tail,
    coalesce (hunks m) w in_
      = coalesce_ok header hsize file fsize trailer tail /\
    ((file <> None /\ nopush_fails t w m) \/ fatal w).
Proof.
  unfold iteration, loop_body.
  destruct (coalesce (hunks m) w in_)
    as [| | header hsize [f|] fsize trailer tail] eqn:Hco.
  - split; [intros [m' H]; discriminate H|].
    intros [H|(? & ? & ? & ? & ? & ? & H & _)]; discriminate H.
  - split; [now left | intros _; now exists m].
  - rewrite sendfile_branch_cases.
    destruct (wants_nopush t m && (tcp_nopush_rc w =? NGX_ERROR)) eqn:Enp.
    { split; [|intros _; eexists; reflexivity].
      intros _. right. exists header, hsize, (Some f), fsize, trailer, tail.
      split; [reflexivity|]. left. split; [discriminate|].
      now apply nopush_fails_dec. }
    destruct ((io_rc w =? -1) && negb ((io_errno w =? NGX_EAGAIN)
                                       || (io_errno w =? NGX_EINTR))) eqn:Ef.
    { split; [|intros _; eexists; reflexivity].
      intros _. right. exists header, hsize, (Some f), fsize, trailer, tail.
      split; [reflexivity|]. right. now apply fatal_dec. }
    unfold apply_sent. destruct (completion _ _ _) as [st' in'].
    split.
    + intros [m' H].
      destruct ((io_rc w =? -1) && (io_errno w =? NGX_EAGAIN));
        [discriminate H|].
      destruct (nonnull tail && chain_eqb tail in'
                || (io_rc w =? -1) && (io_errno w =? NGX_EINTR));
        discriminate H.
    + intros [H|(? & ? & ? & ? & ? & ? & H & [[_ Hn]|Hf])];
        [discriminate H | |].
      * apply nopush_fails_dec in Hn. congruence.
      * apply fatal_dec in Hf. congruence.
  - unfold writev_branch.
    destruct ((io_rc w =? -1) && negb (io_errno w =? NGX_EAGAIN)
              && negb (io_errno w =? NGX_EINTR)) eqn:Ef.
    { split; [|intros _; eexists; reflexivity].
      intros _. right. exists header, hsize, None, fsize, trailer, tail.
      split; [reflexivity|]. right. apply fatal_dec.
      rewrite <- Ef. destruct (io_rc w =? -1); simpl; [|reflexivity].
      now destruct (io_errno w =? NGX_EAGAIN), (io_errno w =? NGX_EINTR). }
    unfold apply_sent. destruct (completion _ _ _) as [st' in'].
    split.
    + intros [m' H]. simpl in H.
      destruct (nonnull tail && chain_eqb tail in'
                || (io_rc w =? -1) && negb (io_errno w =? NGX_EAGAIN)
                   && (io_errno w =? NGX_EINTR));
        discriminate H.
    + intros [H|(? & ? & ? & ? & ? & ? & H & [[Hn _]|Hf])];
        [discriminate H | |].
      * inversion H. subst. now contradiction Hn.
      * apply fatal_dec in Hf. exfalso. revert Ef Hf.
        destruct (io_rc w =? -1); simpl; [|discriminate].
        destruct (io_errno w =? NGX_EAGAIN), (io_errno w =? NGX_EINTR);
          simpl; congruence.
Qed.

Lemma iteration_error_state (t : ngx_freebsd_tunables) (w : os_reply)
    (m m' : machine) (in_ : ngx_chain_t) :
  iteration t w m in_ = iter_return m' NGX_CHAIN_ERROR ->
  hunks m' = hunks m /\ c_sent (conn m') = c_sent (conn m) /\
  c_write_ready (conn m') = c_write_ready (conn m).
Proof.
  unfold iteration, loop_body.
  destruct (coalesce (hunks m) w in_)
    as [| | header hsize [f|] fsize trailer tail] eqn:Hco.
  - discriminate.
  - intros H. inversion H. now subst.
  - rewrite sendfile_branch_cases.
    destruct (before_sendfile_conn t m) as (H1 & H2 & _).
    pose proof (before_sendfile_hunks t m) as H3.
    destruct (wants_nopush t m && (tcp_nopush_rc w =? NGX_ERROR)).
    { intros H. inversion H. now subst. }
    destruct ((io_rc w =? -1) && negb ((io_errno w =? NGX_EAGAIN)
                                       || (io_errno w =? NGX_EINTR))).
    { intros H. inversion H. subst. simpl. now repeat split. }
    unfold apply_sent. destruct (completion _ _ _) as [st' in'].
    destruct ((io_rc w =? -1) && (io_errno w =? NGX_EAGAIN));
      [discriminate|].
    destruct (nonnull tail && chain_eqb tail in'
              || (io_rc w =? -1) && (io_errno w =? NGX_EINTR));
      discriminate.
  - unfold writev_branch.
    destruct ((io_rc w =? -1) && negb (io_errno w =? NGX_EAGAIN)
              && negb (io_errno w =? NGX_EINTR)).
    { intros H. inversion H. subst. simpl. now repeat split. }
    unfold apply_sent. destruct (completion _ _ _) as [st' in']. simpl.
    destruct (nonnull tail && chain_eqb tail in'
              || (io_rc w =? -1) && negb (io_errno w =? NGX_EAGAIN)
                 && (io_errno w =? NGX_EINTR));
      discriminate.
Qed.

Lemma do_while_error_ready (t : ngx_freebsd_tunables)
    (replies : list os_reply) (m m' : machine) (in_ : ngx_chain_t) :
  do_while t replies m in_ = call_returns m' NGX_CHAIN_ERROR ->
  c_write_ready (conn m') = c_write_ready (conn m).
Proof.
  revert m in_. induction replies as [|w replies IH]; intros m in_; simpl;
    [discriminate|].
  destruct (iteration t w m in_) as [m1 in1|m1 r1|] eqn:Hi; [| |discriminate].
  - intros H. rewrite (IH _ _ H). eapply iteration_again_ready, Hi.
  - intros H. inversion H. subst. now apply iteration_error_state in Hi.
Qed.

(** X13. The three causes of the error marker.  An iteration returns
    [NGX_CHAIN_ERROR] exactly when an array could not be set up or grown,
    or a file hunk was found and [ngx_tcp_nopush()] failed, or the system
    call failed with an error other than EINTR and EAGAIN.  Such an
    iteration leaves the hunks, [c->sent] and the write-ready flag as they
    were; and a call that returns the marker returns with the write-ready
    flag still on. *)
Theorem error_marker_causes
    (t : ngx_freebsd_tunables) (w : os_reply) (m : machine)
    (in_ : ngx_chain_t) :
  ((exists m', iteration t w m in_ = iter_return m' NGX_CHAIN_ERROR) <->
   coalesce (hunks m) w in_ = coalesce_nomem \/
   exists header hsize file fsize trailer tail,
     coalesce (hunks m) w in_
       = coalesce_ok header hsize file fsize trailer tail /\
     ((file <> None /\ nopush_fails t w m) \/ fatal w)) /\
  (forall m',
      iteration t w m in_ = iter_return m' NGX_CHAIN_ERROR ->
      hunks m' = hunks m /\ c_sent (conn m') = c_sent (conn m) /\
      c_write_ready (conn m') = c_write_ready (conn m)) /\
  (forall replies m',
      ngx_freebsd_sendfile_chain t replies m in_
        = call_returns m' NGX_CHAIN_ERROR ->
      c_write_ready (conn m) = true /\ c_write_ready (conn m') = true).
Proof.
  split; [apply iteration_error_causes|].
  split; [intros m'; apply iteration_error_state|].
  intros replies m'. unfold ngx_freebsd_sendfile_chain.
  destruct (c_write_ready (conn m)) eqn:Hr; simpl; [|discriminate].
  intros H. apply do_while_error_ready in H. split; congruence.
Qed.

(** ** The arrays are as short as they can be *)

Lemma header_scan_apart (st : store) (ok : nat -> bool) (ce : ngx_chain_t)
    (p0 : Z) (a0 : ngx_array_t) (h0 : Z)
    (prev : Z) (arr : ngx_array_t) (hs : Z) (rest : ngx_chain_t) :
  newest_ends_at a0 p0 -> entries_apart a0 ->
  header_scan st ok ce p0 a0 h0 = scan_done prev arr hs rest ->
  entries_apart arr /\
  (nelts arr <= nelts a0 + memory_spans st ce)%nat.
Proof.
  revert p0 a0 h0.
  induction ce as [|p next IH]; intros p0 a0 h0 Hend Hap; cbn [header_scan].
  - intros H. inversion H. subst. split; [exact Hap | lia].
  - unfold memory_spans in *. rewrite strip_special_cons.
    destruct (ngx_hunk_special (st p)) eqn:Hsp; [now apply IH|].
    destruct (ngx_hunk_in_memory_only (st p)); cbn [negb].
    + destruct (Z.eqb_spec p0 (pos (st p))) as [E|E].
      * destruct a0 as [|iov older]; [discriminate|].
        intros H. apply IH in H.
        -- destruct H as [H1 H2]. split; [exact H1|].
           unfold nelts in *. simpl in *. lia.
        -- simpl in *. lia.
        -- simpl in *. exact Hap.
      * destruct (ok (nelts a0)); [|discriminate].
        intros H. apply IH in H.
        -- destruct H as [H1 H2]. split; [exact H1|].
           unfold nelts in *. simpl in *. lia.
        -- simpl. lia.
        -- simpl. split; [|exact Hap].
           destruct a0 as [|iov older]; [exact I|]. simpl in Hend. lia.
    + intros H. inversion H. subst. split; [exact Hap|]. lia.
Qed.

(** X14. The arrays are as short as they can be.  In the array a scan has
    built no entry starts at the address where the entry before it ends,
    so no two neighbouring entries could have been one; and the array has
    at most as many entries as the chain has spans that are not
    special. *)
Theorem scan_entries_are_apart (st : store) (ok : nat -> bool)
    (ce : ngx_chain_t) (prev : Z) (arr : ngx_array_t) (hs : Z)
    (rest : ngx_chain_t) :
  header_scan st ok ce NULL [] 0 = scan_done prev arr hs rest \/
  trailer_scan st ok ce NULL [] = scan_done prev arr hs rest ->
  entries_apart arr /\ (nelts arr <= memory_spans st ce)%nat.
Proof.
  intros [H|H].
  - apply header_scan_apart in H; simpl; auto.
  - rewrite (trailer_as_header _ _ _ _ _ 0) in H.
    apply forget_hsize_done in H. destruct H as [hs' H].
    apply header_scan_apart in H; simpl; auto.
Qed.

(** ** The write-ready flag *)

Lemma iteration_ready (t : ngx_freebsd_tunables) (w : os_reply)
    (m : machine) (in_ : ngx_chain_t) :
  match iteration t w m in_ with
  | iter_again m' _ => c_write_ready (conn m') = c_write_ready (conn m)
  | iter_return m' r =>
      (c_write_ready (conn m') = true -> c_write_ready (conn m) = true) /\
      (r = chain_ptr [] -> ~ would_block w ->
       c_write_ready (conn m') = c_write_ready (conn m))
  | iter_fault => True
  end.
Proof.
  destruct (iteration t w m in_) as [m1 in1|m1 r1|] eqn:Hi; [| |exact I].
  - eapply iteration_again_ready, Hi.
  - destruct r1 as [|out].
    + apply iteration_error_state in Hi. destruct Hi as (_ & _ & Hr).
      split; [congruence | discriminate].
    + revert Hi. unfold iteration.
      destruct (loop_body t w m in_) as [m2| |m2 in' tail eintr eagain] eqn:Hb;
        try discriminate.
      apply loop_body_test_inv in Hb.
      destruct Hb as (header & hsize & file & fsize & trailer & _ & _ & _ & _
                      & _ & Hr & _ & _ & Hea).
      destruct eagain.
      * intros H. inversion H. subst. split.
        -- unfold leave. destruct (nonnull out); simpl; discriminate.
        -- intros _ Hnb. exfalso. apply Hnb. now apply Hea.
      * destruct (nonnull tail && chain_eqb tail in' || eintr);
          [discriminate|].
        intros H. inversion H. subst. split.
        -- unfold leave. destruct (nonnull out); simpl;
             [discriminate | congruence].
        -- intros E _. inversion E. subst. simpl. exact Hr.
Qed.

Lemma do_while_ready (t : ngx_freebsd_tunables) (replies : list os_reply)
    (m m' : machine) (in_ : ngx_chain_t) (r : chain_ret) :
  do_while t replies m in_ = call_returns m' r ->
  (c_write_ready (conn m') = true -> c_write_ready (conn m) = true) /\
  (r = chain_ptr [] -> never_blocks replies ->
   c_write_ready (conn m') = c_write_ready (conn m)).
Proof.
  revert m in_. induction replies as [|w replies IH]; intros m in_; simpl;
    [discriminate|].
  pose proof (iteration_ready t w m in_) as Hi.
  destruct (iteration t w m in_) as [m1 in1|m1 r1|]; [| |discriminate].
  - intros H. destruct (IH _ _ H) as [H1 H2]. rewrite <- Hi. split; [exact H1|].
    intros Hr Hn. apply H2; [exact Hr|]. now inversion Hn.
  - intros H. inversion H. subst. destruct Hi as [H1 H2].
    split; [exact H1|]. intros Hr Hn. apply H2; [exact Hr|]. now inversion Hn.
Qed.

(** X15. The function never turns the write-ready flag on, and it leaves
    it on when all is sent: if the flag is on when a call returns it was
    on when the call was made, and a call that returns the empty chain
    without any reply having been EAGAIN returns with the flag as it
    was. *)
Theorem write_ready_only_goes_off
    (t : ngx_freebsd_tunables) (replies : list os_reply) (m m' : machine)
    (in_ : ngx_chain_t) (r : chain_ret) :
  ngx_freebsd_sendfile_chain t replies m in_ = call_returns m' r ->
  (c_write_ready (conn m') = true -> c_write_ready (conn m) = true) /\
  (r = chain_ptr [] -> never_blocks replies ->
   c_write_ready (conn m') = c_write_ready (conn m)).
Proof.
  unfold ngx_freebsd_sendfile_chain.
  destruct (c_write_ready (conn m)) eqn:Hr; simpl.
  - intros H. apply do_while_ready in H. now rewrite Hr in H.
  - intros H. inversion H. subst. split; [now rewrite Hr | now rewrite Hr].
Qed.

(** ** The further properties on the sample data *)

Lemma sample_store_ok : store_ok Sample.st0.
Proof.
  intros p. do 8 (destruct p as [|p];
                  [repeat split; simpl; try lia; intros; discriminate|]).
  repeat split; simpl; try lia; intros; discriminate.
Qed.

Lemma sample_kinds_ok : kinds_ok Sample.st0.
Proof.
  intros p. do 8 (destruct p as [|p]; [vm_compute; tauto|]).
  vm_compute. tauto.
Qed.

Lemma scans_fault_only_at_null_witness :
  starts_at_null Sample2.st_null [3; 9]%nat /\
  header_scan Sample2.st_null (fun _ => true) [3; 9]%nat NULL [] 0
    = scan_fault /\
  ~ starts_at_null Sample.st0 [3; 0; 1]%nat /\
  exists prev arr hs rest,
    header_scan Sample.st0 (fun _ => true) [3; 0; 1]%nat NULL [] 0
      = scan_done prev arr hs rest /\
    trailer_scan Sample.st0 (fun _ => true) [3; 0; 1]%nat NULL []
      = scan_done prev arr 0 rest.
Proof.
  assert (Hn : starts_at_null Sample2.st_null [3; 9]%nat).
  { exists 9%nat, []. repeat split. }
  assert (Hok : ~ starts_at_null Sample.st0 [3; 0; 1]%nat).
  { intros (p & r & H & _ & Hp). inversion H. subst. discriminate Hp. }
  split; [exact Hn|].
  split; [exact (proj2 (proj1 (scans_fault_only_at_null Sample2.st_null
                                 (fun _ => true) [3; 9]%nat)) Hn)|].
  split; [exact Hok|].
  exact (proj2 (proj2 (scans_fault_only_at_null Sample.st0 (fun _ => true)
                         [3; 0; 1]%nat)) (fun _ => eq_refl) Hok).
Defined.

Lemma scan_vectors_cover_the_spans_witness :
  memory_ranges_ok Sample.st0 [3; 0; 1; 2]%nat /\
  header_scan Sample.st0 (fun _ => true) [3; 0; 1; 2]%nat NULL [] 0
    = scan_done 1006 [{| iov_base := 1000; iov_len := 6 |}] 6 [2%nat] /\
  exists scanned,
    [3; 0; 1; 2]%nat = scanned ++ [2%nat] /\
    all_memory Sample.st0 scanned /\ scan_stop Sample.st0 [2%nat] /\
    iov_bytes (elts [{| iov_base := 1000; iov_len := 6 |}])
      = chain_bytes Sample.st0 scanned /\
    6 = Z.of_nat (length (iov_bytes
                            (elts [{| iov_base := 1000; iov_len := 6 |}]))).
Proof.
  assert (Hr : memory_ranges_ok Sample.st0 [3; 0; 1; 2]%nat).
  { unfold memory_ranges_ok.
    repeat (apply Forall_cons;
            [first [left; reflexivity | right; simpl; lia]|]).
    apply Forall_nil. }
  split; [exact Hr|]. split; [reflexivity|].
  exact (proj1 (scan_vectors_cover_the_spans Sample.st0 (fun _ => true)
                  [3; 0; 1; 2]%nat 1006
                  [{| iov_base := 1000; iov_len := 6 |}] 6 [2%nat] Hr)
           eq_refl).
Defined.

Lemma file_region_is_longest_run_witness :
  file_region Sample.st0 [2; 6; 4]%nat = (Some 2%nat, 150, [4%nat]) /\
  exists merged,
    [2; 6; 4]%nat = 2%nat :: merged ++ [4%nat] /\
    file_span (Sample.st0 2%nat) /\
    contiguous_run Sample.st0 (Sample.st0 2%nat)
      (file_last (Sample.st0 2%nat)) merged /\
    region_stop Sample.st0 (Sample.st0 2%nat)
      (run_end Sample.st0 (file_last (Sample.st0 2%nat)) merged) [4%nat] /\
    150 = run_end Sample.st0 (file_last (Sample.st0 2%nat)) merged
          - file_pos (Sample.st0 2%nat) /\
    150 = file_last (Sample.st0 2%nat) - file_pos (Sample.st0 2%nat)
          + run_size Sample.st0 merged.
Proof.
  split; [reflexivity|].
  exact (file_region_is_longest_run Sample.st0 [2; 6; 4]%nat (Some 2%nat) 150
           [4%nat] eq_refl).
Defined.

Lemma coalesce_partitions_chain_witness :
  coalesce Sample.st0 (Sample.reply 0 0 0) [0; 2; 6; 5; 4]%nat
    = coalesce_ok [{| iov_base := 1000; iov_len := 3 |}] 3 (Some 2%nat) 150
        [{| iov_base := 2000; iov_len := 10 |}] [4%nat] /\
  exists hpart fpart tpart,
    [0; 2; 6; 5; 4]%nat = hpart ++ fpart ++ tpart ++ [4%nat] /\
    all_memory Sample.st0 hpart /\ all_memory Sample.st0 tpart /\
    scan_stop Sample.st0 [4%nat] /\
    exists merged,
      fpart = 2%nat :: merged /\ file_span (Sample.st0 2%nat) /\
      contiguous_run Sample.st0 (Sample.st0 2%nat)
        (file_last (Sample.st0 2%nat)) merged /\
      region_stop Sample.st0 (Sample.st0 2%nat)
        (run_end Sample.st0 (file_last (Sample.st0 2%nat)) merged)
        (tpart ++ [4%nat]).
Proof.
  split; [reflexivity|].
  exact (coalesce_partitions_chain Sample.st0 (Sample.reply 0 0 0)
           [0; 2; 6; 5; 4]%nat [{| iov_base := 1000; iov_len := 3 |}] 3
           (Some 2%nat) 150 [{| iov_base := 2000; iov_len := 10 |}] [4%nat]
           eq_refl).
Defined.

Lemma cursors_only_move_forward_witness :
  let r := ngx_freebsd_sendfile_chain (Sample.tun 1 1) [Sample.reply 0 0 3]
             Sample.m0 [0; 1; 2]%nat in
  store_ok Sample.st0 /\ sent_not_negative [Sample.reply 0 0 3] /\
  result_machine r = Some (Sample.machine_at_return r) /\
  (forall p,
      moved_forward (Sample.st0 p) (hunks (Sample.machine_at_return r) p) /\
      0 <= ngx_hunk_size (hunks (Sample.machine_at_return r) p)
        <= ngx_hunk_size (Sample.st0 p)) /\
  store_ok (hunks (Sample.machine_at_return r)) /\
  0 <= c_sent (conn (Sample.machine_at_return r)).
Proof.
  intros r.
  assert (Hs : sent_not_negative [Sample.reply 0 0 3]).
  { repeat constructor. simpl. lia. }
  split; [exact sample_store_ok|]. split; [exact Hs|].
  split; [reflexivity|].
  exact (cursors_only_move_forward (Sample.tun 1 1) [Sample.reply 0 0 3]
           Sample.m0 (Sample.machine_at_return r) [0; 1; 2]%nat
           sample_store_ok Hs eq_refl).
Defined.

Lemma dropped_spans_are_spent_witness :
  let r := ngx_freebsd_sendfile_chain (Sample.tun 1 1) [Sample.reply 0 0 3]
             Sample.m0 [0; 1; 2]%nat in
  store_ok Sample.st0 /\ kinds_ok Sample.st0 /\
  sent_not_negative [Sample.reply 0 0 3] /\
  r = call_returns (Sample.machine_at_return r) (chain_ptr [1; 2]%nat) /\
  exists pre,
    [0; 1; 2]%nat = pre ++ [1; 2]%nat /\
    forall p, In p pre ->
              ngx_hunk_special (Sample.st0 p) = true \/
              ngx_hunk_size (hunks (Sample.machine_at_return r) p) = 0.
Proof.
  intros r.
  assert (Hs : sent_not_negative [Sample.reply 0 0 3]).
  { repeat constructor. simpl. lia. }
  split; [exact sample_store_ok|]. split; [exact sample_kinds_ok|].
  split; [exact Hs|]. split; [reflexivity|].
  exact (dropped_spans_are_spent (Sample.tun 1 1) [Sample.reply 0 0 3]
           Sample.m0 (Sample.machine_at_return r) [0; 1; 2]%nat [1; 2]%nat
           sample_store_ok sample_kinds_ok Hs eq_refl).
Defined.

Lemma unsent_chain_means_not_ready_witness :
  let r := ngx_freebsd_sendfile_chain (Sample.tun 1 1) [Sample.reply 0 0 3]
             Sample.m0 [0; 1; 2]%nat in
  r = call_returns (Sample.machine_at_return r) (chain_ptr [1; 2]%nat) /\
  c_write_ready (conn (Sample.machine_at_return r)) = false /\
  (c_write_ready (conn Sample.m0) = true ->
   ngx_hunk_special (hunks (Sample.machine_at_return r) 1%nat) = false).
Proof.
  intros r. split; [reflexivity|].
  exact (unsent_chain_means_not_ready (Sample.tun 1 1) [Sample.reply 0 0 3]
           Sample.m0 (Sample.machine_at_return r) [0; 1; 2]%nat 1%nat
           [2%nat] eq_refl).
Defined.

Lemma whole_unit_sent_moves_to_tail_witness :
  let w := Sample.reply 0 0 100 in
  let r := loop_body (Sample.tun 0 0) w Sample.m0 ([2] ++ [4])%nat in
  r = body_test (Sample.machine_at_test r) [4%nat] [4%nat] false false /\
  NoDup [2%nat] /\ all_pending Sample.st0 [2%nat] /\
  c_sent (conn (Sample.machine_at_test r)) - c_sent (conn Sample.m0)
  = total_size Sample.st0 [2%nat] /\
  hunks (Sample.machine_at_test r) = consume_all Sample.st0 [2%nat] /\
  forall replies,
    do_while (Sample.tun 0 0) (w :: replies) Sample.m0 ([2] ++ [4])%nat
    = do_while (Sample.tun 0 0) replies (Sample.machine_at_test r) [4%nat].
Proof.
  intros w r.
  assert (Hnd : NoDup [2%nat]) by (repeat constructor; intros []).
  assert (Hp : all_pending Sample.st0 [2%nat]).
  { apply Forall_cons; [right; reflexivity | apply Forall_nil]. }
  split; [reflexivity|]. split; [exact Hnd|]. split; [exact Hp|].
  split; [reflexivity|].
  destruct (whole_unit_sent_moves_to_tail (Sample.tun 0 0) w Sample.m0
              (Sample.machine_at_test r) [4%nat] [2%nat] [4%nat] false false
              eq_refl Hnd Hp eq_refl) as (_ & Hh & Hgo & _).
  split; [exact Hh|]. apply Hgo; [reflexivity | discriminate].
Defined.


Lemma sent_bytes_leave_the_chain_witness :
  let w := Sample.reply 0 0 3 in
  let r := loop_body (Sample.tun 1 1) w Sample.m0 [0; 1; 2]%nat in
  r = body_test (Sample.machine_at_test r) [1; 2]%nat [] false false /\
  NoDup [0; 1; 2]%nat /\ store_ok Sample.st0 /\ kinds_ok Sample.st0 /\
  0 <= io_sent w /\
  total_size Sample.st0 [0; 1; 2]%nat
  - total_size (hunks (Sample.machine_at_test r)) [0; 1; 2]%nat
  = Z.min (c_sent (conn (Sample.machine_at_test r)) - 0)
      (total_size Sample.st0 [0; 1; 2]%nat).
Proof.
  intros w r.
  assert (Hnd : NoDup [0; 1; 2]%nat).
  { repeat constructor; simpl; intuition discriminate. }
  assert (Hs : 0 <= io_sent w) by discriminate.
  split; [reflexivity|]. split; [exact Hnd|].
  split; [exact sample_store_ok|]. split; [exact sample_kinds_ok|].
  split; [exact Hs|].
  exact (proj2 (sent_bytes_leave_the_chain (Sample.tun 1 1) w Sample.m0
                  (Sample.machine_at_test r) [0; 1; 2]%nat [1; 2]%nat []
                  false false eq_refl Hnd sample_store_ok sample_kinds_ok
                  Hs)).
Defined.

Lemma nopush_is_turned_on_once_witness :
  let r := ngx_freebsd_sendfile_chain (Sample.tun 1 1)
             [Sample.reply 0 0 100; Sample.reply 0 0 50] Sample.m0
             [2; 4]%nat in
  result_machine r = Some (Sample.machine_at_return r) /\
  trace (Sample.machine_at_return r)
  = [sys_tcp_nopush 3; sys_sendfile 7 3 0 100 [] [];
     sys_sendfile 7 3 110 50 [] []] /\
  exists evs,
    call_effects (Sample.tun 1 1) Sample.m0 (Sample.machine_at_return r)
      2 evs /\
    (nopush_calls evs <= 1)%nat.
Proof.
  intros r. split; [reflexivity|]. split; [reflexivity|].
  destruct (nopush_is_turned_on_once (Sample.tun 1 1)
              [Sample.reply 0 0 100; Sample.reply 0 0 50] Sample.m0
              (Sample.machine_at_return r) [2; 4]%nat eq_refl)
    as (evs & He & Hn & _).
  exists evs. now split.
Defined.

Lemma nopush_failure_keeps_flag_witness :
  coalesce Sample.st0 Sample2.reply_nopush_fails [2%nat]
    = coalesce_ok [] 0 (Some 2%nat) 100 [] [] /\
  nopush_fails (Sample.tun 1 0) Sample2.reply_nopush_fails Sample.m0 /\
  exists m1,
    do_while (Sample.tun 1 0) [Sample2.reply_nopush_fails] Sample.m0 [2%nat]
      = call_returns m1 NGX_CHAIN_ERROR /\
    trace m1 = [] ++ [sys_tcp_nopush 3] /\
    c_tcp_nopush (conn m1) = true /\ hunks m1 = Sample.st0.
Proof.
  assert (Hf : nopush_fails (Sample.tun 1 0) Sample2.reply_nopush_fails
                 Sample.m0) by (split; reflexivity).
  split; [reflexivity|]. split; [exact Hf|].
  destruct (nopush_failure_keeps_flag (Sample.tun 1 0)
              Sample2.reply_nopush_fails [] Sample.m0 [2%nat] [] 0 2%nat 100
              [] [] eq_refl Hf) as (m1 & H1 & H2 & H3 & H4 & _).
  exists m1. now repeat split.
Defined.

Lemma error_marker_causes_witness :
  coalesce Sample.st0 Sample2.reply_no_memory [0; 1; 2]%nat = coalesce_nomem /\
  (exists m',
      iteration (Sample.tun 1 1) Sample2.reply_no_memory Sample.m0
        [0; 1; 2]%nat = iter_return m' NGX_CHAIN_ERROR) /\
  let r := ngx_freebsd_sendfile_chain (Sample.tun 1 1)
             [Sample.reply 0 0 100; Sample.reply (-1) 5 0] Sample.m0
             [2; 4]%nat in
  r = call_returns (Sample.machine_at_return r) NGX_CHAIN_ERROR /\
  c_write_ready (conn (Sample.machine_at_return r)) = true /\
  file_pos (hunks (Sample.machine_at_return r) 2%nat) = 100.
Proof.
  split; [reflexivity|].
  split.
  - apply (proj2 (proj1 (error_marker_causes (Sample.tun 1 1)
                           Sample2.reply_no_memory Sample.m0
                           [0; 1; 2]%nat))).
    now left.
  - intros r. split; [reflexivity|].
    split; [|reflexivity].
    exact (proj2 (proj2 (proj2 (error_marker_causes (Sample.tun 1 1)
                                  (Sample.reply 0 0 100) Sample.m0
                                  [2; 4]%nat))
                    [Sample.reply 0 0 100; Sample.reply (-1) 5 0]
                    (Sample.machine_at_return r) eq_refl)).
Defined.

Lemma scan_entries_are_apart_witness :
  header_scan Sample.st0 (fun _ => true) [0; 1; 3; 5]%nat NULL [] 0
  = scan_done 2010 [{| iov_base := 2000; iov_len := 10 |};
                    {| iov_base := 1000; iov_len := 6 |}] 16 [] /\
  entries_apart [{| iov_base := 2000; iov_len := 10 |};
                 {| iov_base := 1000; iov_len := 6 |}] /\
  (2 <= memory_spans Sample.st0 [0; 1; 3; 5]%nat)%nat.
Proof.
  split; [reflexivity|].
  exact (scan_entries_are_apart Sample.st0 (fun _ => true) [0; 1; 3; 5]%nat
           2010 [{| iov_base := 2000; iov_len := 10 |};
                 {| iov_base := 1000; iov_len := 6 |}] 16 []
           (or_introl eq_refl)).
Defined.

Lemma write_ready_only_goes_off_witness :
  let r := ngx_freebsd_sendfile_chain (Sample.tun 1 1)
             [Sample.reply 0 0 106] Sample.m0 [0; 1; 2]%nat in
  r = call_returns (Sample.machine_at_return r) (chain_ptr []) /\
  never_blocks [Sample.reply 0 0 106] /\
  c_write_ready (conn (Sample.machine_at_return r))
  = c_write_ready (conn Sample.m0).
Proof.
  intros r.
  assert (Hn : never_blocks [Sample.reply 0 0 106]).
  { apply Forall_cons; [|apply Forall_nil]. intros [H _]. discriminate H. }
  split; [reflexivity|]. split; [exact Hn|].
  exact (proj2 (write_ready_only_goes_off (Sample.tun 1 1)
                  [Sample.reply 0 0 106] Sample.m0
                  (Sample.machine_at_return r) [0; 1; 2]%nat (chain_ptr [])
                  eq_refl) eq_refl Hn).
Defined.

(** ** What lies behind the new head *)

Lemma is_suffix_in (a b : ngx_chain_t) (p : hunk_ref) :
  is_suffix a b -> In p a -> In p b.
Proof. intros [k ->] H. apply in_or_app. now right. Qed.

Lemma is_suffix_nodup (a b : ngx_chain_t) :
  is_suffix a b -> NoDup b -> NoDup a.
Proof. intros [k ->]. apply NoDup_app_remove_l. Qed.

(** A suffix of [q :: post] is the whole of it or a suffix of [post]. *)
Lemma is_suffix_tail (out post : ngx_chain_t) (q : hunk_ref) :
  is_suffix out (q :: post) -> out = q :: post \/ is_suffix out post.
Proof.
  intros [[|x k] H]; [left; now symmetry|].
  right. inversion H. now exists k.
Qed.

Lemma completion_behind_head (st : store) (sent : Z) (ce : ngx_chain_t)
    (q : hunk_ref) (post : ngx_chain_t) (p : hunk_ref) :
  NoDup ce ->
  snd (completion st sent ce) = q :: post -> In p post ->
  fst (completion st sent ce) p = st p.
Proof.
  revert st sent. induction ce as [|x next IH]; intros st sent Hnd; simpl;
    [discriminate|].
  inversion Hnd as [|y l Hnin Hnd']. subst.
  destruct (ngx_hunk_special (st x)); [now apply IH|].
  destruct (sent =? 0); [reflexivity|].
  destruct (sent >=? ngx_hunk_size (st x)).
  - intros H Hp. rewrite (IH _ _ Hnd' H Hp). apply upd_other.
    intros ->. apply Hnin.
    apply (is_suffix_in (q :: post) next); [|now right].
    rewrite <- H. apply completion_suffix.
  - simpl. intros H Hp. inversion H. subst. apply upd_other.
    intros ->. contradiction.
Qed.

Lemma do_while_behind_head (t : ngx_freebsd_tunables)
    (replies : list os_reply) (m m' : machine) (in_ : ngx_chain_t)
    (q : hunk_ref) (post : ngx_chain_t) (p : hunk_ref) :
  NoDup in_ ->
  do_while t replies m in_ = call_returns m' (chain_ptr (q :: post)) ->
  In p post -> hunks m' p = hunks m p.
Proof.
  revert m in_. induction replies as [|w replies IH]; intros m in_ Hnd; simpl;
    [discriminate|].
  destruct (iteration t w m in_) as [m1 in1|m1 r1|] eqn:Hi; [| |discriminate].
  - intros H Hp.
    destruct (iteration_chain t w m m1 in_ in1 (or_introl Hi))
      as (s & Hst & Hin & _).
    assert (Hsuf1 : is_suffix in1 in_)
      by (rewrite Hin; apply completion_suffix).
    pose proof (is_suffix_nodup _ _ Hsuf1 Hnd) as Hnd1.
    rewrite (IH m1 in1 Hnd1 H Hp).
    destruct (do_while_inv _ _ _ _ _ _ H) as [_ Hsuf].
    specialize (Hsuf _ eq_refl).
    destruct in1 as [|q1 post1].
    { apply is_suffix_length in Hsuf. simpl in Hsuf. lia. }
    rewrite Hst. symmetry in Hin.
    apply (completion_behind_head _ _ _ q1 post1 p Hnd Hin).
    destruct (is_suffix_tail _ _ _ Hsuf) as [E|E].
    + inversion E. now subst.
    + apply (is_suffix_in (q :: post) post1 p E). now right.
  - intros H Hp. inversion H. subst.
    destruct (iteration_chain t w m m' in_ (q :: post) (or_intror Hi))
      as (s & Hst & Hin & _).
    rewrite Hst. symmetry in Hin.
    now apply (completion_behind_head _ _ _ q post p Hnd Hin).
Qed.

(** X16. Nothing behind the new head is touched.  When the hunks of the
    chain given are distinct and a call returns a chain that is not empty,
    every hunk behind the first span of the chain returned is exactly as
    it was before the call. *)
Theorem spans_behind_head_untouched
    (t : ngx_freebsd_tunables) (replies : list os_reply) (m m' : machine)
    (in_ : ngx_chain_t) (q : hunk_ref) (post : ngx_chain_t) :
  NoDup in_ ->
  ngx_freebsd_sendfile_chain t replies m in_
    = call_returns m' (chain_ptr (q :: post)) ->
  forall p, In p post -> hunks m' p = hunks m p.
Proof.
  intros Hnd. unfold ngx_freebsd_sendfile_chain.
  destruct (c_write_ready (conn m)); simpl.
  - intros H p Hp. eapply do_while_behind_head; eauto.
  - intros H p Hp. now inversion H; subst.
Qed.

Lemma completion_pending (st : store) (sent : Z) (ce : ngx_chain_t) :
  NoDup ce -> kinds_ok st -> all_pending st ce -> 0 <= sent ->
  all_pending (fst (completion st sent ce)) (snd (completion st sent ce)).
Proof.
  revert st sent. induction ce as [|x next IH];
    intros st sent Hnd Hk Hp Hs; simpl; [constructor|].
  inversion Hnd as [|y l Hnin Hnd']. subst.
  inversion Hp as [|y l Hpx Hpn]. subst.
  destruct (ngx_hunk_special (st x)) eqn:Hsp; [now apply IH|].
  destruct Hpx as [Hpx|Hpx]; [congruence|].
  destruct (Z.eqb_spec sent 0); [exact Hp|].
  assert (Hkind : has_bits (st x) NGX_HUNK_IN_MEMORY = true
                  \/ has_bits (st x) NGX_HUNK_FILE = true).
  { destruct (Hk x) as [H|H]; [congruence | exact H]. }
  destruct (sent >=? ngx_hunk_size (st x)) eqn:Hge.
  - apply Z.geb_le in Hge. apply IH; [exact Hnd' | | | lia].
    + eapply kinds_ok_forward; [exact Hk|]. intros p.
      apply upd_consume_type.
    + apply (all_pending_ext st); [|exact Hpn].
      intros p Hin. apply upd_other. intros ->. contradiction.
  - rewrite Z.geb_leb in Hge. apply Z.leb_gt in Hge. simpl.
    apply Forall_cons.
    + right. rewrite upd_same, hunk_advance_size by exact Hkind. lia.
    + apply (all_pending_ext st); [|exact Hpn].
      intros p Hin. apply upd_other. intros ->. contradiction.
Qed.

Lemma do_while_pending (t : ngx_freebsd_tunables) (replies : list os_reply)
    (m m' : machine) (in_ out : ngx_chain_t) :
  NoDup in_ -> kinds_ok (hunks m) -> all_pending (hunks m) in_ ->
  sent_not_negative replies ->
  do_while t replies m in_ = call_returns m' (chain_ptr out) ->
  all_pending (hunks m') out.
Proof.
  revert m in_. induction replies as [|w replies IH];
    intros m in_ Hnd Hk Hp Hs; simpl; [discriminate|].
  inversion Hs as [|x l Hw Hrest]. subst.
  destruct (iteration t w m in_) as [m1 in1|m1 r1|] eqn:Hi; [| |discriminate].
  - destruct (iteration_chain t w m m1 in_ in1 (or_introl Hi))
      as (s & Hst & Hin & Hs0 & _).
    specialize (Hs0 Hw).
    apply IH; [| | |exact Hrest].
    + eapply is_suffix_nodup; [|exact Hnd].
      rewrite Hin. apply completion_suffix.
    + eapply kinds_ok_forward; [exact Hk|]. intros p. rewrite Hst.
      apply completion_type.
    + rewrite Hst, Hin. now apply completion_pending.
  - intros H. inversion H. subst.
    destruct (iteration_chain t w m m' in_ out (or_intror Hi))
      as (s & Hst & Hin & Hs0 & _).
    specialize (Hs0 Hw). rewrite Hst, Hin. now apply completion_pending.
Qed.

(** X17. The chain returned holds only spans with something left to send.
    When the hunks of the chain given are distinct, with their data in
    memory or in a file unless they are special, when every span that is
    not special has bytes left and no negative number of bytes is
    reported, then every span of the chain a call returns is special or
    has bytes left; and so has the first one, which is not special, when
    the write-ready flag was on. *)
Theorem returned_spans_are_pending
    (t : ngx_freebsd_tunables) (replies : list os_reply) (m m' : machine)
    (in_ out : ngx_chain_t) :
  NoDup in_ -> kinds_ok (hunks m) -> all_pending (hunks m) in_ ->
  sent_not_negative replies ->
  ngx_freebsd_sendfile_chain t replies m in_
    = call_returns m' (chain_ptr out) ->
  all_pending (hunks m') out /\
  (c_write_ready (conn m) = true ->
   forall q post, out = q :: post -> 0 < ngx_hunk_size (hunks m' q)).
Proof.
  intros Hnd Hk Hp Hs. unfold ngx_freebsd_sendfile_chain.
  destruct (c_write_ready (conn m)); simpl.
  - intros H.
    pose proof (do_while_pending _ _ _ _ _ _ Hnd Hk Hp Hs H) as Hout.
    split; [exact Hout|]. intros _ q post E. subst out.
    apply do_while_head in H. destruct H as [_ Hq].
    inversion Hout as [|x l Hx _]. subst.
    destruct Hx as [Hx|Hx]; [congruence | exact Hx].
  - intros H. inversion H. subst. split; [exact Hp | discriminate].
Qed.

Lemma spans_behind_head_untouched_witness :
  let r := ngx_freebsd_sendfile_chain (Sample.tun 1 1) [Sample.reply 0 0 3]
             Sample.m0 [0; 1; 2]%nat in
  NoDup [0; 1; 2]%nat /\
  r = call_returns (Sample.machine_at_return r) (chain_ptr [1; 2]%nat) /\
  forall p, In p [2%nat] ->
            hunks (Sample.machine_at_return r) p = Sample.st0 p.
Proof.
  intros r.
  assert (Hnd : NoDup [0; 1; 2]%nat).
  { repeat constructor; simpl; intuition discriminate. }
  split; [exact Hnd|]. split; [reflexivity|].
  exact (spans_behind_head_untouched (Sample.tun 1 1) [Sample.reply 0 0 3]
           Sample.m0 (Sample.machine_at_return r) [0; 1; 2]%nat 1%nat
           [2%nat] Hnd eq_refl).
Defined.

Lemma returned_spans_are_pending_witness :
  let r := ngx_freebsd_sendfile_chain (Sample.tun 1 1) [Sample.reply 0 0 4]
             Sample.m0 [0; 1; 2]%nat in
  NoDup [0; 1; 2]%nat /\ kinds_ok Sample.st0 /\
  all_pending Sample.st0 [0; 1; 2]%nat /\
  sent_not_negative [Sample.reply 0 0 4] /\
  r = call_returns (Sample.machine_at_return r) (chain_ptr [1; 2]%nat) /\
  all_pending (hunks (Sample.machine_at_return r)) [1; 2]%nat /\
  0 < ngx_hunk_size (hunks (Sample.machine_at_return r) 1%nat).
Proof.
  intros r.
  assert (Hnd : NoDup [0; 1; 2]%nat).
  { repeat constructor; simpl; intuition discriminate. }
  assert (Hp : all_pending Sample.st0 [0; 1; 2]%nat).
  { repeat (apply Forall_cons; [right; reflexivity|]). apply Forall_nil. }
  assert (Hs : sent_not_negative [Sample.reply 0 0 4]).
  { apply Forall_cons; [discriminate | apply Forall_nil]. }
  split; [exact Hnd|]. split; [exact sample_kinds_ok|]. split; [exact Hp|].
  split; [exact Hs|]. split; [reflexivity|].
  destruct (returned_spans_are_pending (Sample.tun 1 1) [Sample.reply 0 0 4]
              Sample.m0 (Sample.machine_at_return r) [0; 1; 2]%nat
              [1; 2]%nat Hnd sample_kinds_ok Hp Hs eq_refl) as [Ha Hh].
  split; [exact Ha|]. now apply (Hh eq_refl 1%nat [2%nat]).
Defined.
